(** * The Arbor communicator: spike exchange and event routing

    A shallow embedding of [arbor/communication/communicator.hpp]:
    construction of the connection table (bucketed by source domain, then
    sorted), [min_delay], [exchange], [make_event_queues], [num_spikes] and
    [reset], together with the properties the specification states about
    them.

    Vectors are lists, vector indices and sizes are [nat], cell identifiers
    are [N].  The headers that declare the integer widths of
    [cell_gid_type], [cell_size_type] and friends are not part of the
    sources at hand, so sizes and indices are unbounded here; the spike
    counter is declared [std::uint64_t] in the class itself and wraps.

    Two smaller parts follow the communicator: the ion dependencies and
    identifiers of [modcc/blocks.hpp], and of [miniapp/miniapp.cpp] the
    loop that injects artificial spikes and the naming of trace files. *)

From stdpp Require Import base numbers list sorting strings pretty.
From Stdlib Require Import Ascii Floats.

(** ** Scalars

    [time_type] (simulation time) and the type of weights are declared in
    [arbor/common_types.hpp] and [connection.hpp], which are not among the
    sources; the code only compares times with [<], adds them, and asks for
    [std::numeric_limits<time_type>::max()].  They are taken as a parameter. *)

Class Scalars := {
  time_type : Type;
  (** [operator<] on times *)
  time_lt : time_type → time_type → bool;
  (** [operator+] on times *)
  time_add : time_type → time_type → time_type;
  (** [std::numeric_limits<time_type>::max()] *)
  time_max : time_type;
  (** the value of a value-initialised time *)
  time_zero : time_type;
  weight_type : Type;
  (** the value of a value-initialised weight *)
  weight_zero : weight_type;
}.

(** What the order on times has to satisfy for "minimum" to make sense: a
    strict weak order on the times that are [ordered], which for IEEE
    numbers are all but NaN. *)
Class TimeOrder (Sc : Scalars) (ordered : time_type → Prop) : Prop := {
  time_max_ordered : ordered time_max;
  time_lt_irrefl : ∀ a : time_type, time_lt a a = false;
  time_lt_trans : ∀ a b c : time_type,
    ordered a → ordered b → ordered c →
    time_lt a b = true → time_lt b c = true → time_lt a c = true;
  time_lt_negtrans : ∀ a b c : time_type,
    ordered a → ordered b → ordered c →
    time_lt a c = true → time_lt a b = true ∨ time_lt b c = true;
}.

(** IEEE binary64 through the kernel's floats. *)
Module Binary64.
Definition max_value : float := 0x1.fffffffffffffp+1023%float.

Definition scalars : Scalars := {|
  time_type := float;
  time_lt := PrimFloat.ltb;
  time_add := PrimFloat.add;
  time_max := max_value;
  time_zero := 0%float;
  weight_type := float;
  weight_zero := 0%float;
|}.

Definition not_nan (x : float) : Prop := PrimFloat.is_nan x = false.

(** The place of a number other than NaN in the order: a triple compared
    lexicographically. *)
Definition sf_key (f : spec_float) : Z * Z * Z :=
  match f with
  | S754_infinity true => (0, 0, 0)
  | S754_finite true m e => (1, - e, - Z.pos m)
  | S754_zero _ => (2, 0, 0)
  | S754_nan => (2, 0, 0)
  | S754_finite false m e => (3, e, Z.pos m)
  | S754_infinity false => (4, 0, 0)
  end%Z.

Definition key_lt (a b : Z * Z * Z) : Prop :=
  (a.1.1 < b.1.1
   ∨ (a.1.1 = b.1.1 ∧ (a.1.2 < b.1.2 ∨ (a.1.2 = b.1.2 ∧ a.2 < b.2))))%Z.
End Binary64.

(** ** Results of code that can fail

    [arb_assert] that does not hold, and an index outside its vector. *)

Inductive outcome (A : Type) : Type :=
  | Done (a : A)
  | AssertionFailure
  | OutOfRange.
Arguments Done {A} a.
Arguments AssertionFailure {A}.
Arguments OutOfRange {A}.

Definition outcome_bind {A B} (f : A → outcome B) (m : outcome A) : outcome B :=
  match m with
  | Done a => f a
  | AssertionFailure => AssertionFailure
  | OutOfRange => OutOfRange
  end.

#[global] Instance outcome_mbind : MBind outcome := @outcome_bind.
#[global] Instance outcome_mret : MRet outcome := @Done.

(** [foldM]: a loop whose body can fail. *)
Fixpoint for_each {A St} (body : St → A → outcome St) (l : list A) (st : St)
  : outcome St :=
  match l with
  | [] => Done st
  | x :: l' => st' ← body st x; for_each body l' st'
  end.

(** ** Identifiers *)

(** Modelled from the spec: [cell_member_type] of [arbor/common_types.hpp],
    a pair [(gid, lid)] ordered lexicographically. *)
Record cell_member_type := mk_member { gid : N; index : N }.

#[global] Instance cell_member_eq_dec : EqDecision cell_member_type.
Proof. solve_decision. Defined.

Definition member_lt (a b : cell_member_type) : bool :=
  (gid a <? gid b)%N || ((gid a =? gid b)%N && (index a <? index b)%N).

Definition member_le (a b : cell_member_type) : Prop := member_lt b a = false.

#[global] Instance member_le_dec a b : Decision (member_le a b).
Proof. unfold member_le. apply _. Defined.

(** ** Data of the communicator *)

Section Data.
Context `{Sc : Scalars}.

(** Modelled from the spec: [spike] of [arbor/spike.hpp]. *)
Record spike := mk_spike { sp_source : cell_member_type; sp_time : time_type }.

(** Modelled from the spec: the delivered event
    [(target_local_index, weight, time)]. *)
Record spike_event := mk_event {
  ev_target : N;
  ev_weight : weight_type;
  ev_time : time_type;
}.

(** Modelled from the spec: what [recipe::connections_on] yields. *)
Record cell_connection := mk_cell_connection {
  cc_source : cell_member_type;
  cc_dest : cell_member_type;
  cc_weight : weight_type;
  cc_delay : time_type;
}.

(** Modelled from the spec: [connection] of [connection.hpp]; the five
    fields the constructor of the communicator fills in. *)
Record connection := mk_connection {
  source : cell_member_type;
  destination : cell_member_type;
  weight : weight_type;
  delay : time_type;
  index_on_domain : nat;
}.

(** Modelled from the spec: [connection::make_event].  The event carries
    the cell-local index of the destination, the weight, and the time
    [spike.time + connection.delay]. *)
Definition make_event (c : connection) (s : spike) : spike_event :=
  {| ev_target := index (destination c);
     ev_weight := weight c;
     ev_time := time_add (sp_time s) (delay c) |}.

(** Value-initialised connection, as [connections_.resize(n_cons)] makes. *)
Definition connection_init : connection :=
  {| source := mk_member 0 0; destination := mk_member 0 0;
     weight := weight_zero; delay := time_zero; index_on_domain := 0 |}.

(** Modelled from the spec: [gathered_vector<spike>], the flat values
    with their per-domain partition. *)
Record gathered_vector := mk_gathered {
  values : list spike;
  partition : list nat;
}.

(** The data members of the class, under their names. *)
Record communicator := mk_communicator {
  num_local_cells_ : nat;
  num_local_groups_ : nat;
  num_domains_ : nat;
  connections_ : list connection;
  connection_part_ : list nat;
  (** [index_part_] is a view of the neighbouring pairs of these *)
  index_divisions_ : list nat;
  (** [std::uint64_t num_spikes_] *)
  num_spikes_ : Z;
}.

(** ** [min_delay] *)

(** [std::min(a, b)]: [b] when [b < a], else [a]. *)
Definition std_min (a b : time_type) : time_type :=
  if time_lt b a then b else a.

(** The loop of [min_delay] over the local connections. *)
Definition local_min_delay (cons : list connection) : time_type :=
  foldl (λ local_min con, std_min local_min (delay con)) time_max cons.

(** Modelled from the spec: [distributed_context::min], the all-reduce
    minimum of the caller's value and the values the other domains
    contribute. *)
Definition distributed_min (mine : time_type) (others : list time_type)
  : time_type :=
  foldl std_min mine others.

(** [min_delay] on one domain; [peers] are the communicators of the other
    domains, which enter the collective with their own local minimum. *)
Definition min_delay (c : communicator) (peers : list communicator)
  : time_type :=
  let local_min := local_min_delay (connections_ c) in
  distributed_min local_min (local_min_delay ∘ connections_ <$> peers).

(** The union of every domain's connection table. *)
Definition global_connections (c : communicator) (peers : list communicator)
  : list connection :=
  connections_ c ++ mjoin (connections_ <$> peers).

(** The minimum of [time_max] and all the delays of a table. *)
Definition min_over (cons : list connection) : time_type :=
  foldl std_min time_max (delay <$> cons).
End Data.

(** [pse_vector], a vector of events. *)
Abbreviation pse_vector := (list spike_event).

(** ** Vectors

    A store outside the vector is [OutOfRange].  Reads of the partition
    arrays use the total lookup [!!!], which gives [0] outside the vector;
    the constructor builds them with [num_domains + 1] entries. *)

Definition vec_store {A} (v : list A) (i : nat) (x : A) : outcome (list A) :=
  if decide (i < length v) then Done (<[i:=x]> v) else OutOfRange.

(** [util::subrange_view(v, lo, hi)]: the elements at [lo, hi). *)
Definition subrange {A} (v : list A) (lo hi : nat) : list A :=
  take (hi - lo) (drop lo v).

(** The running sums of [sizes], from [acc]. *)
Fixpoint partial_sums (acc : nat) (sizes : list nat) : list nat :=
  match sizes with
  | [] => []
  | n :: sizes' => (acc + n) :: partial_sums (acc + n) sizes'
  end.

(** Modelled from the spec: [algorithms::make_index] of [algorithms.hpp],
    the prefix sums of the sizes, starting at [0]. *)
Definition make_index (sizes : list nat) : list nat := 0 :: partial_sums 0 sizes.

(** ** Binary search

    [std::lower_bound] and [std::upper_bound] are the same halving loop
    with a different test for "continue to the right of the probe";
    [std::equal_range] is the pair of the two. *)

Section Search.
Context {A : Type}.

(** The loop [while (count > 0)] on the range [first, first + count) of
    [v]; [count] at least halves in every turn, so [fuel = count] is
    enough turns.  The probe is inside [v] whenever the range is. *)
Fixpoint search_loop (go_right : A → bool) (v : list A) (fuel first count : nat)
  : nat :=
  match fuel with
  | 0 => first
  | S fuel' =>
    if decide (count = 0) then first else
    let step := count / 2 in
    match v !! (first + step) with
    | Some x =>
      if go_right x
      then search_loop go_right v fuel' (first + step + 1) (count - (step + 1))
      else search_loop go_right v fuel' first step
    | None => first
    end
  end.

Definition lower_bound {V} (lt_elem : A → V → bool) (v : list A) (value : V) : nat :=
  search_loop (λ x, lt_elem x value) v (length v) 0 (length v).

Definition upper_bound {V} (lt_value : V → A → bool) (v : list A) (value : V) : nat :=
  search_loop (λ x, negb (lt_value value x)) v (length v) 0 (length v).

Definition equal_range {V} (lt_elem : A → V → bool) (lt_value : V → A → bool)
    (v : list A) (value : V) : nat * nat :=
  (lower_bound lt_elem v value, upper_bound lt_value v value).
End Search.

(** ** Sorting

    [util::sort] and [util::sort_by] (of [util/rangeutil.hpp]) and
    [operator<] on connections (of [connection.hpp]) are not among the
    sources.  They are parameters; [SortsSpec] is the contract of
    [std::sort], whose result is a permutation without inversions, with
    ties in any order. *)

Class Sorts (Sc : Scalars) := {
  (** [operator<] on connections *)
  connection_lt : connection → connection → bool;
  (** [util::sort] on a range of connections *)
  sort : list connection → list connection;
  (** [util::sort_by(spikes, [](spike s){return s.source;})] *)
  sort_by_source : list spike → list spike;
}.

Class SortsSpec `{Sc : Scalars} (So : Sorts Sc) : Prop := {
  (** the order on connections has the source as its first key *)
  connection_lt_source : ∀ a b : connection,
    member_lt (source a) (source b) = true → connection_lt a b = true;
  sort_perm : ∀ l, sort l ≡ₚ l;
  sort_sorted : ∀ l,
    StronglySorted (λ a b, connection_lt b a = false) (sort l);
  sort_by_source_perm : ∀ l, sort_by_source l ≡ₚ l;
  sort_by_source_sorted : ∀ l,
    StronglySorted (λ a b, member_le (sp_source a) (sp_source b))
      (sort_by_source l);
}.

(** ** Event routing *)

Section Routing.
Context `{Sc : Scalars}.

(** [queues[i].push_back(ev)] *)
Definition push_back (queues : list pse_vector) (i : nat) (ev : spike_event)
  : outcome (list pse_vector) :=
  match queues !! i with
  | Some q => Done (<[i := q ++ [ev]]> queues)
  | None => OutOfRange
  end.

(** The two overloads of [spike_pred]. *)
Definition spike_lt_member (spk : spike) (src : cell_member_type) : bool :=
  member_lt (sp_source spk) src.
Definition member_lt_spike (src : cell_member_type) (spk : spike) : bool :=
  member_lt src (sp_source spk).

(** Modelled from the spec: the mixed [operator<] between a connection and
    a [cell_member_type], which compare the connection's source. *)
Definition connection_lt_member (c : connection) (src : cell_member_type) : bool :=
  member_lt (source c) src.
Definition member_lt_connection (src : cell_member_type) (c : connection) : bool :=
  member_lt src (source c).

(** The branch [cons.size() < spks.size()]: connections outer.  The list
    arguments are the ranges [cn, cons.end()) and [sp, spks.end()). *)
Fixpoint walk_connections (cons : list connection) (spks : list spike)
    (queues : list pse_vector) : outcome (list pse_vector) :=
  match cons, spks with
  | cn :: cons', _ :: _ =>
    let sources := equal_range spike_lt_member member_lt_spike spks (source cn) in
    queues' ← for_each
      (λ queues s, push_back queues (index_on_domain cn) (make_event cn s))
      (subrange spks sources.1 sources.2) queues;
    walk_connections cons' (drop sources.1 spks) queues'
  | _, _ => Done queues
  end.

(** The other branch: spikes outer. *)
Fixpoint walk_spikes (spks : list spike) (cons : list connection)
    (queues : list pse_vector) : outcome (list pse_vector) :=
  match spks, cons with
  | sp :: spks', _ :: _ =>
    let targets :=
      equal_range connection_lt_member member_lt_connection cons (sp_source sp) in
    queues' ← for_each
      (λ queues c, push_back queues (index_on_domain c) (make_event c sp))
      (subrange cons targets.1 targets.2) queues;
    walk_spikes spks' (drop targets.1 cons) queues'
  | _, _ => Done queues
  end.

(** The slices of domain [dom]. *)
Definition domain_connections (c : communicator) (dom : nat) : list connection :=
  subrange (connections_ c) (connection_part_ c !!! dom)
    (connection_part_ c !!! (dom + 1)).

Definition domain_spikes (global_spikes : gathered_vector) (dom : nat) : list spike :=
  subrange (values global_spikes) (partition global_spikes !!! dom)
    (partition global_spikes !!! (dom + 1)).

(** [make_event_queues]; the [arb_assert] on the number of queues is
    checked. *)
Definition make_event_queues (c : communicator) (global_spikes : gathered_vector)
    (queues : list pse_vector) : outcome (list pse_vector) :=
  if decide (length queues = num_local_cells_ c) then
    for_each
      (λ queues dom,
        let cons := domain_connections c dom in
        let spks := domain_spikes global_spikes dom in
        if decide (length cons < length spks)
        then walk_connections cons spks queues
        else walk_spikes spks cons queues)
      (seq 0 (num_domains_ c)) queues
  else AssertionFailure.

(** [make_event_queues] with the branch taken on each domain fixed by the
    caller instead of by the sizes ([true]: connections outer). *)
Definition make_event_queues_with (connections_outer : nat → bool)
    (c : communicator) (global_spikes : gathered_vector)
    (queues : list pse_vector) : outcome (list pse_vector) :=
  if decide (length queues = num_local_cells_ c) then
    for_each
      (λ queues dom,
        let cons := domain_connections c dom in
        let spks := domain_spikes global_spikes dom in
        if connections_outer dom
        then walk_connections cons spks queues
        else walk_spikes spks cons queues)
      (seq 0 (num_domains_ c)) queues
  else AssertionFailure.

(** ** Counters and accessors *)

(** Arithmetic of [std::uint64_t]. *)
Definition uint64_wrap (z : Z) : Z := z `mod` 2 ^ 64.

(** The accessors [num_spikes()], [num_local_cells()], [connections()]. *)
Definition num_spikes (c : communicator) : Z := num_spikes_ c.
Definition num_local_cells (c : communicator) : nat := num_local_cells_ c.
Definition connections (c : communicator) : list connection := connections_ c.

(** [c] with [num_spikes_] set to [n]. *)
Definition with_num_spikes (c : communicator) (n : Z) : communicator :=
  {| num_local_cells_ := num_local_cells_ c;
     num_local_groups_ := num_local_groups_ c;
     num_domains_ := num_domains_ c;
     connections_ := connections_ c;
     connection_part_ := connection_part_ c;
     index_divisions_ := index_divisions_ c;
     num_spikes_ := n |}.

Definition reset (c : communicator) : communicator := with_num_spikes c 0.

(** [group_queue_range(i)]: [index_part_[i]], the pair of neighbouring
    divisions. *)
Definition group_queue_range (c : communicator) (i : nat) : outcome (nat * nat) :=
  if decide (i < num_local_groups_ c)
  then Done (index_divisions_ c !!! i, index_divisions_ c !!! (i + 1))
  else AssertionFailure.
End Routing.

(** ** Spike exchange *)

Section Exchange.
Context `{Sc : Scalars} {So : Sorts Sc}.

(** Modelled from the spec: [distributed_context::gather_spikes].  Entry
    [d] of [contributions] is what domain [d] passes to the collective;
    every domain receives the concatenation and its partition. *)
Definition gather_spikes (contributions : list (list spike)) : gathered_vector :=
  {| values := mjoin contributions;
     partition := make_index (length <$> contributions) |}.

(** [exchange] as the collective it is: entry [d] of [local_spikes] is the
    argument of the call on domain [d], each call sorts its own argument,
    and [c] is the communicator of the domain whose call is observed.  The
    counter is a [std::uint64_t], so [+=] wraps. *)
Definition exchange (c : communicator) (local_spikes : list (list spike))
  : gathered_vector * communicator :=
  let sorted := sort_by_source <$> local_spikes in
  let global_spikes := gather_spikes sorted in
  let n := uint64_wrap (num_spikes_ c + Z.of_nat (length (values global_spikes))) in
  (global_spikes, with_num_spikes c n).

(** A run of [exchange] calls: the arrays they returned and the
    communicator after the last. *)
Fixpoint exchanges (c : communicator) (calls : list (list (list spike)))
  : list gathered_vector * communicator :=
  match calls with
  | [] => ([], c)
  | call :: calls' =>
    let '(g, c') := exchange c call in
    let '(gs, c'') := exchanges c' calls' in
    (g :: gs, c'')
  end.
End Exchange.

(** ** Construction *)

(** Modelled from the spec: the part of [recipe] the constructor reads. *)
Record recipe `{Sc : Scalars} := mk_recipe {
  connections_on : N → list cell_connection;
}.

(** Modelled from the spec: [group_description], of which the constructor
    reads the gids. *)
Record group_description := mk_group { gids : list N }.

(** Modelled from the spec: the parts of [domain_decomposition] the
    constructor reads. *)
Record domain_decomposition := mk_domain_decomposition {
  gid_domain : N → nat;
  dd_num_local_cells : nat;
  groups : list group_description;
}.

Section Construction.
Context `{Sc : Scalars} {So : Sorts Sc}.

(** The local struct [gid_info]. *)
Record gid_info := mk_gid_info {
  gi_gid : N;
  gi_index_on_domain : nat;
  gi_conns : list cell_connection;
}.

(** Value-initialised [gid_info], as [gid_infos.resize(num_local_cells_)]
    makes. *)
Definition gid_info_init : gid_info :=
  {| gi_gid := 0; gi_index_on_domain := 0; gi_conns := [] |}.

(** The flat vector of gids, group by group. *)
Definition flat_gids (dom_dec : domain_decomposition) : list N :=
  mjoin (gids <$> groups dom_dec).

(** The parallel loop that fills [gid_infos]; its iterations write
    distinct entries, so they are run in index order. *)
Definition build_gid_infos (rec : recipe) (num_local_cells : nat) (gids : list N)
  : outcome (list gid_info) :=
  for_each
    (λ gid_infos i,
      let gid := gids !!! i in
      vec_store gid_infos i (mk_gid_info gid i (connections_on rec gid)))
    (seq 0 (length gids)) (replicate num_local_cells gid_info_init).

(** The sweep that records the source domain of every connection and
    counts them per domain. *)
Definition count_sources (dom_dec : domain_decomposition) (num_domains : nat)
    (gid_infos : list gid_info) : outcome (list nat * list nat) :=
  for_each
    (λ st g,
      for_each
        (λ '(src_domains, src_counts) con,
          let src := gid_domain dom_dec (gid (cc_source con)) in
          src_counts' ← vec_store src_counts src (S (src_counts !!! src));
          Done (src_domains ++ [src], src_counts'))
        (gi_conns g) st)
    gid_infos ([], replicate num_domains 0).

(** The loop that places every connection in the next free slot of the
    bucket of its source domain. *)
Definition place_connections (src_domains : list nat) (connection_part : list nat)
    (n_cons : nat) (gid_infos : list gid_info)
  : outcome (list connection * list nat * nat) :=
  for_each
    (λ st cell,
      for_each
        (λ '(conns, offsets, pos) c,
          let d := src_domains !!! pos in
          let i := offsets !!! d in
          offsets' ← vec_store offsets d (S i);
          conns' ← vec_store conns i
            (mk_connection (cc_source c) (cc_dest c) (cc_weight c) (cc_delay c)
               (gi_index_on_domain cell));
          Done (conns', offsets', S pos))
        (gi_conns cell) st)
    gid_infos (replicate n_cons connection_init, connection_part, 0).

(** [util::sort(util::subrange_view(v, lo, hi))], in place. *)
Definition sort_subrange (v : list connection) (lo hi : nat) : list connection :=
  let sorted := sort (subrange v lo hi) in
  take lo v ++ sorted ++ drop (lo + length sorted) v.

(** The parallel loop of independent sorts, one per domain, run in index
    order. *)
Definition sort_domains (cp : list nat) (num_domains : nat) (v : list connection)
  : list connection :=
  foldl (λ v i, sort_subrange v (cp !!! i) (cp !!! (i + 1))) v (seq 0 num_domains).

(** The constructor; [distributed_size] is [ctx.distributed->size()]. *)
Definition construct (rec : recipe) (dom_dec : domain_decomposition)
    (distributed_size : nat) : outcome communicator :=
  let num_domains := distributed_size in
  let num_local_groups := length (groups dom_dec) in
  let num_local_cells := dd_num_local_cells dom_dec in
  gid_infos ← build_gid_infos rec num_local_cells (flat_gids dom_dec);
  let n_cons := sum_list (length ∘ gi_conns <$> gid_infos) in
  '(src_domains, src_counts) ← count_sources dom_dec num_domains gid_infos;
  let connection_part := make_index src_counts in
  '(conns, _, _) ← place_connections src_domains connection_part n_cons gid_infos;
  let index_divisions := make_index (length ∘ gids <$> groups dom_dec) in
  Done {| num_local_cells_ := num_local_cells;
          num_local_groups_ := num_local_groups;
          num_domains_ := num_domains;
          connections_ := sort_domains connection_part num_domains conns;
          connection_part_ := connection_part;
          index_divisions_ := index_divisions;
          num_spikes_ := 0 |}.
End Construction.

(** * Vocabulary of the properties

    What the statements below are written in: sortedness by source, the
    pairs the routing loops visit, the local table of a recipe and its
    buckets, and the communicator they make. *)

(** A list sorted by a key of type [cell_member_type]. *)
Definition sorted_by {A} (key : A → cell_member_type) (l : list A) : Prop :=
  StronglySorted (λ a b, member_le (key a) (key b)) l.

(** The delays of a table lie in the part of the times that is ordered. *)
Definition delays_ordered `{Sc : Scalars} (ordered : time_type → Prop)
    (cons : list connection) : Prop :=
  Forall (λ k, ordered (delay k)) cons.

Section RoutingVocabulary.
Context `{Sc : Scalars}.
Implicit Types (cons : list connection) (spks : list spike).
Implicit Types (queues : list pse_vector) (pairs : list (connection * spike)).

(** Pushing the events of a list of (connection, spike) pairs, in order. *)
Definition deliver queues pairs : outcome (list pse_vector) :=
  for_each (λ queues p, push_back queues (index_on_domain p.1) (make_event p.1 p.2))
    pairs queues.

(** The events of the pairs whose connection has local index [i]. *)
Definition appended (i : nat) pairs : list spike_event :=
  (λ p, make_event p.1 p.2) <$> filter (λ p, index_on_domain p.1 = i) pairs.

Definition extend queues pairs : list pse_vector :=
  imap (λ i q, q ++ appended i pairs) queues.

(** The pairs the branch "connections outer" visits, in order: the same
    walk as [walk_connections], without the queues. *)
Fixpoint found_connections_outer cons spks : list (connection * spike) :=
  match cons, spks with
  | cn :: cons', _ :: _ =>
    let sources := equal_range spike_lt_member member_lt_spike spks (source cn) in
    ((cn,.) <$> subrange spks sources.1 sources.2)
    ++ found_connections_outer cons' (drop sources.1 spks)
  | _, _ => []
  end.

Fixpoint found_spikes_outer spks cons : list (connection * spike) :=
  match spks, cons with
  | sp :: spks', _ :: _ =>
    let targets :=
      equal_range connection_lt_member member_lt_connection cons (sp_source sp) in
    ((., sp) <$> subrange cons targets.1 targets.2)
    ++ found_spikes_outer spks' (drop targets.1 cons)
  | _, _ => []
  end.

(** The pairs [make_event_queues] visits on domain [dom], and on all
    domains. *)
Definition found_on_domain (c : communicator) (global_spikes : gathered_vector)
    (dom : nat) : list (connection * spike) :=
  let cons := domain_connections c dom in
  let spks := domain_spikes global_spikes dom in
  if decide (length cons < length spks)
  then found_connections_outer cons spks
  else found_spikes_outer spks cons.

Definition found_pairs (c : communicator) (global_spikes : gathered_vector)
  : list (connection * spike) :=
  seq 0 (num_domains_ c) ≫= found_on_domain c global_spikes.

Definition found_pairs_with (connections_outer : nat → bool) (c : communicator)
    (global_spikes : gathered_vector) : list (connection * spike) :=
  dom ← seq 0 (num_domains_ c);
  if connections_outer dom
  then found_connections_outer (domain_connections c dom)
         (domain_spikes global_spikes dom)
  else found_spikes_outer (domain_spikes global_spikes dom)
         (domain_connections c dom).

(** All the pairs of a connection and a spike with the same source. *)
Definition equal_source_pairs cons spks : list (connection * spike) :=
  filter (λ p, source p.1 = sp_source p.2) (cprod cons spks).

(** The same pairs, in the two orders in which the branches meet them. *)
Definition join_connections_outer cons spks : list (connection * spike) :=
  cn ← cons; (cn,.) <$> filter (λ s, sp_source s = source cn) spks.

Definition join_spikes_outer spks cons : list (connection * spike) :=
  sp ← spks; (., sp) <$> filter (λ c, source c = sp_source sp) cons.

(** Slices sorted by source, on every domain. *)
Definition connections_sorted (c : communicator) : Prop :=
  ∀ dom, dom < num_domains_ c → sorted_by source (domain_connections c dom).

Definition spikes_sorted (num_domains : nat) (global_spikes : gathered_vector)
  : Prop :=
  ∀ dom, dom < num_domains → sorted_by sp_source (domain_spikes global_spikes dom).

(** The total size of the arrays a run of calls returned. *)
Definition total_size (returned : list gathered_vector) : Z :=
  foldr (λ g n, Z.of_nat (length (values g)) + n)%Z 0%Z returned.
End RoutingVocabulary.

Section ConstructionVocabulary.
Context `{Sc : Scalars} {So : Sorts Sc}.
Implicit Types (rec : recipe) (dom_dec : domain_decomposition).
Implicit Types (gid_infos : list gid_info) (table : list connection).

(** What the constructor asks of its arguments: [num_local_cells] covers
    the cells of the groups, and [gid_domain] sends the source of every
    local connection to one of the domains. *)
Definition well_formed rec dom_dec (num_domains : nat) : Prop :=
  length (flat_gids dom_dec) ≤ dd_num_local_cells dom_dec ∧
  ∀ g con, g ∈ flat_gids dom_dec → con ∈ connections_on rec g →
    gid_domain dom_dec (gid (cc_source con)) < num_domains.

(** The connection the constructor makes of a connection of the recipe. *)
Definition local_connection (index : nat) (c : cell_connection) : connection :=
  mk_connection (cc_source c) (cc_dest c) (cc_weight c) (cc_delay c) index.

(** The local connections in the order in which the loops over
    [gid_infos] meet them. *)
Definition local_connections gid_infos : list connection :=
  cell ← gid_infos; local_connection (gi_index_on_domain cell) <$> gi_conns cell.

Definition expected_gid_infos rec (num_local_cells : nat) (gids : list N)
  : list gid_info :=
  imap (λ i gid, mk_gid_info gid i (connections_on rec gid)) gids
  ++ replicate (num_local_cells - length gids) gid_info_init.

Definition source_domain dom_dec (k : connection) : nat :=
  gid_domain dom_dec (gid (source k)).

(** The connections whose source lives on domain [d], in table order, and
    these buckets for all domains. *)
Definition bucket dom_dec (d : nat) table : list connection :=
  filter (λ k, source_domain dom_dec k = d) table.

Definition buckets dom_dec (num_domains : nat) table : list (list connection) :=
  (λ d, bucket dom_dec d table) <$> seq 0 num_domains.

(** One step of the loops of [count_sources] and [place_connections]. *)
Definition count_step dom_dec (st : list nat * list nat) (k : connection)
  : outcome (list nat * list nat) :=
  let '(src_domains, src_counts) := st in
  let src := source_domain dom_dec k in
  src_counts' ← vec_store src_counts src (S (src_counts !!! src));
  Done (src_domains ++ [src], src_counts').

Definition place_step (src_domains : list nat)
    (st : list connection * list nat * nat) (k : connection)
  : outcome (list connection * list nat * nat) :=
  let '(conns, offsets, pos) := st in
  let d := src_domains !!! pos in
  let i := offsets !!! d in
  offsets' ← vec_store offsets d (S i);
  conns' ← vec_store conns i k;
  Done (conns', offsets', S pos).

(** The state of the placing loop once the connections [done] are placed;
    [cp] is [connection_part]. *)
Definition placed (dom_dec : domain_decomposition) (num_domains : nat)
    (cp : list nat) (done : list connection)
    (st : list connection * list nat * nat) : Prop :=
  let '(conns, offsets, pos) := st in
  pos = length done
  ∧ length conns = cp !!! num_domains
  ∧ length offsets = S num_domains
  ∧ (∀ d, d < num_domains →
       offsets !!! d = cp !!! d + length (bucket dom_dec d done))
  ∧ (∀ d j, d < num_domains → j < length (bucket dom_dec d done) →
       conns !! (cp !!! d + j) = bucket dom_dec d done !! j).

(** The communicator the constructor builds of a table of local
    connections. *)
Definition built (dom_dec : domain_decomposition) (num_domains : nat)
    (table : list connection) : communicator :=
  {| num_local_cells_ := dd_num_local_cells dom_dec;
     num_local_groups_ := length (groups dom_dec);
     num_domains_ := num_domains;
     connections_ := mjoin (sort <$> buckets dom_dec num_domains table);
     connection_part_ :=
       make_index (length <$> buckets dom_dec num_domains table);
     index_divisions_ := make_index (length ∘ gids <$> groups dom_dec);
     num_spikes_ := 0 |}.

(** The table of the local connections of a recipe. *)
Definition local_table (rec : recipe) (dom_dec : domain_decomposition)
  : list connection :=
  local_connections
    (expected_gid_infos rec (dd_num_local_cells dom_dec) (flat_gids dom_dec)).
End ConstructionVocabulary.

(** ** A sorting instance

    The order that compares connections by their source, and merge sorts
    for it: one implementation of [Sorts], for any scalars. *)

Module SourceOrder.
Section Instance.
Context (Sc : Scalars).

Definition connection_le (a b : connection) : Prop :=
  member_le (source a) (source b).
Definition spike_le (a b : spike) : Prop :=
  member_le (sp_source a) (sp_source b).

#[export] Instance connection_le_dec a b : Decision (connection_le a b).
Proof. unfold connection_le. apply _. Defined.
#[export] Instance spike_le_dec a b : Decision (spike_le a b).
Proof. unfold spike_le. apply _. Defined.

Definition sorts : Sorts Sc := {|
  connection_lt a b := member_lt (source a) (source b);
  sort := merge_sort connection_le;
  sort_by_source := merge_sort spike_le;
|}.
End Instance.
End SourceOrder.

(** * Concrete networks

    IEEE binary64 times and weights, connections ordered by source. *)

Module Example.
#[local] Instance scalars : Scalars := Binary64.scalars.
#[local] Instance sorts : Sorts scalars := SourceOrder.sorts scalars.

(** One domain, one cell, one self-connection of weight 1 and delay 2. *)
Definition recipe_a : recipe :=
  mk_recipe _ (λ g,
    if (g =? 0)%N
    then [mk_cell_connection (mk_member 0 0) (mk_member 0 0) 1%float 2%float]
    else []).

Definition decomposition_a : domain_decomposition :=
  mk_domain_decomposition (λ _, 0) 1 [mk_group [0%N]].

Definition connection_a : connection :=
  mk_connection (mk_member 0 0) (mk_member 0 0) 1%float 2%float 0.

Definition communicator_a : communicator :=
  {| num_local_cells_ := 1; num_local_groups_ := 1; num_domains_ := 1;
     connections_ := [connection_a]; connection_part_ := [0; 1];
     index_divisions_ := [0; 1]; num_spikes_ := 0 |}.

Definition spike_a : spike := mk_spike (mk_member 0 0) 5%float.

Definition spikes_a : gathered_vector := mk_gathered [spike_a] [0; 1].

(** The event of [spike_a] through [connection_a], and some other event. *)
Definition event_a : spike_event := mk_event 0 1%float 7%float.
Definition event_old : spike_event := mk_event 3 1%float 1%float.

Definition no_spikes : gathered_vector := mk_gathered [] [0; 0].

(** One domain, one cell, no connection. *)
Definition recipe_none : recipe := mk_recipe _ (λ _, []).

Definition communicator_none : communicator :=
  {| num_local_cells_ := 1; num_local_groups_ := 1; num_domains_ := 1;
     connections_ := []; connection_part_ := [0; 0];
     index_divisions_ := [0; 1]; num_spikes_ := 0 |}.

(** One domain, one cell with a connection from source [(1, 0)], and two
    spikes that arrive with the larger source first. *)
Definition recipe_b : recipe :=
  mk_recipe _ (λ g,
    if (g =? 0)%N
    then [mk_cell_connection (mk_member 1 0) (mk_member 0 0) 1%float 2%float]
    else []).

Definition connection_b : connection :=
  mk_connection (mk_member 1 0) (mk_member 0 0) 1%float 2%float 0.

Definition communicator_b : communicator :=
  {| num_local_cells_ := 1; num_local_groups_ := 1; num_domains_ := 1;
     connections_ := [connection_b]; connection_part_ := [0; 1];
     index_divisions_ := [0; 1]; num_spikes_ := 0 |}.

(** Spikes for [communicator_c], sorted by source in each slice. *)
Definition spikes_c : gathered_vector :=
  mk_gathered
    [mk_spike (mk_member 1 0) 1%float;
     mk_spike (mk_member 4 0) 1%float; mk_spike (mk_member 5 0) 2%float;
     mk_spike (mk_member 5 0) 2%float; mk_spike (mk_member 6 0) 3%float]
    [0; 1; 5].

(** What two domains pass to [exchange], in no particular order. *)
Definition local_spikes_c : list (list spike) :=
  [[mk_spike (mk_member 2 0) 1%float; mk_spike (mk_member 1 0) 1%float];
   [mk_spike (mk_member 6 0) 1%float; mk_spike (mk_member 4 0) 1%float]].

(** Two domains, the cell [0] on domain [0] and the cell [1] on domain
    [1], with one connection from [(0, 0)] to [(1, 0)] of weight 0.5 and
    delay 1; the decompositions of the two domains. *)
Definition recipe_two : recipe :=
  mk_recipe _ (λ g,
    if (g =? 1)%N
    then [mk_cell_connection (mk_member 0 0) (mk_member 1 0) 0.5%float 1%float]
    else []).

Definition decomposition_two (domain : N) : domain_decomposition :=
  mk_domain_decomposition (λ g, if (g =? 0)%N then 0 else 1) 1
    [mk_group [domain]].

Definition communicator_two_0 : communicator :=
  {| num_local_cells_ := 1; num_local_groups_ := 1; num_domains_ := 2;
     connections_ := []; connection_part_ := [0; 0; 0];
     index_divisions_ := [0; 1]; num_spikes_ := 0 |}.

Definition communicator_two_1 : communicator :=
  {| num_local_cells_ := 1; num_local_groups_ := 1; num_domains_ := 2;
     connections_ :=
       [mk_connection (mk_member 0 0) (mk_member 1 0) 0.5%float 1%float 0];
     connection_part_ := [0; 1; 1];
     index_divisions_ := [0; 1]; num_spikes_ := 0 |}.

Definition spike_two : spike := mk_spike (mk_member 0 0) 10%float.
Definition event_two : spike_event := mk_event 0 0.5%float 11%float.

(** A communicator with one connection of the given delay. *)
Definition communicator_delay (d : float) : communicator :=
  {| num_local_cells_ := 1; num_local_groups_ := 1; num_domains_ := 2;
     connections_ := [mk_connection (mk_member 0 0) (mk_member 0 0) 1%float d 0];
     connection_part_ := [0; 1; 1];
     index_divisions_ := [0; 1]; num_spikes_ := 0 |}.

(** [2^32] calls of [exchange] on one domain, each with [2^32] spikes. *)
Definition many_calls : list (list (list spike)) :=
  replicate (Z.to_nat (2 ^ 32)) [replicate (Z.to_nat (2 ^ 32)) spike_a].

Definition spikes_unsorted : gathered_vector :=
  mk_gathered
    [mk_spike (mk_member 2 0) 5%float; mk_spike (mk_member 1 0) 5%float]
    [0; 2].

(** Two domains; the cells [0] and [1] are local, the cells below [3]
    live on domain [0], the others on domain [1]. *)
Definition recipe_c : recipe :=
  mk_recipe _ (λ g,
    if (g =? 0)%N then
      [mk_cell_connection (mk_member 5 0) (mk_member 0 0) 1%float 2%float;
       mk_cell_connection (mk_member 1 0) (mk_member 0 1) 1%float 3%float]
    else if (g =? 1)%N then
      [mk_cell_connection (mk_member 4 0) (mk_member 1 0) 1%float 2%float;
       mk_cell_connection (mk_member 0 0) (mk_member 1 1) 1%float 3%float;
       mk_cell_connection (mk_member 5 0) (mk_member 1 1) 1%float 3%float]
    else []).

Definition decomposition_c : domain_decomposition :=
  mk_domain_decomposition (λ g, if (g <? 3)%N then 0 else 1) 2
    [mk_group [0%N]; mk_group [1%N]].

Definition communicator_c : communicator :=
  {| num_local_cells_ := 2; num_local_groups_ := 2; num_domains_ := 2;
     connections_ :=
       [mk_connection (mk_member 0 0) (mk_member 1 1) 1%float 3%float 1;
        mk_connection (mk_member 1 0) (mk_member 0 1) 1%float 3%float 0;
        mk_connection (mk_member 4 0) (mk_member 1 0) 1%float 2%float 1;
        mk_connection (mk_member 5 0) (mk_member 1 1) 1%float 3%float 1;
        mk_connection (mk_member 5 0) (mk_member 0 0) 1%float 2%float 0];
     connection_part_ := [0; 2; 5];
     index_divisions_ := [0; 1; 2]; num_spikes_ := 0 |}.
End Example.

(** Sortedness of a concrete list is decided by computation. *)
Ltac solve_sorted :=
  unfold sorted_by; apply (bool_decide_unpack _); vm_compute; exact I.

(** ** Vocabulary of the further properties *)

Section DeliveryVocabulary.
Context `{Sc : Scalars}.

(** The connections a recipe lists on the cells of the local groups, each
    with the position of its cell in the flat sequence of gids. *)
Definition recipe_connections (rec : recipe) (dom_dec : domain_decomposition)
  : list connection :=
  mjoin (imap (λ i g, local_connection i <$> connections_on rec g)
           (flat_gids dom_dec)).

(** The spike [s] is contributed by the domain that owns its source cell. *)
Definition at_home (dom_dec : domain_decomposition) (d : nat) (s : spike) : Prop :=
  gid_domain dom_dec (gid (sp_source s)) = d.

#[global] Instance at_home_dec dom_dec d s : Decision (at_home dom_dec d s).
Proof. unfold at_home. apply _. Defined.

(** Of the spikes the domains contribute, in domain order, those whose
    source cell the contributing domain owns. *)
Definition home_spikes (dom_dec : domain_decomposition)
    (local_spikes : list (list spike)) : list spike :=
  mjoin (imap (λ d, filter (at_home dom_dec d)) local_spikes).
End DeliveryVocabulary.

#[global] Instance not_nan_dec (x : float) : Decision (Binary64.not_nan x).
Proof. unfold Binary64.not_nan. apply _. Defined.


(** * The blocks of a mod file

    [modcc/blocks.hpp]: what a [NEURON] block says about an ion, and an
    identifier with its units.  [Token] is declared in [token.hpp], which
    is not among the sources; the blocks read only its [spelling], so it
    is a parameter together with that field. *)

Module Modcc.
Section Tokens.
Context {Token : Type} (spelling : Token → string).

(** [std::find_if(first, last, pred) - first]: the position of the first
    element that satisfies [pred], the length of the range if none does. *)
Fixpoint find_if {A} (pred : A → bool) (l : list A) : nat :=
  match l with
  | [] => 0
  | x :: l' => if pred x then 0 else S (find_if pred l')
  end.

Record IonDep := mk_IonDep {
  name : string;
  read : list Token;
  write : list Token;
  valence : string;
}.

Definition reads_variable (ion : IonDep) (name : string) : bool :=
  negb (find_if (λ t, String.eqb (spelling t) name) (read ion)
        =? length (read ion)).

Definition writes_variable (ion : IonDep) (name : string) : bool :=
  negb (find_if (λ t, String.eqb (spelling t) name) (write ion)
        =? length (write ion)).

Definition has_variable (ion : IonDep) (name : string) : bool :=
  writes_variable ion name || reads_variable ion name.

Definition uses_current (ion : IonDep) : bool :=
  has_variable ion ("i" +:+ name ion).
Definition uses_rev_potential (ion : IonDep) : bool :=
  has_variable ion ("e" +:+ name ion).
Definition uses_concentration_int (ion : IonDep) : bool :=
  has_variable ion (name ion +:+ "i").
Definition uses_concentration_ext (ion : IonDep) : bool :=
  has_variable ion (name ion +:+ "o").
Definition writes_concentration_int (ion : IonDep) : bool :=
  writes_variable ion (name ion +:+ "i").
Definition writes_concentration_ext (ion : IonDep) : bool :=
  writes_variable ion (name ion +:+ "o").
Definition writes_rev_potential (ion : IonDep) : bool :=
  writes_variable ion ("e" +:+ name ion).

(** [Id]; an empty [value] is no value, an empty first component of
    [range] is no range. *)
Record Id := mk_Id {
  token : Token;
  value : string;
  units : list Token;
  range : Token * Token;
}.

Definition has_value (id : Id) : bool := negb (String.eqb (value id) "").

Definition has_range (id : Id) : bool :=
  negb (String.eqb (spelling (range id).1) "").

(** The loop of [unit_string]: a space goes before the spelling of a
    token when the string built so far is not empty. *)
Definition unit_string (id : Id) : string :=
  foldl
    (λ u t, (if String.eqb u "" then u else u +:+ " ") +:+ spelling t)
    "" (units id).
End Tokens.

(** How often a character occurs in a string, and a string made of one
    character only. *)
Fixpoint count_char (c : Ascii.ascii) (s : string) : nat :=
  match s with
  | EmptyString => 0
  | String c' s' => (if Ascii.eqb c c' then 1 else 0) + count_char c s'
  end.

Fixpoint only_char (c : Ascii.ascii) (s : string) : Prop :=
  match s with
  | EmptyString => True
  | String c' s' => c' = c ∧ only_char c s'
  end.
End Modcc.

(** * The miniapp

    [miniapp/miniapp.cpp]: the cells that get an artificial spike, and the
    file a trace is written to. *)

Module Miniapp.
Section ArtificialSpikes.
(** [cell_gid_type] is an unsigned integer type, declared in
    [common_types.hpp], which is not among the sources: its arithmetic is
    taken modulo [modulus], the number of its values. *)
Context (modulus : N).

(** [20*((cell_range.first+19)/20)] *)
Definition first_spike_cell (cell_from : N) : N :=
  ((20 * (((cell_from + 19) `mod` modulus) `div` 20)) `mod` modulus)%N.

(** The loop [for (; spike_cell<cell_range.second; spike_cell+=20)]; the
    calls [m.add_artificial_spike({spike_cell,0u})] are collected in
    order. *)
Fixpoint spike_loop (fuel : nat) (spike_cell cell_to : N)
    (added : list cell_member_type) : option (list cell_member_type) :=
  match fuel with
  | 0 => None
  | S fuel' =>
    if (spike_cell <? cell_to)%N
    then spike_loop fuel' ((spike_cell + 20) `mod` modulus)%N cell_to
           (added ++ [mk_member spike_cell 0])
    else Some added
  end.

Definition add_artificial_spikes (fuel : nat) (cell_from cell_to : N)
  : option (list cell_member_type) :=
  spike_loop fuel (first_spike_cell cell_from) cell_to [].
End ArtificialSpikes.

(** The multiples of [20] from [cell_from] up to, not including,
    [cell_to], in ascending order. *)
Definition multiples_of_20 (cell_from cell_to : N) : list N :=
  (λ k, 20 * ((cell_from + 19) `div` 20 + N.of_nat k))%N
  <$> seq 0 (N.to_nat ((cell_to + 19) `div` 20 - (cell_from + 19) `div` 20)).

(** [std::to_string] of an unsigned integer: its decimal digits. *)
Definition to_string (n : N) : string := pretty n.

Section Traces.
(** [sample_trace] is declared in [trace_sampler.hpp], which is not among
    the sources; [write_trace_json] names the file after its [probe_id]
    and its [name], so it is a parameter together with these fields. *)
Context {sample_trace : Type}.
Context (probe_id : sample_trace → cell_member_type).
Context (name : sample_trace → string).

(** The path [write_trace_json] opens. *)
Definition trace_path (trace : sample_trace) (prefix : string) : string :=
  (((((prefix +:+ to_string (gid (probe_id trace))) +:+ ".")
      +:+ to_string (index (probe_id trace))) +:+ "_")
    +:+ name trace) +:+ ".json".
End Traces.

(** A decimal digit, and a string of digits. *)
Definition is_digit (c : Ascii.ascii) : bool :=
  bool_decide (48 ≤ Ascii.nat_of_ascii c ≤ 57).

Fixpoint all_digits (s : string) : Prop :=
  match s with
  | EmptyString => True
  | String c s' => is_digit c = true ∧ all_digits s'
  end.
End Miniapp.

(** * Properties *)

(** ** Binary64 numbers other than NaN are ordered *)

Lemma SFltb_key f1 f2 :
  f1 ≠ S754_nan → f2 ≠ S754_nan →
  SFltb f1 f2 = true ↔ Binary64.key_lt (Binary64.sf_key f1) (Binary64.sf_key f2).
Proof.
  intros H1 H2. unfold SFltb, SFcompare, Binary64.key_lt.
  destruct f1 as [s1|s1| |s1 m1 e1], f2 as [s2|s2| |s2 m2 e2]; try done;
    try destruct s1; try destruct s2; simpl; try (split; [done|lia]);
    try (split; [lia|done]); try (split; intros; [lia|done]).
  - rewrite Pos.compare_cont_spec. simpl.
    destruct (Z.compare_spec e1 e2); destruct (Pos.compare_spec m1 m2); simpl;
      split; intros; try done; try lia.
  - rewrite Pos.compare_cont_spec. simpl.
    destruct (Z.compare_spec e1 e2); destruct (Pos.compare_spec m1 m2); simpl;
      split; intros; try done; try lia.
Qed.

Lemma not_nan_Prim2SF x : Binary64.not_nan x → Prim2SF x ≠ S754_nan.
Proof.
  unfold Binary64.not_nan, PrimFloat.is_nan.
  rewrite negb_false_iff, eqb_spec. intros H Hn. by rewrite Hn in H.
Qed.

Lemma float_ltb_key x y :
  Binary64.not_nan x → Binary64.not_nan y →
  PrimFloat.ltb x y = true ↔
  Binary64.key_lt (Binary64.sf_key (Prim2SF x)) (Binary64.sf_key (Prim2SF y)).
Proof.
  intros Hx Hy. rewrite ltb_spec. by apply SFltb_key; apply not_nan_Prim2SF.
Qed.

Lemma float_ltb_irrefl x : PrimFloat.ltb x x = false.
Proof.
  rewrite ltb_spec. unfold SFltb, SFcompare.
  destruct (Prim2SF x) as [s|s| |s m e]; try destruct s; try done.
  - by rewrite Z.compare_refl, Pos.compare_cont_refl.
  - by rewrite Z.compare_refl, Pos.compare_cont_refl.
Qed.

Lemma binary64_order : TimeOrder Binary64.scalars Binary64.not_nan.
Proof.
  split; simpl.
  - reflexivity.
  - apply float_ltb_irrefl.
  - intros a b c Ha Hb Hc. rewrite !float_ltb_key by done.
    unfold Binary64.key_lt. lia.
  - intros a b c Ha Hb Hc. rewrite !float_ltb_key by done.
    unfold Binary64.key_lt. lia.
Qed.

(** ** The minimum of the delays *)

Section MinDelay.
Context `{Sc : Scalars} {ordered : time_type → Prop} {TO : TimeOrder Sc ordered}.
Implicit Types (a b c : time_type) (l : list time_type).
Implicit Types (cons : list connection).

Lemma std_min_ordered a b : ordered a → ordered b → ordered (std_min a b).
Proof. intros. unfold std_min. by destruct (time_lt b a). Qed.

Lemma std_min_assoc a b c :
  ordered a → ordered b → ordered c →
  std_min (std_min a b) c = std_min a (std_min b c).
Proof.
  intros Ha Hb Hc. unfold std_min.
  destruct (time_lt b a) eqn:Hba; destruct (time_lt c b) eqn:Hcb;
    rewrite ?Hba, ?Hcb; try done.
  - by rewrite (time_lt_trans c b a).
  - destruct (time_lt c a) eqn:Hca; [|done].
    destruct (time_lt_negtrans c b a); congruence.
Qed.

Lemma foldl_std_min_ordered a l :
  ordered a → Forall ordered l → ordered (foldl std_min a l).
Proof.
  intros Ha Hl. revert a Ha. induction Hl as [|x l Hx _ IH]; intros a Ha; [done|].
  simpl. by apply IH, std_min_ordered.
Qed.

Lemma foldl_std_min_assoc a b l :
  ordered a → ordered b → Forall ordered l →
  foldl std_min (std_min a b) l = std_min a (foldl std_min b l).
Proof.
  intros Ha Hb Hl. revert b Hb.
  induction Hl as [|x l Hx _ IH]; intros b Hb; simpl; [done|].
  rewrite std_min_assoc by done. by apply IH, std_min_ordered.
Qed.

Lemma local_min_delay_min_over cons : local_min_delay cons = min_over cons.
Proof.
  unfold local_min_delay, min_over. generalize (time_max : time_type).
  induction cons as [|k cons IH]; intros a; simpl; [done|]. apply IH.
Qed.

(** Nothing the fold returns exceeds its starting value or an element. *)
Lemma foldl_std_min_lower a l :
  ordered a → Forall ordered l →
  time_lt a (foldl std_min a l) = false ∧
  Forall (λ x, time_lt x (foldl std_min a l) = false) l.
Proof.
  intros Ha Hl. revert a Ha.
  induction Hl as [|x l Hx Hl IH]; intros a Ha; simpl.
  { split; [apply time_lt_irrefl|constructor]. }
  destruct (IH (std_min a x)) as [H1 H2]; [by apply std_min_ordered|].
  assert (ordered (foldl std_min (std_min a x) l)) as Hr
    by (apply foldl_std_min_ordered; [by apply std_min_ordered|done]).
  set (r := foldl std_min (std_min a x) l) in *.
  assert (time_lt a r = false ∧ time_lt x r = false) as [Har Hxr].
  { unfold std_min in H1. destruct (time_lt x a) eqn:Hxa.
    - split; [|done]. destruct (time_lt a r) eqn:Har; [|done].
      by rewrite (time_lt_trans x a r) in H1.
    - split; [done|]. destruct (time_lt x r) eqn:Hxr; [|done].
      destruct (time_lt_negtrans x a r); congruence. }
  split; [done|]. by constructor.
Qed.

Lemma foldl_std_min_attained a l :
  foldl std_min a l = a ∨ foldl std_min a l ∈ l.
Proof.
  revert a. induction l as [|x l IH]; intros a; simpl; [by left|].
  destruct (IH (std_min a x)) as [->|H].
  - unfold std_min. destruct (time_lt x a); [right; left|by left].
  - right. by right.
Qed.

Lemma delays_ordered_fmap cons :
  delays_ordered ordered cons → Forall ordered (delay <$> cons).
Proof. intros. by apply Forall_fmap. Qed.

Lemma min_over_ordered cons : delays_ordered ordered cons → ordered (min_over cons).
Proof.
  intros. apply foldl_std_min_ordered; [apply time_max_ordered|].
  by apply delays_ordered_fmap.
Qed.

Lemma std_min_max_r cons :
  delays_ordered ordered cons → std_min (min_over cons) time_max = min_over cons.
Proof.
  intros Hc. unfold std_min, min_over.
  destruct (foldl_std_min_lower time_max (delay <$> cons)) as [-> _];
    [apply time_max_ordered|by apply delays_ordered_fmap|done].
Qed.

Lemma min_over_app cons1 cons2 :
  delays_ordered ordered cons1 → delays_ordered ordered cons2 →
  min_over (cons1 ++ cons2) = std_min (min_over cons1) (min_over cons2).
Proof.
  intros H1 H2. unfold min_over at 3.
  rewrite <-foldl_std_min_assoc, std_min_max_r;
    [|done|by apply min_over_ordered|apply time_max_ordered
     |by apply delays_ordered_fmap].
  unfold min_over. by rewrite fmap_app, foldl_app.
Qed.

Lemma distributed_min_min_over cons tables :
  delays_ordered ordered cons → Forall (delays_ordered ordered) tables →
  distributed_min (min_over cons) (min_over <$> tables)
  = min_over (cons ++ mjoin tables).
Proof.
  intros Hc Ht. unfold distributed_min. revert cons Hc.
  induction Ht as [|t tables Ht _ IH]; intros cons Hc; simpl.
  - by rewrite app_nil_r.
  - rewrite <-min_over_app by done. rewrite IH by (by apply Forall_app).
    by rewrite (assoc_L (++)).
Qed.

Lemma min_delay_min_over (c : communicator) (peers : list communicator) :
  delays_ordered ordered (global_connections c peers) →
  min_delay c peers = min_over (global_connections c peers).
Proof.
  unfold min_delay, global_connections. intros [Hc Hp]%Forall_app.
  rewrite local_min_delay_min_over, <-distributed_min_min_over.
  - f_equal. rewrite <-list_fmap_compose. apply list_fmap_ext.
    intros _ p _. simpl. apply local_min_delay_min_over.
  - done.
  - apply Forall_fmap. clear Hc. induction peers as [|p peers IH]; [done|].
    simpl in Hp. apply Forall_app in Hp as [Hp1 Hp2]. constructor; auto.
Qed.
End MinDelay.

(** ** The order on cell members *)

Lemma member_lt_irrefl a : member_lt a a = false.
Proof.
  unfold member_lt. rewrite !N.ltb_irrefl. by rewrite andb_false_r.
Qed.

Lemma member_lt_spec a b :
  member_lt a b = true ↔
  (gid a < gid b ∨ (gid a = gid b ∧ index a < index b))%N.
Proof.
  unfold member_lt.
  rewrite orb_true_iff, andb_true_iff, !N.ltb_lt, N.eqb_eq. tauto.
Qed.

Lemma member_lt_false a b :
  member_lt a b = false ↔
  (gid b < gid a ∨ (gid a = gid b ∧ index b ≤ index a))%N.
Proof.
  rewrite <-not_true_iff_false, member_lt_spec. lia.
Qed.

Lemma member_lt_trans a b c :
  member_lt a b = true → member_lt b c = true → member_lt a c = true.
Proof. rewrite !member_lt_spec. lia. Qed.

Lemma member_eq a b : gid a = gid b → index a = index b → a = b.
Proof. destruct a, b; simpl; congruence. Qed.

Lemma member_le_antisymm a b : member_le a b → member_le b a → a = b.
Proof.
  unfold member_le. rewrite !member_lt_false. intros; apply member_eq; lia.
Qed.

#[global] Instance member_le_refl : Reflexive member_le.
Proof. intros a. apply member_lt_irrefl. Qed.

#[global] Instance member_le_trans : Transitive member_le.
Proof. intros a b c. unfold member_le. rewrite !member_lt_false. lia. Qed.

#[global] Instance member_le_total : Total member_le.
Proof. intros a b. unfold member_le. rewrite !member_lt_false. lia. Qed.

Lemma member_lt_le a b : member_lt a b = true → member_le a b.
Proof. unfold member_le. rewrite member_lt_spec, member_lt_false. lia. Qed.

Lemma member_lt_le_trans a b c :
  member_lt a b = true → member_le b c → member_lt a c = true.
Proof. unfold member_le. rewrite !member_lt_spec, member_lt_false. lia. Qed.

Lemma member_le_lt_trans a b c :
  member_le a b → member_lt b c = true → member_lt a c = true.
Proof. unfold member_le. rewrite !member_lt_spec, member_lt_false. lia. Qed.

(** ** The sorting instance meets the contract *)

Section SourceOrderFacts.
Context (Sc : Scalars).

#[local] Instance connection_le_trans : Transitive (SourceOrder.connection_le Sc).
Proof. intros a b c. apply member_le_trans. Qed.
#[local] Instance connection_le_total : Total (SourceOrder.connection_le Sc).
Proof. intros a b. apply member_le_total. Qed.
#[local] Instance spike_le_trans : Transitive (SourceOrder.spike_le Sc).
Proof. intros a b c. apply member_le_trans. Qed.
#[local] Instance spike_le_total : Total (SourceOrder.spike_le Sc).
Proof. intros a b. apply member_le_total. Qed.

Lemma source_order_sorts_spec : SortsSpec (SourceOrder.sorts Sc).
Proof.
  split; simpl.
  - done.
  - intros l. apply merge_sort_Permutation.
  - intros l. apply (StronglySorted_merge_sort (SourceOrder.connection_le Sc)).
  - intros l. apply merge_sort_Permutation.
  - intros l. apply (StronglySorted_merge_sort (SourceOrder.spike_le Sc)).
Qed.
End SourceOrderFacts.

(** ** Loops *)

Section ForEach.
Context {A St : Type}.
Implicit Types (body : St → A → outcome St) (l : list A) (st : St).

Lemma for_each_app body l1 l2 st :
  for_each body (l1 ++ l2) st = st' ← for_each body l1 st; for_each body l2 st'.
Proof.
  revert st. induction l1 as [|x l1 IH]; intros st; simpl; [done|].
  destruct (body st x); simpl; auto.
Qed.

Lemma for_each_ext body1 body2 l st :
  (∀ st x, x ∈ l → body1 st x = body2 st x) →
  for_each body1 l st = for_each body2 l st.
Proof.
  revert st. induction l as [|x l IH]; intros st Hb; simpl; [done|].
  rewrite Hb by left. destruct (body2 st x); simpl; [|done..].
  apply IH. intros. apply Hb. by right.
Qed.

(** A body that leaves the state alone leaves it alone in the loop. *)
Lemma for_each_id body l st :
  (∀ x, x ∈ l → body st x = Done st) → for_each body l st = Done st.
Proof.
  induction l as [|x l IH]; intros Hb; simpl; [done|].
  rewrite Hb by left. simpl. apply IH. intros. apply Hb. by right.
Qed.
End ForEach.

(** ** Slices and blocks *)

Section Blocks.
Context {A : Type}.
Implicit Types (v : list A) (blocks : list (list A)).

Lemma subrange_nil lo hi : subrange (@nil A) lo hi = [].
Proof. unfold subrange. by rewrite drop_nil, take_nil. Qed.

Lemma subrange_app_middle v1 v2 v3 :
  subrange (v1 ++ v2 ++ v3) (length v1) (length v1 + length v2) = v2.
Proof.
  unfold subrange. rewrite drop_app_length.
  replace (length v1 + length v2 - length v1) with (length v2) by lia.
  by rewrite take_app_length.
Qed.

Lemma subrange_elem_of v lo hi x : x ∈ subrange v lo hi → x ∈ v.
Proof.
  unfold subrange. intros H.
  eapply elem_of_sublist; [done|].
  etrans; [apply sublist_take|apply sublist_drop].
Qed.

Lemma partial_sums_length acc sizes :
  length (partial_sums acc sizes) = length sizes.
Proof. revert acc. induction sizes; intros; simpl; auto. Qed.

Lemma make_index_length sizes : length (make_index sizes) = S (length sizes).
Proof. unfold make_index. simpl. by rewrite partial_sums_length. Qed.

Lemma partial_sums_lookup acc sizes i :
  i < length sizes →
  partial_sums acc sizes !!! i = acc + sum_list (take (S i) sizes).
Proof.
  revert acc i. induction sizes as [|n sizes IH]; intros acc i Hi; simpl in *.
  { lia. }
  destruct i as [|i]; simpl.
  - rewrite ?take_0. simpl. lia.
  - change ((acc + n :: partial_sums (acc + n) sizes) !!! S i)
      with (partial_sums (acc + n) sizes !!! i).
    rewrite IH by lia. simpl. lia.
Qed.

Lemma make_index_lookup sizes i :
  i ≤ length sizes → make_index sizes !!! i = sum_list (take i sizes).
Proof.
  intros Hi. unfold make_index. destruct i as [|i]; simpl.
  { done. }
  by rewrite partial_sums_lookup by lia.
Qed.

Lemma make_index_0 sizes : make_index sizes !!! 0 = 0.
Proof. done. Qed.

Lemma make_index_S sizes i n :
  sizes !! i = Some n →
  make_index sizes !!! (i + 1) = make_index sizes !!! i + n.
Proof.
  intros Hn. pose proof (lookup_lt_Some _ _ _ Hn) as Hi.
  rewrite !make_index_lookup by lia.
  replace (i + 1) with (S i) by lia.
  erewrite take_S_r by done. rewrite sum_list_with_app. simpl. lia.
Qed.

Lemma make_index_last sizes :
  make_index sizes !!! length sizes = sum_list sizes.
Proof. rewrite make_index_lookup by lia. by rewrite take_ge by lia. Qed.

Lemma make_index_mono sizes i j :
  i ≤ j → j ≤ length sizes → make_index sizes !!! i ≤ make_index sizes !!! j.
Proof.
  intros Hij Hj. rewrite !make_index_lookup by lia.
  rewrite <-(take_drop i (take j sizes)), take_take, sum_list_with_app.
  replace (i `min` j) with i by lia. lia.
Qed.

Lemma mjoin_middle blocks d b :
  blocks !! d = Some b →
  mjoin blocks = mjoin (take d blocks) ++ b ++ mjoin (drop (S d) blocks).
Proof.
  intros Hb. rewrite <-(take_drop_middle _ _ _ Hb) at 1. by rewrite join_app.
Qed.

(** Block [d] of a concatenation sits between entries [d] and [d + 1] of
    the index of the block sizes. *)
Lemma subrange_mjoin blocks d b :
  blocks !! d = Some b →
  subrange (mjoin blocks) (make_index (length <$> blocks) !!! d)
    (make_index (length <$> blocks) !!! (d + 1)) = b.
Proof.
  intros Hb. pose proof (lookup_lt_Some _ _ _ Hb) as Hd.
  erewrite make_index_S by (by rewrite list_lookup_fmap, Hb).
  rewrite make_index_lookup by (rewrite length_fmap; lia).
  rewrite <-fmap_take, <-length_join, (mjoin_middle _ _ _ Hb).
  apply subrange_app_middle.
Qed.

Lemma lookup_mjoin_block blocks d b j :
  blocks !! d = Some b → j < length b →
  mjoin blocks !! (make_index (length <$> blocks) !!! d + j) = b !! j.
Proof.
  intros Hb Hj. pose proof (lookup_lt_Some _ _ _ Hb) as Hd.
  rewrite make_index_lookup by (rewrite length_fmap; lia).
  rewrite <-fmap_take, <-length_join, (mjoin_middle _ _ _ Hb).
  rewrite lookup_app_r by lia.
  replace (_ + j - _) with j by lia. by rewrite lookup_app_l.
Qed.

(** Every position of a concatenation lies in exactly one block. *)
Lemma mjoin_position blocks i :
  i < length (mjoin blocks) →
  ∃ d b, blocks !! d = Some b ∧
    make_index (length <$> blocks) !!! d ≤ i
    < make_index (length <$> blocks) !!! (d + 1).
Proof.
  induction blocks as [|b0 blocks IH] using rev_ind; simpl; [lia|].
  rewrite join_app, length_app. simpl. rewrite app_nil_r. intros Hi.
  destruct (decide (i < length (mjoin blocks))) as [Hlt|Hge].
  - destruct (IH Hlt) as (d & b & Hb & Hd). exists d, b.
    pose proof (lookup_lt_Some _ _ _ Hb) as Hdl.
    split; [by apply lookup_app_l_Some|].
    rewrite !make_index_lookup in * by (rewrite length_fmap, ?length_app; simpl; lia).
    rewrite fmap_app, !take_app_le by (rewrite length_fmap; lia). done.
  - exists (length blocks), b0. split.
    { by rewrite lookup_app_r, Nat.sub_diag by lia. }
    erewrite make_index_S; last first.
    { rewrite list_lookup_fmap, lookup_app_r, Nat.sub_diag by lia. done. }
    rewrite make_index_lookup by (rewrite length_fmap, length_app; simpl; lia).
    rewrite fmap_app, take_app_length' by (by rewrite length_fmap).
    rewrite <-length_join. lia.
Qed.
End Blocks.

(** ** Binary search on a partitioned range *)

Section SearchFacts.
Context {A : Type}.

(** On a range whose elements that send the search to the right come
    first, the loop returns their number. *)
Lemma search_loop_partitioned (go_right : A → bool) l1 l2 fuel first count :
  Forall (λ x, go_right x = true) l1 →
  Forall (λ x, go_right x = false) l2 →
  first ≤ length l1 ≤ first + count →
  first + count ≤ length (l1 ++ l2) →
  count ≤ fuel →
  search_loop go_right (l1 ++ l2) fuel first count = length l1.
Proof.
  intros H1 H2. revert first count.
  induction fuel as [|fuel IH]; intros first count Hk Hlen Hfuel;
    cbn [search_loop].
  { lia. }
  case_decide as Hc; [lia|]. cbv zeta.
  assert (count / 2 < count) as Hstep by (apply Nat.div_lt; lia).
  destruct ((l1 ++ l2) !! (first + count / 2)) as [x|] eqn:Hx; last first.
  { apply lookup_ge_None in Hx. lia. }
  destruct (decide (first + count / 2 < length l1)) as [Hlt|Hge].
  - rewrite lookup_app_l in Hx by done.
    rewrite (proj1 (Forall_forall _ _) H1 x) by (by eapply list_elem_of_lookup_2).
    apply IH; lia.
  - rewrite lookup_app_r in Hx by lia.
    rewrite (proj1 (Forall_forall _ _) H2 x) by (by eapply list_elem_of_lookup_2).
    apply IH; lia.
Qed.

(** A test that is downward closed along a sorted list splits it. *)
Lemma sorted_partitioned (R : relation A) (P : A → Prop) `{∀ x, Decision (P x)} l :
  StronglySorted R l →
  (∀ a b, R a b → P b → P a) →
  l = filter P l ++ filter (λ x, ¬ P x) l.
Proof.
  intros Hs HP. induction Hs as [|x l Hs IH Hx]; [done|].
  destruct (decide (P x)) as [Hp|Hn].
  - rewrite (filter_cons_True P) by done.
    rewrite (filter_cons_False (λ x, ¬ P x)) by tauto.
    simpl. by rewrite <-IH.
  - assert (Forall (λ y, ¬ P y) l) as Hall.
    { eapply Forall_impl; [exact Hx|]. intros y Hy Hpy. eauto. }
    rewrite (filter_cons_False P) by done.
    rewrite (filter_cons_True (λ x, ¬ P x)) by done.
    assert (filter P l = []) as ->.
    { clear -Hall. induction Hall as [|y l Hy _ IHl]; [done|].
      by rewrite filter_cons_False. }
    simpl. f_equal.
    clear -Hall. induction Hall as [|y l Hy _ IHl]; [done|].
    rewrite filter_cons_True by done. by rewrite <-IHl.
Qed.

Lemma search_loop_sorted (R : relation A) (go_right : A → bool) l :
  StronglySorted R l →
  (∀ a b, R a b → go_right b = true → go_right a = true) →
  search_loop go_right l (length l) 0 (length l)
  = length (filter (λ x, go_right x = true) l).
Proof.
  intros Hs Hgo.
  pose proof (sorted_partitioned R (λ x, go_right x = true) l Hs Hgo) as Hl.
  rewrite Hl at 1 2 3. apply search_loop_partitioned.
  - apply Forall_forall. intros x. rewrite list_elem_of_filter. tauto.
  - apply Forall_forall. intros x. rewrite list_elem_of_filter.
    intros [? _]. by destruct (go_right x).
  - rewrite <-Hl. pose proof (length_filter (λ x, go_right x = true) l). lia.
  - by rewrite <-Hl.
  - done.
Qed.

Context (key : A → cell_member_type).
Implicit Types (l : list A) (v : cell_member_type).

Lemma sorted_by_drop l n : sorted_by key l → sorted_by key (drop n l).
Proof.
  unfold sorted_by. intros Hs. rewrite <-(take_drop n l) in Hs.
  by apply StronglySorted_app_1_r in Hs.
Qed.

Lemma lower_bound_sorted l v :
  sorted_by key l →
  lower_bound (λ x v, member_lt (key x) v) l v
  = length (filter (λ x, member_lt (key x) v = true) l).
Proof.
  intros Hs. unfold lower_bound.
  apply (search_loop_sorted _ (λ x, member_lt (key x) v) l Hs).
  intros a b Hab Hb. by eapply member_le_lt_trans.
Qed.

Lemma upper_bound_sorted l v :
  sorted_by key l →
  upper_bound (λ v x, member_lt v (key x)) l v
  = length (filter (λ x, member_lt v (key x) = false) l).
Proof.
  intros Hs. unfold upper_bound.
  rewrite (search_loop_sorted _ (λ x, negb (member_lt v (key x))) l Hs).
  - f_equal. apply list_filter_iff. intros x. by destruct (member_lt v (key x)).
  - intros a b Hab. rewrite !negb_true_iff. intros Hb.
    change (member_le (key a) v). by trans (key b).
Qed.

Lemma drop_lower_bound l v :
  sorted_by key l →
  drop (lower_bound (λ x v, member_lt (key x) v) l v) l
  = filter (λ x, member_le v (key x)) l.
Proof.
  intros Hs. rewrite lower_bound_sorted by done.
  pose proof (sorted_partitioned _ (λ x, member_lt (key x) v = true) l Hs) as Hl.
  rewrite Hl at 2 by (intros a b Hab Hb; by eapply member_le_lt_trans).
  rewrite drop_app_length. apply list_filter_iff.
  intros x. unfold member_le. by destruct (member_lt (key x) v).
Qed.

(** On a sorted list the equal range is the run of the elements with the
    key searched for. *)
Lemma subrange_equal_range l v :
  sorted_by key l →
  let r := equal_range (λ x v, member_lt (key x) v) (λ v x, member_lt v (key x)) l v in
  subrange l r.1 r.2 = filter (λ x, key x = v) l.
Proof.
  intros Hs. simpl. unfold subrange.
  rewrite drop_lower_bound by done.
  rewrite lower_bound_sorted, upper_bound_sorted by done.
  set (P1 := λ x, member_lt (key x) v = true).
  set (P2 := λ x, member_lt v (key x) = false).
  set (GE := filter (λ x, member_le v (key x)) l).
  assert (l = filter P1 l ++ GE) as Hl1.
  { rewrite (sorted_partitioned _ P1 l Hs) at 1
      by (intros a b Hab Hb; by eapply member_le_lt_trans).
    f_equal. apply list_filter_iff. intros x. unfold P1, member_le.
    by destruct (member_lt (key x) v). }
  assert (l = filter P2 l ++ filter (λ x, ¬ P2 x) l) as Hl2.
  { apply (sorted_partitioned _ P2 l Hs). intros a b Hab Hb.
    change (member_le (key a) v). by trans (key b). }
  assert (filter P2 l = filter P1 l ++ filter P2 GE) as Hp2.
  { rewrite Hl1 at 1. rewrite filter_app. f_equal.
    apply list_filter_filter_r. intros x. apply member_lt_le. }
  assert (GE = filter P2 GE ++ filter (λ x, ¬ P2 x) l) as Hge.
  { apply (app_inv_head (filter P1 l)). by rewrite <-Hl1, (assoc_L (++)), <-Hp2. }
  rewrite Hp2, length_app.
  replace (_ + _ - _) with (length (filter P2 GE)) by lia.
  rewrite Hge at 2. rewrite take_app_length.
  unfold GE. rewrite list_filter_filter. apply list_filter_iff.
  intros x. unfold P2. split.
  - intros [H1 H2]. symmetry. by apply member_le_antisymm.
  - intros ->. split; apply member_lt_irrefl.
Qed.
End SearchFacts.

(** ** Event routing: what the loops visit *)

Lemma for_each_fmap {A B St} (f : B → A) (body : St → A → outcome St) l st :
  for_each body (f <$> l) st = for_each (λ st y, body st (f y)) l st.
Proof.
  revert st. induction l as [|y l IH]; intros st; simpl; [done|].
  destruct (body st (f y)); simpl; auto.
Qed.

Lemma for_each_bind {A B St} (f : B → list A) (body : St → A → outcome St) l st :
  for_each body (l ≫= f) st = for_each (λ st x, for_each body (f x) st) l st.
Proof.
  revert st. induction l as [|x l IH]; intros st; simpl; [done|].
  rewrite for_each_app. destruct (for_each body (f x) st); simpl; auto.
Qed.

Section RoutingFacts.
Context `{Sc : Scalars}.
Implicit Types (cons : list connection) (spks : list spike).
Implicit Types (queues : list pse_vector) (pairs : list (connection * spike)).

Lemma deliver_app queues pairs1 pairs2 :
  deliver queues (pairs1 ++ pairs2)
  = queues' ← deliver queues pairs1; deliver queues' pairs2.
Proof. apply for_each_app. Qed.

Lemma deliver_fmap_connection cn spks queues :
  deliver queues ((cn,.) <$> spks)
  = for_each
      (λ queues s, push_back queues (index_on_domain cn) (make_event cn s))
      spks queues.
Proof. unfold deliver. by rewrite for_each_fmap. Qed.

Lemma deliver_fmap_spike sp cons queues :
  deliver queues ((., sp) <$> cons)
  = for_each
      (λ queues c, push_back queues (index_on_domain c) (make_event c sp))
      cons queues.
Proof. unfold deliver. by rewrite for_each_fmap. Qed.

Lemma walk_connections_deliver cons spks queues :
  walk_connections cons spks queues
  = deliver queues (found_connections_outer cons spks).
Proof.
  revert spks queues. induction cons as [|cn cons IH]; intros spks queues.
  { done. }
  destruct spks as [|s spks]; [done|].
  cbn [walk_connections found_connections_outer]. cbv zeta.
  rewrite deliver_app, deliver_fmap_connection.
  destruct (for_each _ _ queues); simpl; [apply IH|done..].
Qed.

Lemma walk_spikes_deliver spks cons queues :
  walk_spikes spks cons queues = deliver queues (found_spikes_outer spks cons).
Proof.
  revert cons queues. induction spks as [|sp spks IH]; intros cons queues.
  { done. }
  destruct cons as [|c cons]; [done|].
  cbn [walk_spikes found_spikes_outer]. cbv zeta.
  rewrite deliver_app, deliver_fmap_spike.
  destruct (for_each _ _ queues); simpl; [apply IH|done..].
Qed.

Lemma make_event_queues_deliver c global_spikes queues :
  make_event_queues c global_spikes queues
  = if decide (length queues = num_local_cells_ c)
    then deliver queues (found_pairs c global_spikes)
    else AssertionFailure.
Proof.
  unfold make_event_queues. case_decide; [|done].
  unfold deliver, found_pairs. rewrite for_each_bind.
  apply for_each_ext. intros st dom _. unfold found_on_domain.
  case_decide; [apply walk_connections_deliver|apply walk_spikes_deliver].
Qed.

Lemma make_event_queues_with_deliver f c global_spikes queues :
  make_event_queues_with f c global_spikes queues
  = if decide (length queues = num_local_cells_ c)
    then deliver queues (found_pairs_with f c global_spikes)
    else AssertionFailure.
Proof.
  unfold make_event_queues_with. case_decide; [|done].
  unfold deliver, found_pairs_with. rewrite for_each_bind.
  apply for_each_ext. intros st dom _.
  destruct (f dom); [apply walk_connections_deliver|apply walk_spikes_deliver].
Qed.

(** The source's choice of branch is one of the fixed choices. *)
Lemma make_event_queues_with_sizes c global_spikes queues :
  make_event_queues c global_spikes queues
  = make_event_queues_with
      (λ dom, bool_decide (length (domain_connections c dom)
                           < length (domain_spikes global_spikes dom)))
      c global_spikes queues.
Proof.
  unfold make_event_queues, make_event_queues_with. case_decide; [|done].
  apply for_each_ext. intros st dom _. simpl.
  by case_bool_decide; case_decide.
Qed.

Lemma appended_cons_eq i p pairs :
  index_on_domain p.1 = i →
  appended i (p :: pairs) = make_event p.1 p.2 :: appended i pairs.
Proof. intros Hi. unfold appended. by rewrite filter_cons_True. Qed.

Lemma appended_cons_ne i p pairs :
  index_on_domain p.1 ≠ i → appended i (p :: pairs) = appended i pairs.
Proof. intros Hi. unfold appended. by rewrite filter_cons_False. Qed.

Lemma length_extend queues pairs : length (extend queues pairs) = length queues.
Proof. apply length_imap. Qed.

Lemma lookup_extend queues pairs i :
  extend queues pairs !! i = (λ q, q ++ appended i pairs) <$> queues !! i.
Proof. apply list_lookup_imap. Qed.

Lemma deliver_cons queues p pairs :
  deliver queues (p :: pairs)
  = queues' ← push_back queues (index_on_domain p.1) (make_event p.1 p.2);
    deliver queues' pairs.
Proof. done. Qed.

(** Delivery succeeds exactly when every index is inside [queues], and
    then every queue is its old contents followed by its new events. *)
Lemma deliver_Done queues pairs :
  Forall (λ p, index_on_domain p.1 < length queues) pairs →
  deliver queues pairs = Done (extend queues pairs).
Proof.
  revert queues. induction pairs as [|p pairs IH]; intros queues Hall.
  { unfold deliver. simpl. f_equal. apply list_eq. intros i.
    rewrite lookup_extend. destruct (queues !! i); simpl; [|done].
    unfold appended. by rewrite filter_nil, fmap_nil, app_nil_r. }
  apply Forall_cons in Hall as [Hp Hall].
  rewrite deliver_cons. unfold push_back.
  destruct (lookup_lt_is_Some_2 _ _ Hp) as [q Hq]. rewrite Hq. simpl.
  rewrite IH by (by rewrite length_insert).
  f_equal. apply list_eq. intros i. rewrite !lookup_extend.
  destruct (decide (index_on_domain p.1 = i)) as [<-|Hne].
  - rewrite list_lookup_insert_eq, Hq by done. simpl.
    by rewrite appended_cons_eq, <-(assoc_L (++)).
  - rewrite list_lookup_insert_ne by done. by rewrite appended_cons_ne.
Qed.

Lemma deliver_inv queues pairs queues' :
  deliver queues pairs = Done queues' →
  Forall (λ p, index_on_domain p.1 < length queues) pairs.
Proof.
  revert queues. induction pairs as [|p pairs IH]; intros queues; [by constructor|].
  rewrite deliver_cons. unfold push_back.
  destruct (queues !! index_on_domain p.1) as [q|] eqn:Hq; simpl; [|done].
  intros Hd. apply IH in Hd. rewrite length_insert in Hd.
  constructor; [by eapply lookup_lt_Some|done].
Qed.

Lemma deliver_Done_iff queues pairs queues' :
  deliver queues pairs = Done queues' ↔
  Forall (λ p, index_on_domain p.1 < length queues) pairs
  ∧ queues' = extend queues pairs.
Proof.
  split.
  - intros Hd. pose proof (deliver_inv _ _ _ Hd) as Hall.
    rewrite deliver_Done in Hd by done. by injection Hd as <-.
  - intros [Hall ->]. by apply deliver_Done.
Qed.

Lemma appended_Permutation i pairs1 pairs2 :
  pairs1 ≡ₚ pairs2 → appended i pairs1 ≡ₚ appended i pairs2.
Proof. intros Hp. unfold appended. by rewrite Hp. Qed.
End RoutingFacts.

(** ** Event routing on sorted slices *)

Lemma bind_ext_elem_of {A B} (f g : A → list B) (l : list A) :
  (∀ x, x ∈ l → f x = g x) → l ≫= f = l ≫= g.
Proof.
  induction l as [|x l IH]; intros Hfg; [done|].
  rewrite !bind_cons, Hfg by left. f_equal. apply IH. intros. apply Hfg. by right.
Qed.

Lemma bind_app_Permutation {A B} (f g : A → list B) (l : list A) :
  l ≫= (λ x, f x ++ g x) ≡ₚ (l ≫= f) ++ (l ≫= g).
Proof.
  induction l as [|x l IH]; [done|].
  rewrite !bind_cons, IH, <-!(assoc_L (++)). f_equiv.
  rewrite !(assoc_L (++)). f_equiv. apply Permutation_app_comm.
Qed.

Lemma bind_nil_all {A B} (f : A → list B) (l : list A) :
  (∀ x, x ∈ l → f x = []) → l ≫= f = [].
Proof.
  induction l as [|x l IH]; intros Hf; [done|].
  rewrite bind_cons, Hf by left. simpl. apply IH. intros. apply Hf. by right.
Qed.

Lemma filter_fmap_pair_l {A B} (P : A * B → Prop) `{∀ p, Decision (P p)}
    (a : A) (l : list B) :
  filter P ((a,.) <$> l) = (a,.) <$> filter (λ b, P (a, b)) l.
Proof.
  induction l as [|b l IH]; [done|]. rewrite fmap_cons, !filter_cons, IH.
  by repeat case_decide.
Qed.

Lemma filter_bind {A B} (P : B → Prop) `{∀ b, Decision (P b)}
    (f : A → list B) (l : list A) :
  filter P (l ≫= f) = l ≫= (λ x, filter P (f x)).
Proof.
  induction l as [|x l IH]; [done|]. by rewrite !bind_cons, filter_app, IH.
Qed.

Section SortedRouting.
Context `{Sc : Scalars}.
Implicit Types (cons : list connection) (spks : list spike).

Lemma join_connections_outer_pairs cons spks :
  join_connections_outer cons spks = equal_source_pairs cons spks.
Proof.
  unfold equal_source_pairs, join_connections_outer, cprod, list_cprod.
  rewrite filter_bind. apply bind_ext_elem_of. intros cn _.
  rewrite filter_fmap_pair_l. f_equal. by apply list_filter_iff.
Qed.

Lemma join_spikes_outer_cons sp spks cons :
  join_spikes_outer (sp :: spks) cons
  = ((., sp) <$> filter (λ c, source c = sp_source sp) cons)
    ++ join_spikes_outer spks cons.
Proof. done. Qed.

Lemma join_connections_outer_nil cons : join_connections_outer cons [] = [].
Proof. by apply bind_nil_all. Qed.

Lemma join_spikes_outer_nil spks : join_spikes_outer spks [] = [].
Proof. by apply bind_nil_all. Qed.

(** The two orders list the same pairs. *)
Lemma join_spikes_outer_Permutation spks cons :
  join_spikes_outer spks cons ≡ₚ join_connections_outer cons spks.
Proof.
  induction spks as [|sp spks IH].
  { by rewrite join_connections_outer_nil. }
  rewrite join_spikes_outer_cons, IH. unfold join_connections_outer.
  assert ((., sp) <$> filter (λ c, source c = sp_source sp) cons
          = cons ≫= λ c, (c,.) <$> filter (λ s, sp_source s = source c) [sp])
    as ->.
  { clear IH. induction cons as [|c cons IHc]; [done|].
    rewrite bind_cons, <-IHc, filter_cons, (filter_singleton _ _ []).
    repeat case_decide; first [congruence|done]. }
  rewrite <-bind_app_Permutation.
  apply reflexive_eq, bind_ext_elem_of. intros c _.
  by rewrite <-fmap_app, <-filter_app.
Qed.

Lemma found_connections_outer_sorted cons spks :
  sorted_by source cons → sorted_by sp_source spks →
  found_connections_outer cons spks = join_connections_outer cons spks.
Proof.
  intros Hc. revert spks. induction Hc as [|cn cons Hc IH Hcn]; intros spks Hs.
  { done. }
  destruct spks as [|s0 spks0].
  { by rewrite join_connections_outer_nil. }
  set (spks := s0 :: spks0) in *.
  transitivity
    (((cn,.) <$> filter (λ s, sp_source s = source cn) spks)
     ++ join_connections_outer cons
          (filter (λ s, member_le (source cn) (sp_source s)) spks)).
  - change (found_connections_outer (cn :: cons) spks) with
      (let sources :=
         equal_range spike_lt_member member_lt_spike spks (source cn) in
       ((cn,.) <$> subrange spks sources.1 sources.2)
       ++ found_connections_outer cons (drop sources.1 spks)).
    cbv zeta.
    unfold spike_lt_member, member_lt_spike.
    rewrite (subrange_equal_range sp_source) by done.
    unfold equal_range. cbn [fst].
    rewrite (drop_lower_bound sp_source) by done.
    f_equal. apply IH.
    rewrite <-(drop_lower_bound sp_source) by done. by apply sorted_by_drop.
  - unfold join_connections_outer at 2. rewrite bind_cons. f_equal.
    apply bind_ext_elem_of. intros c Hin. f_equal.
    apply list_filter_filter_l. intros s ->.
    by eapply (proj1 (Forall_forall _ _) Hcn).
Qed.

Lemma found_spikes_outer_sorted spks cons :
  sorted_by source cons → sorted_by sp_source spks →
  found_spikes_outer spks cons = join_spikes_outer spks cons.
Proof.
  intros Hc Hs. revert cons Hc.
  induction Hs as [|sp spks Hs IH Hsp]; intros cons Hc.
  { done. }
  destruct cons as [|c0 cons0].
  { by rewrite join_spikes_outer_nil. }
  set (cons := c0 :: cons0) in *.
  transitivity
    (((., sp) <$> filter (λ c, source c = sp_source sp) cons)
     ++ join_spikes_outer spks
          (filter (λ c, member_le (sp_source sp) (source c)) cons)).
  - change (found_spikes_outer (sp :: spks) cons) with
      (let targets :=
         equal_range connection_lt_member member_lt_connection cons
           (sp_source sp) in
       ((., sp) <$> subrange cons targets.1 targets.2)
       ++ found_spikes_outer spks (drop targets.1 cons)).
    cbv zeta.
    unfold connection_lt_member, member_lt_connection.
    rewrite (subrange_equal_range source) by done.
    unfold equal_range. cbn [fst].
    rewrite (drop_lower_bound source) by done.
    f_equal. apply IH.
    rewrite <-(drop_lower_bound source) by done. by apply sorted_by_drop.
  - rewrite join_spikes_outer_cons. f_equal.
    apply bind_ext_elem_of. intros s Hin. f_equal.
    apply list_filter_filter_l. intros c ->.
    by eapply (proj1 (Forall_forall _ _) Hsp).
Qed.

Lemma found_on_domain_sorted c global_spikes dom :
  sorted_by source (domain_connections c dom) →
  sorted_by sp_source (domain_spikes global_spikes dom) →
  found_on_domain c global_spikes dom
  ≡ₚ equal_source_pairs (domain_connections c dom)
       (domain_spikes global_spikes dom).
Proof.
  intros Hc Hs. unfold found_on_domain. case_decide.
  - by rewrite found_connections_outer_sorted, join_connections_outer_pairs.
  - rewrite found_spikes_outer_sorted, join_spikes_outer_Permutation by done.
    by rewrite join_connections_outer_pairs.
Qed.

Lemma found_pairs_with_sorted f c global_spikes :
  connections_sorted c → spikes_sorted (num_domains_ c) global_spikes →
  found_pairs_with f c global_spikes
  ≡ₚ dom ← seq 0 (num_domains_ c);
     equal_source_pairs (domain_connections c dom)
       (domain_spikes global_spikes dom).
Proof.
  intros Hc Hs. unfold found_pairs_with.
  assert (Forall (λ dom, dom < num_domains_ c) (seq 0 (num_domains_ c))) as Hall.
  { apply Forall_forall. intros d. rewrite elem_of_seq. lia. }
  induction Hall as [|dom doms Hd _ IH]; [done|].
  rewrite !bind_cons, IH. f_equiv.
  destruct (f dom).
  - by rewrite found_connections_outer_sorted, join_connections_outer_pairs
      by auto.
  - rewrite found_spikes_outer_sorted, join_spikes_outer_Permutation by auto.
    by rewrite join_connections_outer_pairs.
Qed.
Lemma found_pairs_sorted c global_spikes :
  connections_sorted c → spikes_sorted (num_domains_ c) global_spikes →
  found_pairs c global_spikes
  ≡ₚ dom ← seq 0 (num_domains_ c);
     equal_source_pairs (domain_connections c dom)
       (domain_spikes global_spikes dom).
Proof.
  intros Hc Hs. unfold found_pairs.
  assert (Forall (λ dom, dom < num_domains_ c) (seq 0 (num_domains_ c))) as Hall.
  { apply Forall_forall. intros d. rewrite elem_of_seq. lia. }
  induction Hall as [|dom doms Hd _ IH]; [done|].
  rewrite !bind_cons, IH. f_equiv. apply found_on_domain_sorted; auto.
Qed.
End SortedRouting.

(** ** Construction of the connection table *)

Section ConstructionFacts.
Context `{Sc : Scalars} {So : Sorts Sc}.
Implicit Types (rec : recipe) (dom_dec : domain_decomposition).
Implicit Types (gid_infos : list gid_info) (table : list connection).

Lemma build_gid_infos_prefix rec n gids k :
  k ≤ length gids → k ≤ n →
  for_each
    (λ gid_infos i,
      let gid := gids !!! i in
      vec_store gid_infos i (mk_gid_info gid i (connections_on rec gid)))
    (seq 0 k) (replicate n gid_info_init)
  = Done (imap (λ i gid, mk_gid_info gid i (connections_on rec gid)) (take k gids)
          ++ replicate (n - k) gid_info_init).
Proof.
  intros Hk Hn. induction k as [|k IH].
  { simpl. by rewrite Nat.sub_0_r. }
  rewrite seq_S, for_each_app, IH by lia. simpl.
  destruct (lookup_lt_is_Some_2 gids k) as [g Hg]; [lia|].
  unfold vec_store. rewrite decide_True; last first.
  { rewrite length_app, length_imap, length_take, length_replicate. lia. }
  f_equal. rewrite (take_S_r _ _ _ Hg), imap_app. simpl.
  rewrite length_take_le by lia. rewrite Nat.add_0_r.
  rewrite (list_lookup_total_correct _ _ _ Hg).
  replace (n - k) with (S (n - S k)) by lia.
  set (pre := imap _ (take k gids)).
  replace k with (length pre + 0) at 1
    by (unfold pre; rewrite length_imap, length_take; lia).
  rewrite insert_app_r. simpl. by rewrite <-(assoc_L (++)).
Qed.

Lemma build_gid_infos_Done rec n gids :
  length gids ≤ n →
  build_gid_infos rec n gids = Done (expected_gid_infos rec n gids).
Proof.
  intros Hn. unfold build_gid_infos, expected_gid_infos.
  rewrite build_gid_infos_prefix by lia. by rewrite take_ge.
Qed.

Lemma elem_of_local_connections rec n gids k :
  k ∈ local_connections (expected_gid_infos rec n gids) ↔
  ∃ i g c, gids !! i = Some g ∧ c ∈ connections_on rec g
    ∧ k = local_connection i c.
Proof.
  unfold local_connections, expected_gid_infos.
  rewrite list_elem_of_bind. split.
  - intros (cell & Hk & Hcell). apply list_elem_of_fmap in Hk as (c & -> & Hc).
    apply elem_of_app in Hcell as [Hcell|Hcell].
    + apply elem_of_lookup_imap in Hcell as (i & g & -> & Hg). by exists i, g, c.
    + apply elem_of_replicate in Hcell as [-> _]. by apply elem_of_nil in Hc.
  - intros (i & g & c & Hg & Hc & ->).
    exists (mk_gid_info g i (connections_on rec g)). split.
    + by apply list_elem_of_fmap_2.
    + apply elem_of_app. left.
      apply (elem_of_lookup_imap_2 (λ i gid, mk_gid_info gid i _) _ _ _ Hg).
Qed.

Lemma length_local_connections gid_infos :
  sum_list (length ∘ gi_conns <$> gid_infos)
  = length (local_connections gid_infos).
Proof.
  unfold local_connections.
  induction gid_infos as [|g l IH]; [done|].
  rewrite bind_cons, length_app, length_fmap, <-IH. done.
Qed.

(** *** Counting the sources *)

Lemma count_sources_flat dom_dec num_domains gid_infos :
  count_sources dom_dec num_domains gid_infos
  = for_each (count_step dom_dec) (local_connections gid_infos)
      ([], replicate num_domains 0).
Proof.
  unfold count_sources, local_connections.
  rewrite for_each_bind. apply for_each_ext. intros st cell _.
  rewrite for_each_fmap. apply for_each_ext. by intros [??] c _.
Qed.

Lemma count_loop dom_dec table src_domains src_counts :
  Forall (λ k, source_domain dom_dec k < length src_counts) table →
  ∃ src_counts',
    for_each (count_step dom_dec) table (src_domains, src_counts)
    = Done (src_domains ++ (source_domain dom_dec <$> table), src_counts')
    ∧ length src_counts' = length src_counts
    ∧ ∀ d, d < length src_counts →
        src_counts' !!! d = src_counts !!! d + length (bucket dom_dec d table).
Proof.
  intros Hall. revert src_domains src_counts Hall.
  induction table as [|k table IH]; intros sd sc Hall.
  { exists sc. simpl. rewrite app_nil_r. split_and!; [done..|]. intros. simpl. lia. }
  apply Forall_cons in Hall as [Hk Hall].
  simpl. unfold vec_store. rewrite decide_True by done. simpl.
  set (sc1 := <[source_domain dom_dec k:=S (sc !!! source_domain dom_dec k)]> sc).
  destruct (IH (sd ++ [source_domain dom_dec k]) sc1) as (sc' & -> & Hlen & Hcount).
  { unfold sc1. by rewrite length_insert. }
  exists sc'. rewrite <-(assoc_L (++)). split_and!; [done|..].
  { unfold sc1 in Hlen. by rewrite length_insert in Hlen. }
  intros d Hd. rewrite Hcount by (unfold sc1; by rewrite length_insert).
  unfold sc1, bucket. destruct (decide (source_domain dom_dec k = d)) as [<-|Hne].
  - rewrite list_lookup_total_insert_eq, filter_cons_True by done. simpl. lia.
  - by rewrite list_lookup_total_insert_ne, filter_cons_False by done.
Qed.

Lemma count_sources_Done dom_dec num_domains gid_infos :
  Forall (λ k, source_domain dom_dec k < num_domains)
    (local_connections gid_infos) →
  count_sources dom_dec num_domains gid_infos
  = Done (source_domain dom_dec <$> local_connections gid_infos,
          length <$> buckets dom_dec num_domains (local_connections gid_infos)).
Proof.
  intros Hall. rewrite count_sources_flat.
  destruct (count_loop dom_dec (local_connections gid_infos) []
              (replicate num_domains 0)) as (sc' & -> & Hlen & Hcount).
  { by rewrite length_replicate. }
  rewrite length_replicate in Hlen, Hcount.
  f_equal. f_equal. apply list_eq. intros d.
  unfold buckets. rewrite <-list_fmap_compose, list_lookup_fmap.
  destruct (decide (d < num_domains)) as [Hd|Hd].
  - rewrite lookup_seq_lt by done. simpl.
    rewrite list_lookup_lookup_total_lt by lia. f_equal.
    rewrite Hcount by done. by rewrite lookup_total_replicate_2.
  - rewrite lookup_seq_ge by lia. simpl. apply lookup_ge_None. lia.
Qed.
End ConstructionFacts.

(** *** Placing the connections *)

Section Placement.
Context `{Sc : Scalars}.
Context (dom_dec : domain_decomposition) (num_domains : nat).
Context (table : list connection).
Context (Hdom : Forall (λ k, source_domain dom_dec k < num_domains) table).

Let cp := make_index (length <$> buckets dom_dec num_domains table).

Lemma length_buckets : length (buckets dom_dec num_domains table) = num_domains.
Proof. unfold buckets. by rewrite length_fmap, length_seq. Qed.

Lemma lookup_buckets d :
  d < num_domains →
  buckets dom_dec num_domains table !! d = Some (bucket dom_dec d table).
Proof.
  intros Hd. unfold buckets. by rewrite list_lookup_fmap, lookup_seq_lt.
Qed.

Lemma length_cp : length cp = S num_domains.
Proof. unfold cp. by rewrite make_index_length, length_fmap, length_buckets. Qed.

Lemma cp_S d :
  d < num_domains → cp !!! (d + 1) = cp !!! d + length (bucket dom_dec d table).
Proof.
  intros Hd. apply make_index_S. by rewrite list_lookup_fmap, lookup_buckets.
Qed.

Lemma cp_mono a b : a ≤ b → b ≤ num_domains → cp !!! a ≤ cp !!! b.
Proof.
  intros. apply make_index_mono; [done|]. by rewrite length_fmap, length_buckets.
Qed.

Lemma bucket_app d l1 l2 :
  bucket dom_dec d (l1 ++ l2) = bucket dom_dec d l1 ++ bucket dom_dec d l2.
Proof. apply filter_app. Qed.

Lemma place_step_placed done k rest st :
  table = done ++ k :: rest →
  placed dom_dec num_domains cp done st →
  ∃ st', place_step (source_domain dom_dec <$> table) st k = Done st'
         ∧ placed dom_dec num_domains cp (done ++ [k]) st'.
Proof.
  intros Htable Hst. destruct st as [[conns offsets] pos].
  destruct Hst as (-> & Hlen & Hoff & Hnext & Hslots).
  set (d0 := source_domain dom_dec k).
  assert (d0 < num_domains) as Hd0.
  { eapply (proj1 (Forall_forall _ _) Hdom). rewrite Htable.
    apply elem_of_app. right. left. }
  assert (∀ d, length (bucket dom_dec d done) + length (bucket dom_dec d [k])
               ≤ length (bucket dom_dec d table)) as Hroom.
  { intros d. rewrite Htable, (cons_middle k), !bucket_app, !length_app. lia. }
  assert (bucket dom_dec d0 [k] = [k]) as Hk0.
  { unfold bucket. by rewrite filter_cons_True. }
  assert (∀ d, d ≠ d0 → bucket dom_dec d [k] = []) as Hk1.
  { intros d Hd. unfold bucket. by rewrite filter_cons_False. }
  unfold place_step.
  assert ((source_domain dom_dec <$> table) !!! length done = d0) as ->.
  { apply list_lookup_total_correct.
    rewrite list_lookup_fmap, Htable, lookup_app_r, Nat.sub_diag by lia. done. }
  cbv zeta. unfold vec_store.
  rewrite (decide_True (P := d0 < length offsets)) by lia. simpl.
  pose proof (Hroom d0) as Hroom0. rewrite Hk0 in Hroom0. simpl in Hroom0.
  pose proof (cp_S d0 Hd0) as HS. pose proof (cp_mono (d0 + 1) num_domains).
  rewrite decide_True by (rewrite Hnext by done; lia). simpl.
  eexists. split; [done|].
  split_and!.
  - rewrite length_app. simpl. lia.
  - by rewrite length_insert.
  - by rewrite length_insert.
  - intros d Hd. rewrite bucket_app, length_app.
    destruct (decide (d = d0)) as [->|Hne].
    + rewrite list_lookup_total_insert_eq by lia.
      rewrite Hnext, Hk0 by done. simpl. lia.
    + rewrite list_lookup_total_insert_ne by done.
      rewrite Hnext, Hk1 by done. simpl. lia.
  - intros d j Hd. rewrite bucket_app, length_app.
    destruct (decide (d = d0)) as [->|Hne].
    + rewrite Hk0. simpl. intros Hj. rewrite Hnext by done.
      destruct (decide (j = length (bucket dom_dec d0 done))) as [->|Hj'].
      * rewrite list_lookup_insert_eq by lia.
        by rewrite lookup_app_r, Nat.sub_diag by lia.
      * rewrite list_lookup_insert_ne by lia.
        rewrite lookup_app_l by lia. apply Hslots; [done|lia].
    + rewrite Hk1, app_nil_r by done. simpl. rewrite Nat.add_0_r. intros Hj.
      rewrite Hnext by done.
      pose proof (Hroom d). pose proof (cp_S d Hd).
      rewrite list_lookup_insert_ne; [by apply Hslots|].
      destruct (decide (d < d0)).
      * pose proof (cp_mono (d + 1) d0). lia.
      * pose proof (cp_mono (d0 + 1) d). lia.
Qed.

Lemma place_loop done rest st :
  table = done ++ rest →
  placed dom_dec num_domains cp done st →
  ∃ st', for_each (place_step (source_domain dom_dec <$> table)) rest st
         = Done st' ∧ placed dom_dec num_domains cp table st'.
Proof.
  revert done st. induction rest as [|k rest IH]; intros done st Htable Hst.
  { exists st. rewrite app_nil_r in Htable. by subst. }
  destruct (place_step_placed done k rest st Htable Hst) as (st1 & Hstep & Hst1).
  simpl. rewrite Hstep. simpl. apply (IH (done ++ [k])); [|done].
  by rewrite <-(assoc_L (++)).
Qed.

(** The buckets cover the table. *)
Lemma filter_below_S (d : nat) (l : list connection) :
  length (filter (λ k, source_domain dom_dec k < S d) l)
  = length (filter (λ k, source_domain dom_dec k < d) l)
    + length (bucket dom_dec d l).
Proof.
  unfold bucket. induction l as [|k l IH]; [done|].
  rewrite !filter_cons. repeat case_decide; simpl; lia.
Qed.

Lemma cp_below d :
  d ≤ num_domains →
  cp !!! d = length (filter (λ k, source_domain dom_dec k < d) table).
Proof.
  induction d as [|d IH]; intros Hd.
  { unfold cp. rewrite make_index_0. symmetry. apply length_zero_iff_nil.
    generalize table. intros l. induction l as [|k l IHl]; [done|].
    by rewrite filter_cons_False by lia. }
  replace (S d) with (d + 1) at 1 by lia.
  rewrite cp_S, IH, filter_below_S by lia. done.
Qed.

Lemma cp_last : cp !!! num_domains = length table.
Proof using Hdom.
  rewrite cp_below by lia. f_equal.
  revert Hdom. generalize table. intros l Hl.
  induction Hl as [|k l Hk _ IH]; [done|].
  rewrite filter_cons_True by done. by rewrite IH.
Qed.

Lemma placed_table conns offsets pos :
  placed dom_dec num_domains cp table (conns, offsets, pos) →
  conns = mjoin (buckets dom_dec num_domains table).
Proof.
  intros (_ & Hlen & _ & _ & Hslots). apply list_eq. intros i.
  destruct (decide (i < length conns)) as [Hi|Hi]; last first.
  { rewrite (lookup_ge_None_2 conns) by lia. symmetry. apply lookup_ge_None.
    rewrite length_join. fold (sum_list (length <$> buckets dom_dec num_domains table)).
    rewrite <-make_index_last, length_fmap, length_buckets. fold cp. lia. }
  assert (i < length (mjoin (buckets dom_dec num_domains table))) as Hi'.
  { rewrite length_join, <-make_index_last, length_fmap, length_buckets.
    fold cp. lia. }
  destruct (mjoin_position _ _ Hi') as (d & b & Hb & Hlo & Hhi). fold cp in Hlo, Hhi.
  pose proof (lookup_lt_Some _ _ _ Hb) as Hd. rewrite length_buckets in Hd.
  rewrite lookup_buckets in Hb by done. injection Hb as <-.
  rewrite cp_S in Hhi by done.
  replace i with (cp !!! d + (i - cp !!! d)) by lia.
  rewrite Hslots by (done || lia).
  symmetry. apply lookup_mjoin_block; [by apply lookup_buckets|lia].
Qed.
End Placement.

(** *** Sorting the buckets, and the whole constructor *)

Section SortedTable.
Context `{Sc : Scalars} {So : Sorts Sc} {Spec : SortsSpec So}.
Implicit Types (blocks : list (list connection)).

Lemma length_sort (l : list connection) : length (sort l) = length l.
Proof. by rewrite sort_perm. Qed.

Lemma lengths_sorted_prefix blocks m :
  length <$> ((sort <$> take m blocks) ++ drop m blocks) = length <$> blocks.
Proof.
  rewrite fmap_app, <-list_fmap_compose.
  rewrite <-(take_drop m blocks) at 3. rewrite fmap_app. f_equal.
  apply list_fmap_ext. intros _ b _. apply length_sort.
Qed.

(** Sorting the slice of a block replaces the block by its sort. *)
Lemma sort_subrange_block blocks d b :
  blocks !! d = Some b →
  sort_subrange (mjoin blocks) (make_index (length <$> blocks) !!! d)
    (make_index (length <$> blocks) !!! (d + 1))
  = mjoin (<[d:=sort b]> blocks).
Proof.
  intros Hb. pose proof (lookup_lt_Some _ _ _ Hb) as Hd.
  unfold sort_subrange. rewrite (subrange_mjoin _ _ _ Hb). cbv zeta.
  rewrite length_sort.
  rewrite make_index_lookup by (rewrite length_fmap; lia).
  rewrite <-fmap_take, <-length_join, (mjoin_middle _ _ _ Hb).
  rewrite take_app_length, drop_app_add, drop_app_length.
  rewrite insert_take_drop, join_app by done. done.
Qed.

Lemma sort_domains_prefix blocks m :
  m ≤ length blocks →
  foldl
    (λ v i, sort_subrange v (make_index (length <$> blocks) !!! i)
              (make_index (length <$> blocks) !!! (i + 1)))
    (mjoin blocks) (seq 0 m)
  = mjoin ((sort <$> take m blocks) ++ drop m blocks).
Proof.
  induction m as [|m IH]; intros Hm.
  { by rewrite drop_0. }
  rewrite seq_S, foldl_app, IH by lia. simpl.
  destruct (lookup_lt_is_Some_2 blocks m) as [b Hb]; [lia|].
  rewrite <-(lengths_sorted_prefix blocks m).
  rewrite (sort_subrange_block _ m b); last first.
  { rewrite lookup_app_r; rewrite length_fmap, length_take_le by lia; [|done].
    by rewrite Nat.sub_diag, lookup_drop, Nat.add_0_r. }
  f_equal. rewrite (take_S_r _ _ _ Hb), fmap_app, <-(assoc_L (++)). simpl.
  replace m with (length (sort <$> take m blocks) + 0) at 1
    by (rewrite length_fmap, length_take_le; lia).
  rewrite insert_app_r. f_equal.
  rewrite (drop_S _ _ _ Hb). done.
Qed.

Lemma sort_domains_blocks blocks :
  sort_domains (make_index (length <$> blocks)) (length blocks) (mjoin blocks)
  = mjoin (sort <$> blocks).
Proof.
  unfold sort_domains. rewrite sort_domains_prefix by done.
  by rewrite take_ge, drop_ge, app_nil_r by done.
Qed.

Lemma place_connections_flat src_domains cp n gid_infos :
  place_connections src_domains cp n gid_infos
  = for_each (place_step src_domains) (local_connections gid_infos)
      (replicate n connection_init, cp, 0).
Proof.
  unfold place_connections, local_connections.
  rewrite for_each_bind. apply for_each_ext. intros st cell _.
  rewrite for_each_fmap. apply for_each_ext. by intros [[??]?] c _.
Qed.

Lemma well_formed_local_table rec dom_dec num_domains :
  well_formed rec dom_dec num_domains →
  Forall (λ k, source_domain dom_dec k < num_domains) (local_table rec dom_dec).
Proof.
  intros [_ Hdom]. apply Forall_forall. intros k Hk.
  apply elem_of_local_connections in Hk as (i & g & c & Hg & Hc & ->).
  apply (Hdom g c); [|done]. by eapply list_elem_of_lookup_2.
Qed.

(** On well-formed arguments the constructor returns, and what it
    returns. *)
Lemma construct_Done rec dom_dec num_domains :
  well_formed rec dom_dec num_domains →
  construct rec dom_dec num_domains
  = Done (built dom_dec num_domains (local_table rec dom_dec)).
Proof.
  intros Hwf. pose proof (well_formed_local_table _ _ _ Hwf) as Hdom.
  destruct Hwf as [Hcells _]. unfold construct.
  rewrite build_gid_infos_Done by done. simpl.
  fold (local_table rec dom_dec) in *.
  rewrite count_sources_Done by done. simpl.
  fold (local_table rec dom_dec).
  rewrite length_local_connections. fold (local_table rec dom_dec).
  rewrite place_connections_flat. fold (local_table rec dom_dec).
  set (table := local_table rec dom_dec) in *.
  set (cp := make_index (length <$> buckets dom_dec num_domains table)).
  destruct (place_loop dom_dec num_domains table Hdom [] table
              (replicate (length table) connection_init, cp, 0))
    as ([[conns offsets] pos] & -> & Hplaced); [done| |].
  { split_and!.
    - done.
    - by rewrite length_replicate, cp_last.
    - apply length_cp.
    - intros d Hd. unfold bucket. rewrite filter_nil. simpl.
      unfold cp. lia.
    - intros d j _ Hj. unfold bucket in Hj. rewrite filter_nil in Hj.
      simpl in Hj. lia. }
  simpl. unfold built. do 2 f_equal.
  rewrite (placed_table _ _ _ _ _ _ Hplaced).
  pose proof (sort_domains_blocks (buckets dom_dec num_domains table)) as Hs.
  by rewrite length_buckets in Hs.
Qed.
End SortedTable.

(** *** The table the constructor leaves *)

Section BuiltTable.
Context `{Sc : Scalars} {So : Sorts Sc} {Spec : SortsSpec So}.
Context (dom_dec : domain_decomposition) (num_domains : nat).
Context (table : list connection).
Context (Hdom : Forall (λ k, source_domain dom_dec k < num_domains) table).

Let c := built dom_dec num_domains table.

Lemma filter_below_S_Permutation (d : nat) (l : list connection) :
  filter (λ k, source_domain dom_dec k < S d) l
  ≡ₚ filter (λ k, source_domain dom_dec k < d) l ++ bucket dom_dec d l.
Proof.
  unfold bucket. induction l as [|k l IH]; [done|].
  rewrite !filter_cons.
  repeat case_decide; try lia; rewrite IH; [done| |done].
  apply Permutation_middle.
Qed.

Lemma buckets_below (n : nat) :
  mjoin (buckets dom_dec n table)
  ≡ₚ filter (λ k, source_domain dom_dec k < n) table.
Proof.
  induction n as [|n IH].
  { simpl. generalize table. intros l. induction l as [|k l IHl]; [done|].
    by rewrite filter_cons_False by lia. }
  unfold buckets in *. rewrite seq_S, fmap_app, join_app, IH. simpl.
  by rewrite app_nil_r, filter_below_S_Permutation.
Qed.

Lemma buckets_Permutation : mjoin (buckets dom_dec num_domains table) ≡ₚ table.
Proof using Hdom.
  rewrite buckets_below. apply reflexive_eq.
  revert Hdom. generalize table. intros l Hl.
  induction Hl as [|k l Hk _ IH]; [done|].
  rewrite filter_cons_True by done. by rewrite IH.
Qed.

Lemma sorted_buckets_Permutation :
  mjoin (sort <$> buckets dom_dec num_domains table) ≡ₚ table.
Proof using Hdom Spec.
  rewrite <-buckets_Permutation at 2.
  induction (buckets dom_dec num_domains table) as [|b bs IH]; [done|].
  simpl. by rewrite sort_perm, IH.
Qed.

(** The constructor keeps exactly the local connections. *)
Lemma built_connections_Permutation : connections_ c ≡ₚ table.
Proof using Hdom Spec. apply sorted_buckets_Permutation. Qed.

Lemma lengths_sorted_buckets :
  length <$> (sort <$> buckets dom_dec num_domains table)
  = length <$> buckets dom_dec num_domains table.
Proof using Spec.
  rewrite <-list_fmap_compose. apply list_fmap_ext. intros _ b _. apply length_sort.
Qed.

Lemma built_connection_part_length :
  length (connection_part_ c) = S num_domains.
Proof. apply length_cp. Qed.

Lemma built_connection_part_0 : connection_part_ c !!! 0 = 0.
Proof. done. Qed.

Lemma built_connection_part_mono a b :
  a ≤ b → b ≤ num_domains →
  connection_part_ c !!! a ≤ connection_part_ c !!! b.
Proof. apply cp_mono. Qed.

Lemma built_connection_part_last :
  connection_part_ c !!! num_domains = length (connections_ c).
Proof using Hdom Spec.
  simpl. rewrite cp_last by done. by rewrite sorted_buckets_Permutation.
Qed.

(** The slice of domain [d] is the sorted bucket of [d]. *)
Lemma built_domain_connections d :
  d < num_domains →
  domain_connections c d = sort (bucket dom_dec d table).
Proof using Spec.
  intros Hd. unfold domain_connections. simpl.
  rewrite <-lengths_sorted_buckets. apply subrange_mjoin.
  by rewrite list_lookup_fmap, lookup_buckets.
Qed.

Lemma elem_of_built_domain_connections d k :
  d < num_domains →
  k ∈ domain_connections c d ↔ k ∈ table ∧ source_domain dom_dec k = d.
Proof using Spec.
  intros Hd. rewrite built_domain_connections, sort_perm by done.
  unfold bucket. rewrite list_elem_of_filter. tauto.
Qed.

(** A connection sits in the slice of the domain of its source, and in
    no other. *)
Lemma built_position i k d :
  connections_ c !! i = Some k → d < num_domains →
  source_domain dom_dec k = d ↔
  connection_part_ c !!! d ≤ i < connection_part_ c !!! (d + 1).
Proof using Spec.
  intros Hk Hd. pose proof (lookup_lt_Some _ _ _ Hk) as Hi.
  destruct (mjoin_position _ _ Hi) as (d' & b & Hb & Hlo & Hhi).
  rewrite lengths_sorted_buckets in Hlo, Hhi.
  pose proof (lookup_lt_Some _ _ _ Hb) as Hd'.
  rewrite length_fmap, length_buckets in Hd'.
  assert (source_domain dom_dec k = d') as Hkd.
  { pose proof (lookup_mjoin_block _ _ _ (i - connection_part_ c !!! d') Hb)
      as Hblock.
    rewrite lengths_sorted_buckets in Hblock.
    rewrite list_lookup_fmap, lookup_buckets in Hb by done.
    injection Hb as <-.
    rewrite cp_S, <-(length_sort (bucket dom_dec d' table)) in Hhi by done.
    simpl in Hblock.
    replace (_ + (i - _)) with i in Hblock by (simpl; lia).
    simpl in Hk. rewrite Hk in Hblock.
    symmetry in Hblock. apply list_elem_of_lookup_2 in Hblock; [|simpl; lia].
    rewrite sort_perm in Hblock.
    by apply list_elem_of_filter in Hblock as [? _]. }
  simpl. split.
  - by intros <-; subst.
  - intros [Hlo2 Hhi2]. rewrite Hkd.
    destruct (decide (d' = d)) as [|Hne]; [done|]. exfalso.
    destruct (decide (d' < d)).
    + pose proof (cp_mono dom_dec num_domains table (d' + 1) d). lia.
    + pose proof (cp_mono dom_dec num_domains table (d + 1) d'). lia.
Qed.

(** Sortedness of the slices, in the order on connections and by
    source. *)
Lemma built_domain_sorted d :
  d < num_domains →
  StronglySorted (λ a b, connection_lt b a = false) (domain_connections c d).
Proof using Spec. intros Hd. rewrite built_domain_connections by done. apply sort_sorted. Qed.

Lemma sorted_by_source_of_sorted (l : list connection) :
  StronglySorted (λ a b, connection_lt b a = false) l → sorted_by source l.
Proof using Spec.
  unfold sorted_by. induction 1 as [|a l _ IH Ha]; constructor; [done|].
  eapply Forall_impl; [exact Ha|]. intros b Hb. unfold member_le.
  destruct (member_lt (source b) (source a)) eqn:Hlt; [|done].
  pose proof (connection_lt_source _ _ Hlt). simpl in Hb. congruence.
Qed.

Lemma built_connections_sorted : connections_sorted c.
Proof using Spec.
  intros d Hd. by apply sorted_by_source_of_sorted, built_domain_sorted.
Qed.
End BuiltTable.

(** *** When the constructor returns *)

Section ConstructInv.
Context `{Sc : Scalars} {So : Sorts Sc} {Spec : SortsSpec So}.

Lemma build_gid_infos_inv rec n gids gid_infos :
  build_gid_infos rec n gids = Done gid_infos → length gids ≤ n.
Proof.
  intros Hb. destruct (decide (length gids ≤ n)) as [|Hgt]; [done|]. exfalso.
  unfold build_gid_infos in Hb.
  replace (length gids) with (n + S (length gids - S n)) in Hb at 1 by lia.
  rewrite seq_app, for_each_app, build_gid_infos_prefix in Hb by lia.
  simpl in Hb. unfold vec_store in Hb. rewrite decide_False in Hb; [done|].
  rewrite length_app, length_imap, length_take, length_replicate. lia.
Qed.

Lemma count_loop_inv dom_dec table st st' :
  for_each (count_step dom_dec) table st = Done st' →
  Forall (λ k, source_domain dom_dec k < length st.2) table.
Proof.
  revert st. induction table as [|k table IH]; intros [sd sc]; [by constructor|].
  simpl. unfold vec_store. case_decide as Hk; simpl; [|done].
  intros Hrest. apply IH in Hrest. simpl in Hrest.
  rewrite length_insert in Hrest. by constructor.
Qed.

Lemma construct_inv rec dom_dec num_domains c :
  construct rec dom_dec num_domains = Done c →
  well_formed rec dom_dec num_domains.
Proof.
  unfold construct. intros Hc.
  destruct (build_gid_infos _ _ _) as [gid_infos| |] eqn:Hb; [|done..].
  pose proof (build_gid_infos_inv _ _ _ _ Hb) as Hcells.
  rewrite build_gid_infos_Done in Hb by done. injection Hb as <-.
  simpl in Hc.
  destruct (count_sources _ _ _) as [st| |] eqn:Hs; [|done..].
  rewrite count_sources_flat in Hs. apply count_loop_inv in Hs.
  simpl in Hs. rewrite length_replicate in Hs.
  split; [done|]. intros g con Hg Hcon.
  apply list_elem_of_lookup in Hg as [i Hi].
  apply (proj1 (Forall_forall _ _) Hs (local_connection i con)).
  apply elem_of_local_connections. by exists i, g, con.
Qed.

(** The constructor returns exactly on well-formed arguments, and then
    the communicator [built] of the local table. *)
Lemma construct_Done_iff rec dom_dec num_domains c :
  construct rec dom_dec num_domains = Done c ↔
  well_formed rec dom_dec num_domains
  ∧ c = built dom_dec num_domains (local_table rec dom_dec).
Proof using Spec.
  split.
  - intros Hc. pose proof (construct_inv _ _ _ _ Hc) as Hwf.
    rewrite construct_Done in Hc by done. by injection Hc as <-.
  - intros [Hwf ->]. by apply construct_Done.
Qed.
End ConstructInv.

(** ** Spike exchange *)

Section ExchangeFacts.
Context `{Sc : Scalars} {So : Sorts Sc}.

Lemma domain_spikes_gather contributions d spikes :
  contributions !! d = Some spikes →
  domain_spikes (gather_spikes contributions) d = spikes.
Proof. apply subrange_mjoin. Qed.

Lemma exchange_fst c local_spikes :
  (exchange c local_spikes).1 = gather_spikes (sort_by_source <$> local_spikes).
Proof. done. Qed.

Lemma exchange_num_spikes c local_spikes :
  num_spikes (exchange c local_spikes).2
  = uint64_wrap (num_spikes c
                 + Z.of_nat (length (values (exchange c local_spikes).1))).
Proof. done. Qed.

Lemma uint64_wrap_add_l a b :
  uint64_wrap (uint64_wrap a + b) = uint64_wrap (a + b).
Proof. unfold uint64_wrap. by rewrite Zplus_mod_idemp_l. Qed.

Lemma uint64_wrap_small z : (0 ≤ z < 2 ^ 64)%Z → uint64_wrap z = z.
Proof. intros. unfold uint64_wrap. by apply Z.mod_small. Qed.

Lemma exchanges_num_spikes c calls :
  (0 ≤ num_spikes c < 2 ^ 64)%Z →
  num_spikes (exchanges c calls).2
  = uint64_wrap (num_spikes c + total_size (exchanges c calls).1).
Proof.
  revert c. induction calls as [|call calls IH]; intros c Hc.
  { simpl. by rewrite Z.add_0_r, uint64_wrap_small. }
  cbn [exchanges].
  destruct (exchange c call) as [g c'] eqn:He.
  pose proof (exchange_num_spikes c call) as Hn. rewrite He in Hn.
  specialize (IH c'). destruct (exchanges c' calls) as [gs c''] eqn:Hes.
  simpl in *. rewrite IH, Hn.
  - rewrite uint64_wrap_add_l. f_equal. lia.
  - rewrite Hn. unfold uint64_wrap. apply Z.mod_pos_bound. lia.
Qed.

Lemma exchanges_fst c calls :
  (exchanges c calls).1
  = (λ call, gather_spikes (sort_by_source <$> call)) <$> calls.
Proof.
  revert c. induction calls as [|call calls IH]; intros c; [done|].
  cbn [exchanges]. destruct (exchange c call) as [g c'] eqn:He.
  specialize (IH c'). destruct (exchanges c' calls) as [gs c''].
  pose proof (exchange_fst c call) as Hg. rewrite He in Hg.
  simpl in *. by f_equal.
Qed.

Lemma exchanges_table c calls :
  let c' := (exchanges c calls).2 in
  connections_ c' = connections_ c
  ∧ connection_part_ c' = connection_part_ c
  ∧ index_divisions_ c' = index_divisions_ c
  ∧ num_local_cells_ c' = num_local_cells_ c
  ∧ num_domains_ c' = num_domains_ c.
Proof.
  revert c. induction calls as [|call calls IH]; intros c; [done|].
  cbn [exchanges]. destruct (exchange c call) as [g c'] eqn:He.
  specialize (IH c'). destruct (exchanges c' calls) as [gs c''].
  simpl in *. injection He as _ <-. done.
Qed.
End ExchangeFacts.

(** ** Further facts about routing, sorted lists and the constructor *)

Section MoreFacts.
Context `{Sc : Scalars}.

Lemma found_connections_outer_elem_of cons spks p :
  p ∈ found_connections_outer cons spks → p.1 ∈ cons.
Proof.
  revert spks. induction cons as [|cn cons IH]; intros spks; simpl.
  { by intros ?%elem_of_nil. }
  destruct spks as [|s spks]; [by intros ?%elem_of_nil|].
  rewrite elem_of_app. intros [Hp|Hp].
  - apply list_elem_of_fmap in Hp as (s' & -> & _). simpl. left.
  - right. by eapply IH.
Qed.

Lemma found_spikes_outer_elem_of spks cons p :
  p ∈ found_spikes_outer spks cons → p.1 ∈ cons.
Proof.
  revert cons. induction spks as [|sp spks IH]; intros cons; simpl.
  { by intros ?%elem_of_nil. }
  destruct cons as [|c0 cons0]; [by intros ?%elem_of_nil|].
  set (cons := c0 :: cons0). rewrite elem_of_app. intros [Hp|Hp].
  - apply list_elem_of_fmap in Hp as (c' & -> & Hc). simpl.
    by eapply subrange_elem_of.
  - apply IH in Hp. eapply elem_of_sublist; [done|apply sublist_drop].
Qed.

Lemma found_pairs_elem_of c global_spikes p :
  p ∈ found_pairs c global_spikes → p.1 ∈ connections_ c.
Proof.
  unfold found_pairs. rewrite list_elem_of_bind. intros (dom & Hp & _).
  unfold found_on_domain in Hp.
  eapply subrange_elem_of.
  case_decide.
  - by eapply found_connections_outer_elem_of.
  - by eapply found_spikes_outer_elem_of.
Qed.

Lemma sorted_by_lookup {A} (key : A → cell_member_type) (l : list A) i j a b :
  sorted_by key l → i ≤ j → l !! i = Some a → l !! j = Some b →
  member_le (key a) (key b).
Proof.
  intros Hs. revert i j. induction Hs as [|x l Hs IH Hx]; intros i j Hij Hi Hj.
  { by rewrite lookup_nil in Hi. }
  destruct i as [|i], j as [|j]; simpl in *; simplify_eq.
  - apply member_le_refl.
  - eapply (proj1 (Forall_forall _ _) Hx). by eapply list_elem_of_lookup_2.
  - lia.
  - eapply (IH i j); [lia|done..].
Qed.

(** In a list sorted by a key, the elements with one key are contiguous. *)
Lemma sorted_by_contiguous {A} (key : A → cell_member_type) (l : list A)
    i j m a x b :
  sorted_by key l → i ≤ j → j ≤ m →
  l !! i = Some a → l !! j = Some x → l !! m = Some b →
  key a = key b → key x = key a.
Proof.
  intros Hs Hij Hjm Hi Hj Hm Hab.
  apply member_le_antisymm.
  - rewrite Hab. by eapply (sorted_by_lookup key l j m).
  - by eapply (sorted_by_lookup key l i j).
Qed.

Lemma construct_num_spikes {So : Sorts Sc} rec dom_dec num_domains c :
  construct rec dom_dec num_domains = Done c → num_spikes c = 0%Z.
Proof.
  unfold construct. intros Hc.
  destruct (build_gid_infos _ _ _); [|done..]. simpl in Hc.
  destruct (count_sources _ _ _) as [[??]| |]; [|done..]. simpl in Hc.
  destruct (place_connections _ _ _ _) as [[[??]?]| |]; [|done..].
  simpl in Hc. by injection Hc as <-.
Qed.
End MoreFacts.

(** ** The concrete networks *)

Lemma example_sorts_spec : SortsSpec Example.sorts.
Proof. apply source_order_sorts_spec. Qed.

Lemma construct_example_a :
  construct (So := Example.sorts) Example.recipe_a Example.decomposition_a 1
  = Done Example.communicator_a.
Proof. vm_compute. reflexivity. Qed.

Lemma construct_example_none :
  construct (So := Example.sorts) Example.recipe_none Example.decomposition_a 1
  = Done Example.communicator_none.
Proof. vm_compute. reflexivity. Qed.

Lemma construct_example_b :
  construct (So := Example.sorts) Example.recipe_b Example.decomposition_a 1
  = Done Example.communicator_b.
Proof. vm_compute. reflexivity. Qed.

Lemma construct_example_c :
  construct (So := Example.sorts) Example.recipe_c Example.decomposition_c 2
  = Done Example.communicator_c.
Proof. vm_compute. reflexivity. Qed.

(** The scenarios of the specification, by computation.

    One domain, one cell, one self-connection: the spike at time 5 becomes
    one event at time 7, one spike is counted, and [min_delay] is 2. *)
Lemma scenario_self_connection :
  (exchange (So := Example.sorts) Example.communicator_a
     [[Example.spike_a]]).1 = Example.spikes_a
  ∧ num_spikes
      (exchange (So := Example.sorts) Example.communicator_a
         [[Example.spike_a]]).2 = 1%Z
  ∧ make_event_queues Example.communicator_a Example.spikes_a [[]]
    = Done [[Example.event_a]]
  ∧ min_delay Example.communicator_a [] = 2%float.
Proof. split_and!; vm_compute; reflexivity. Qed.

(** Two domains: the spike of domain [0] reaches both, makes one event at
    time 11 on domain [1] and none on domain [0]. *)
Lemma scenario_cross_domain :
  construct (So := Example.sorts) Example.recipe_two
    (Example.decomposition_two 0) 2 = Done Example.communicator_two_0
  ∧ construct (So := Example.sorts) Example.recipe_two
      (Example.decomposition_two 1) 2 = Done Example.communicator_two_1
  ∧ (exchange (So := Example.sorts) Example.communicator_two_1
       [[Example.spike_two]; []]).1
    = mk_gathered [Example.spike_two] [0; 1; 1]
  ∧ make_event_queues Example.communicator_two_1
      (mk_gathered [Example.spike_two] [0; 1; 1]) [[]]
    = Done [[Example.event_two]]
  ∧ make_event_queues Example.communicator_two_0
      (mk_gathered [Example.spike_two] [0; 1; 1]) [[]]
    = Done [[]].
Proof. split_and!; vm_compute; reflexivity. Qed.

(** Two equal spikes and one matching connection: two equal events. *)
Lemma scenario_duplicate_spikes :
  make_event_queues Example.communicator_a
    (mk_gathered [Example.spike_a; Example.spike_a] [0; 2]) [[]]
  = Done [[Example.event_a; Example.event_a]].
Proof. vm_compute. reflexivity. Qed.

(** Local minima 0.5 and 0.25: the global minimum is 0.25 on both
    domains. *)
Lemma scenario_min_delay_reduction :
  min_delay (Example.communicator_delay 0.5%float)
    [Example.communicator_delay 0.25%float] = 0.25%float
  ∧ min_delay (Example.communicator_delay 0.25%float)
      [Example.communicator_delay 0.5%float] = 0.25%float.
Proof. split; vm_compute; reflexivity. Qed.

Lemma example_c_connections_sorted : connections_sorted Example.communicator_c.
Proof.
  intros [|[|dom]] Hdom; [solve_sorted..|]. simpl in Hdom. lia.
Qed.

Lemma example_c_spikes_sorted : spikes_sorted 2 Example.spikes_c.
Proof.
  intros [|[|dom]] Hdom; [solve_sorted..|]. lia.
Qed.

(** ** The spike counter *)

Section CounterFacts.
Context `{Sc : Scalars} {So : Sorts Sc}.

Lemma total_size_nonneg (returned : list gathered_vector) :
  (0 ≤ total_size returned)%Z.
Proof. induction returned as [|g gs IH]; simpl; lia. Qed.

Lemma total_size_replicate (m : nat) (g : gathered_vector) :
  total_size (replicate m g)
  = (Z.of_nat m * Z.of_nat (length (values g)))%Z.
Proof. induction m as [|m IH]; [done|]. rewrite replicate_S. simpl. lia. Qed.

(** [m] calls that each gather [n] copies of one spike from one domain
    return [m * n] spikes in total. *)
Lemma total_size_repeated_calls {Spec : SortsSpec So} c (m n : nat) (spk : spike) :
  total_size (exchanges c (replicate m [replicate n spk])).1
  = (Z.of_nat m * Z.of_nat n)%Z.
Proof.
  rewrite exchanges_fst, fmap_replicate, total_size_replicate. f_equal.
  simpl. by rewrite app_nil_r, sort_by_source_perm, length_replicate.
Qed.
End CounterFacts.

(** * The claims of the specification *)

(** C1, as amended.  [min_delay] is the minimum, over the union of every
    domain's connection table, of the delays together with
    [std::numeric_limits<time_type>::max()]: it equals the fold of
    [std::min] over that union, no delay and not [time_max] lies below
    it, and it is [time_max] or the delay of one of the connections.  With
    no connection in any domain it is [time_max], the largest finite time,
    and not an infinity.  The delays are taken from the times that [<]
    orders, which for IEEE numbers means that none is NaN. *)
Theorem min_delay_global_minimum `{Sc : Scalars} {ordered : time_type → Prop}
    {TO : TimeOrder Sc ordered}
    (c : communicator) (peers : list communicator) :
  delays_ordered ordered (global_connections c peers) →
  min_delay c peers = min_over (global_connections c peers)
  ∧ Forall (λ k, time_lt (delay k) (min_delay c peers) = false)
      (global_connections c peers)
  ∧ time_lt time_max (min_delay c peers) = false
  ∧ (min_delay c peers = time_max
     ∨ ∃ k, k ∈ global_connections c peers ∧ min_delay c peers = delay k)
  ∧ (global_connections c peers = [] → min_delay c peers = time_max).
Proof.
  intros Hord. rewrite min_delay_min_over by done. unfold min_over.
  destruct (foldl_std_min_lower time_max (delay <$> global_connections c peers))
    as [Hmax Hall]; [apply time_max_ordered|by apply delays_ordered_fmap|].
  split_and!; [done| |done| |].
  - by apply Forall_fmap in Hall.
  - destruct (foldl_std_min_attained time_max
                (delay <$> global_connections c peers)) as [Heq|Hin].
    + by left.
    + right. apply list_elem_of_fmap in Hin as (k & Hk & Hin). by exists k.
  - by intros ->.
Qed.

Lemma min_delay_global_minimum_witness :
  delays_ordered (Sc := Binary64.scalars) Binary64.not_nan
    (global_connections (Example.communicator_delay 0.5%float)
       [Example.communicator_delay 0.25%float])
  ∧ min_delay (Example.communicator_delay 0.5%float)
      [Example.communicator_delay 0.25%float]
    = min_over (global_connections (Example.communicator_delay 0.5%float)
                  [Example.communicator_delay 0.25%float])
  ∧ min_delay (Example.communicator_delay 0.5%float)
      [Example.communicator_delay 0.25%float] = 0.25%float.
Proof.
  assert (delays_ordered (Sc := Binary64.scalars) Binary64.not_nan
            (global_connections (Example.communicator_delay 0.5%float)
               [Example.communicator_delay 0.25%float])) as Hord.
  { repeat constructor. }
  split; [exact Hord|]. split; [|vm_compute; reflexivity].
  exact (proj1 (@min_delay_global_minimum Binary64.scalars Binary64.not_nan
                  binary64_order
                  (Example.communicator_delay 0.5%float)
                  [Example.communicator_delay 0.25%float] Hord)).
Defined.

(** C1, as stated, fails: on a network without any connection, with IEEE
    binary64 times, [min_delay] is the largest finite number and not
    [+∞]. *)
Lemma min_delay_no_connections_finite :
  construct (So := Example.sorts) Example.recipe_none Example.decomposition_a 1
    = Done Example.communicator_none
  ∧ global_connections Example.communicator_none [] = []
  ∧ @min_delay Binary64.scalars Example.communicator_none []
    = Binary64.max_value
  ∧ @min_delay Binary64.scalars Example.communicator_none []
    ≠ PrimFloat.infinity.
Proof.
  split; [exact construct_example_none|]. split_and!; [done..|].
  intros H. apply (f_equal (λ x, PrimFloat.ltb x PrimFloat.infinity)) in H.
  vm_compute in H. discriminate.
Qed.

(** C2.  When [make_event_queues] returns, every queue holds its old
    contents followed by one event [make_event cn s] for every pair
    [(cn, s)] the matching loops found whose connection has that queue's
    index, in the order found; the queue of such a pair exists; and the
    time of the event is the sum of the spike's time and the connection's
    delay as [+] on times computes it.  On slices sorted by source the
    pairs found are the pairs with equal sources. *)
Theorem make_event_queues_appends_events `{Sc : Scalars}
    (c : communicator) (global_spikes : gathered_vector)
    (queues queues' : list pse_vector) :
  make_event_queues c global_spikes queues = Done queues' →
  length queues' = length queues
  ∧ (∀ i q, queues !! i = Some q →
       queues' !! i
       = Some (q ++ ((λ p, make_event p.1 p.2)
                     <$> filter (λ p, index_on_domain p.1 = i)
                           (found_pairs c global_spikes))))
  ∧ (∀ p, p ∈ found_pairs c global_spikes →
       index_on_domain p.1 < length queues
       ∧ ev_time (make_event p.1 p.2) = time_add (sp_time p.2) (delay p.1))
  ∧ (connections_sorted c → spikes_sorted (num_domains_ c) global_spikes →
     found_pairs c global_spikes
     ≡ₚ dom ← seq 0 (num_domains_ c);
        equal_source_pairs (domain_connections c dom)
          (domain_spikes global_spikes dom)).
Proof.
  rewrite make_event_queues_deliver. case_decide; [|done].
  intros [Hall ->]%deliver_Done_iff. split_and!.
  - apply length_extend.
  - intros i q Hq. by rewrite lookup_extend, Hq.
  - intros p Hp. split; [|done].
    by apply (proj1 (Forall_forall _ _) Hall).
  - apply found_pairs_sorted.
Qed.

Lemma make_event_queues_appends_events_witness :
  make_event_queues Example.communicator_a Example.spikes_a [[]]
    = Done [[Example.event_a]]
  ∧ found_pairs Example.communicator_a Example.spikes_a
    = [(Example.connection_a, Example.spike_a)]
  ∧ ∀ p, p ∈ found_pairs Example.communicator_a Example.spikes_a →
      index_on_domain p.1 < 1
      ∧ ev_time (make_event p.1 p.2) = time_add (sp_time p.2) (delay p.1).
Proof.
  split; [vm_compute; reflexivity|]. split; [vm_compute; reflexivity|].
  apply (proj1 (proj2 (proj2
    (make_event_queues_appends_events Example.communicator_a
       Example.spikes_a [[]] [[Example.event_a]] eq_refl)))).
Defined.

(** C3.  On slices sorted by source, [make_event_queues] pairs every
    spike of a domain with every connection of that domain that has the
    same source.  The branch is chosen by [|cons| < |spks|]: when it holds
    the connections are walked and [equal_range] searches the spikes, so
    the pairs come connection by connection; otherwise the spikes are
    walked and [equal_range] searches the connections, so they come spike
    by spike.  Either way they are, up to order, all the pairs of a
    connection and a spike of the two slices with equal sources. *)
Theorem make_event_queues_pairs_equal_sources `{Sc : Scalars}
    (c : communicator) (global_spikes : gathered_vector)
    (queues : list pse_vector) :
  connections_sorted c →
  spikes_sorted (num_domains_ c) global_spikes →
  make_event_queues c global_spikes queues
  = (if decide (length queues = num_local_cells c)
     then for_each
            (λ queues dom,
              let cons := domain_connections c dom in
              let spks := domain_spikes global_spikes dom in
              if decide (length cons < length spks)
              then walk_connections cons spks queues
              else walk_spikes spks cons queues)
            (seq 0 (num_domains_ c)) queues
     else AssertionFailure)
  ∧ (∀ dom, dom < num_domains_ c →
       let cons := domain_connections c dom in
       let spks := domain_spikes global_spikes dom in
       (∀ q, walk_connections cons spks q
             = deliver q (join_connections_outer cons spks))
       ∧ (∀ q, walk_spikes spks cons q
               = deliver q (join_spikes_outer spks cons))
       ∧ join_connections_outer cons spks = equal_source_pairs cons spks
       ∧ join_spikes_outer spks cons ≡ₚ equal_source_pairs cons spks
       ∧ found_on_domain c global_spikes dom
         = if decide (length cons < length spks)
           then join_connections_outer cons spks
           else join_spikes_outer spks cons)
  ∧ make_event_queues c global_spikes queues
    = (if decide (length queues = num_local_cells c)
       then deliver queues (found_pairs c global_spikes)
       else AssertionFailure)
  ∧ found_pairs c global_spikes
    ≡ₚ dom ← seq 0 (num_domains_ c);
       equal_source_pairs (domain_connections c dom)
         (domain_spikes global_spikes dom).
Proof.
  intros Hc Hs. split_and!.
  - done.
  - intros dom Hdom. specialize (Hc dom Hdom). specialize (Hs dom Hdom).
    cbv zeta. split_and!.
    + intros q. by rewrite walk_connections_deliver,
        found_connections_outer_sorted.
    + intros q. by rewrite walk_spikes_deliver, found_spikes_outer_sorted.
    + apply join_connections_outer_pairs.
    + by rewrite join_spikes_outer_Permutation, join_connections_outer_pairs.
    + unfold found_on_domain. case_decide.
      * by apply found_connections_outer_sorted.
      * by apply found_spikes_outer_sorted.
  - apply make_event_queues_deliver.
  - by apply found_pairs_sorted.
Qed.

Lemma make_event_queues_pairs_equal_sources_witness :
  connections_sorted Example.communicator_c
  ∧ spikes_sorted 2 Example.spikes_c
  ∧ found_pairs Example.communicator_c Example.spikes_c
    ≡ₚ dom ← seq 0 2;
       equal_source_pairs (domain_connections Example.communicator_c dom)
         (domain_spikes Example.spikes_c dom).
Proof.
  split; [exact example_c_connections_sorted|].
  split; [exact example_c_spikes_sorted|].
  apply (make_event_queues_pairs_equal_sources Example.communicator_c
           Example.spikes_c [[]; []]
           example_c_connections_sorted example_c_spikes_sorted).
Defined.

(** C4, as amended.  For a communicator the constructor built and a
    global spike array whose per-domain slices are sorted by source (as
    [exchange] returns them), the events appended are the same multiset
    whichever branch is taken on each domain; if one choice of branches
    returns, so does any other, with the same events in every queue up to
    order.  The choice the code makes by the sizes is one of them. *)
Theorem strategies_emit_same_events `{Sc : Scalars} {So : Sorts Sc}
    {Spec : SortsSpec So} (rec : recipe) (dom_dec : domain_decomposition)
    (num_domains : nat) (c : communicator) (global_spikes : gathered_vector)
    (f g : nat → bool) (queues : list pse_vector) :
  construct rec dom_dec num_domains = Done c →
  spikes_sorted num_domains global_spikes →
  (λ p, make_event p.1 p.2) <$> found_pairs_with f c global_spikes
  ≡ₚ (λ p, make_event p.1 p.2) <$> found_pairs_with g c global_spikes
  ∧ make_event_queues_with f c global_spikes queues
    = (if decide (length queues = num_local_cells c)
       then deliver queues (found_pairs_with f c global_spikes)
       else AssertionFailure)
  ∧ (∀ queues_f,
       make_event_queues_with f c global_spikes queues = Done queues_f →
       ∃ queues_g,
         make_event_queues_with g c global_spikes queues = Done queues_g
         ∧ length queues_f = length queues_g
         ∧ ∀ i events_f, queues_f !! i = Some events_f →
             ∃ events_g, queues_g !! i = Some events_g
                         ∧ events_f ≡ₚ events_g)
  ∧ make_event_queues c global_spikes queues
    = make_event_queues_with
        (λ dom, bool_decide (length (domain_connections c dom)
                             < length (domain_spikes global_spikes dom)))
        c global_spikes queues.
Proof.
  intros [Hwf ->]%construct_Done_iff Hs.
  set (c := built dom_dec num_domains (local_table rec dom_dec)).
  assert (connections_sorted c) as Hc by apply built_connections_sorted.
  assert (found_pairs_with f c global_spikes
          ≡ₚ found_pairs_with g c global_spikes) as Hfg.
  { by rewrite !found_pairs_with_sorted. }
  split_and!.
  - by rewrite Hfg.
  - apply make_event_queues_with_deliver.
  - intros queues_f. rewrite !make_event_queues_with_deliver.
    case_decide; [|done]. intros [Hall ->]%deliver_Done_iff.
    exists (extend queues (found_pairs_with g c global_spikes)). split_and!.
    + apply deliver_Done. by rewrite <-Hfg.
    + by rewrite !length_extend.
    + intros i events_f. rewrite !lookup_extend.
      destruct (queues !! i) as [q|]; simpl; [|done].
      intros [= <-]. eexists. split; [done|].
      f_equiv. by apply appended_Permutation.
  - apply make_event_queues_with_sizes.
Qed.

Lemma strategies_emit_same_events_witness :
  SortsSpec Example.sorts
  ∧ construct (So := Example.sorts) Example.recipe_c Example.decomposition_c 2
    = Done Example.communicator_c
  ∧ spikes_sorted 2 Example.spikes_c
  ∧ (λ p, make_event p.1 p.2)
    <$> found_pairs_with (λ _, true) Example.communicator_c Example.spikes_c
    ≡ₚ (λ p, make_event p.1 p.2)
       <$> found_pairs_with (λ _, false) Example.communicator_c
             Example.spikes_c.
Proof.
  split; [exact example_sorts_spec|].
  split; [exact construct_example_c|].
  split; [exact example_c_spikes_sorted|].
  apply (@strategies_emit_same_events Example.scalars Example.sorts
           example_sorts_spec Example.recipe_c Example.decomposition_c
           2 Example.communicator_c Example.spikes_c (λ _, true) (λ _, false)
           [[]; []] construct_example_c example_c_spikes_sorted).
Defined.

(** C4, as stated, fails: a spike slice that is not sorted by source makes
    the two branches append different events.  The communicator is built
    by the constructor; with connections outer two events are appended,
    with spikes outer none. *)
Lemma strategies_differ_on_unsorted_spikes :
  construct (So := Example.sorts) Example.recipe_b Example.decomposition_a 1
    = Done Example.communicator_b
  ∧ make_event_queues_with (λ _, true) Example.communicator_b
      Example.spikes_unsorted [[]]
    = Done [[Example.event_a; Example.event_a]]
  ∧ make_event_queues_with (λ _, false) Example.communicator_b
      Example.spikes_unsorted [[]]
    = Done [[]]
  ∧ ¬ ((λ p, make_event p.1 p.2)
       <$> found_pairs_with (λ _, true) Example.communicator_b
             Example.spikes_unsorted
       ≡ₚ (λ p, make_event p.1 p.2)
          <$> found_pairs_with (λ _, false) Example.communicator_b
                Example.spikes_unsorted).
Proof.
  split; [exact construct_example_b|].
  split; [vm_compute; reflexivity|]. split; [vm_compute; reflexivity|].
  intros Hp. apply Permutation_length in Hp. vm_compute in Hp. discriminate.
Qed.

(** C5.  When the constructor returns [c]: [connection_part] has
    [num_domains + 1] entries, starts at [0], is monotone non-decreasing
    and ends at the number of connections; and the connection at a
    position [i] of the table has its source on domain [d] if and only if
    [i] lies in [connection_part[d], connection_part[d + 1]). *)
Theorem construct_partitions_by_source_domain `{Sc : Scalars} {So : Sorts Sc}
    {Spec : SortsSpec So} (rec : recipe) (dom_dec : domain_decomposition)
    (num_domains : nat) (c : communicator) :
  construct rec dom_dec num_domains = Done c →
  num_domains_ c = num_domains
  ∧ length (connection_part_ c) = num_domains + 1
  ∧ connection_part_ c !!! 0 = 0
  ∧ (∀ a b, a ≤ b → b ≤ num_domains →
       connection_part_ c !!! a ≤ connection_part_ c !!! b)
  ∧ connection_part_ c !!! num_domains = length (connections c)
  ∧ (∀ i k d, connections c !! i = Some k → d < num_domains →
       gid_domain dom_dec (gid (source k)) = d ↔
       connection_part_ c !!! d ≤ i < connection_part_ c !!! (d + 1)).
Proof.
  intros [Hwf ->]%construct_Done_iff.
  pose proof (well_formed_local_table _ _ _ Hwf) as Hdom.
  split_and!.
  - done.
  - rewrite built_connection_part_length. lia.
  - done.
  - apply built_connection_part_mono.
  - by apply built_connection_part_last.
  - intros i k d Hk Hd. by apply built_position.
Qed.

Lemma construct_partitions_by_source_domain_witness :
  SortsSpec Example.sorts
  ∧ construct (So := Example.sorts) Example.recipe_c Example.decomposition_c 2
    = Done Example.communicator_c
  ∧ connection_part_ Example.communicator_c = [0; 2; 5]
  ∧ (∀ i k d, connections Example.communicator_c !! i = Some k → d < 2 →
       gid_domain Example.decomposition_c (gid (source k)) = d ↔
       connection_part_ Example.communicator_c !!! d ≤ i
       < connection_part_ Example.communicator_c !!! (d + 1)).
Proof.
  split; [exact example_sorts_spec|].
  split; [exact construct_example_c|]. split; [reflexivity|].
  apply (@construct_partitions_by_source_domain Example.scalars Example.sorts
           example_sorts_spec Example.recipe_c Example.decomposition_c
           2 Example.communicator_c construct_example_c).
Defined.

(** C6.  When the constructor returns [c], the slice of every domain is
    sorted in the order on connections (no connection is less than one
    before it), hence non-decreasing in source, and the connections with
    one source are contiguous in it. *)
Theorem construct_sorts_every_slice `{Sc : Scalars} {So : Sorts Sc}
    {Spec : SortsSpec So} (rec : recipe) (dom_dec : domain_decomposition)
    (num_domains : nat) (c : communicator) (d : nat) :
  construct rec dom_dec num_domains = Done c →
  d < num_domains →
  let slice := domain_connections c d in
  StronglySorted (λ a b, connection_lt b a = false) slice
  ∧ StronglySorted (λ a b, member_le (source a) (source b)) slice
  ∧ (∀ i j m a x b, i ≤ j → j ≤ m →
       slice !! i = Some a → slice !! j = Some x → slice !! m = Some b →
       source a = source b → source x = source a).
Proof.
  intros [Hwf ->]%construct_Done_iff Hd. cbv zeta.
  pose proof (built_domain_sorted dom_dec num_domains
                (local_table rec dom_dec) d Hd) as Hsorted.
  pose proof (sorted_by_source_of_sorted _ Hsorted) as Hsource.
  split_and!; [done..|].
  intros i j m a x b. by apply sorted_by_contiguous.
Qed.

Lemma construct_sorts_every_slice_witness :
  SortsSpec Example.sorts
  ∧ construct (So := Example.sorts) Example.recipe_c Example.decomposition_c 2
    = Done Example.communicator_c
  ∧ 1 < 2
  ∧ StronglySorted (λ a b, member_le (source a) (source b))
      (domain_connections Example.communicator_c 1).
Proof.
  split; [exact example_sorts_spec|].
  split; [exact construct_example_c|]. split; [lia|].
  apply (@construct_sorts_every_slice Example.scalars Example.sorts
           example_sorts_spec Example.recipe_c Example.decomposition_c
           2 Example.communicator_c 1 construct_example_c). lia.
Defined.

(** C7.  [exchange] hands the sorted spikes to [gather_spikes]: the
    global array is the concatenation, domain by domain, of each domain's
    spikes sorted by source.  So the slice of every domain is that
    domain's spikes in non-decreasing source order; the whole array need
    not be sorted, as two domains with one spike each show. *)
Theorem exchange_slices_sorted `{Sc : Scalars} {So : Sorts Sc}
    {Spec : SortsSpec So} (c : communicator) (local_spikes : list (list spike)) :
  let global_spikes := (exchange c local_spikes).1 in
  global_spikes = gather_spikes (sort_by_source <$> local_spikes)
  ∧ (∀ d spikes, local_spikes !! d = Some spikes →
       domain_spikes global_spikes d = sort_by_source spikes
       ∧ domain_spikes global_spikes d ≡ₚ spikes
       ∧ sorted_by sp_source (domain_spikes global_spikes d))
  ∧ spikes_sorted (length local_spikes) global_spikes
  ∧ ∃ unsorted : list (list spike),
      ¬ sorted_by sp_source (values (exchange c unsorted).1).
Proof.
  cbv zeta. rewrite exchange_fst.
  assert (∀ d spikes, local_spikes !! d = Some spikes →
            domain_spikes (gather_spikes (sort_by_source <$> local_spikes)) d
            = sort_by_source spikes) as Hslice.
  { intros d spikes Hd. apply domain_spikes_gather.
    by rewrite list_lookup_fmap, Hd. }
  split_and!.
  - done.
  - intros d spikes Hd. rewrite (Hslice d spikes Hd). split_and!.
    + done.
    + apply sort_by_source_perm.
    + apply sort_by_source_sorted.
  - intros d Hd. destruct (lookup_lt_is_Some_2 _ _ Hd) as [spikes Hspikes].
    rewrite (Hslice d spikes Hspikes). apply sort_by_source_sorted.
  - exists [[mk_spike (mk_member 1 0) time_zero];
            [mk_spike (mk_member 0 0) time_zero]].
    rewrite exchange_fst. simpl.
    pose proof (sort_by_source_perm [mk_spike (mk_member 1 0) time_zero])
      as ->%Permutation_singleton_r.
    pose proof (sort_by_source_perm [mk_spike (mk_member 0 0) time_zero])
      as ->%Permutation_singleton_r.
    simpl. unfold sorted_by. intros Hs.
    apply StronglySorted_cons in Hs as [Hs _].
    apply Forall_cons in Hs as [Hs _]. done.
Qed.

Lemma exchange_slices_sorted_witness :
  SortsSpec Example.sorts
  ∧ spikes_sorted 2
      (exchange (So := Example.sorts) Example.communicator_c
         Example.local_spikes_c).1.
Proof.
  split; [exact example_sorts_spec|].
  apply (@exchange_slices_sorted Example.scalars Example.sorts
           example_sorts_spec Example.communicator_c
           Example.local_spikes_c).
Defined.

(** C8, as amended.  Starting from a counter at zero, as the constructor
    and [reset] leave it, after any sequence of [exchange] calls
    [num_spikes] is the sum of the sizes of the global spike arrays those
    calls returned, reduced modulo [2^64] as the [std::uint64_t] counter
    wraps; it is that sum whenever the sum is below [2^64].  The calls and
    [reset] leave the connection table and both partitions unchanged, and
    [reset] sets the counter to zero. *)
Theorem num_spikes_counts_exchanged_spikes `{Sc : Scalars} {So : Sorts Sc}
    (c : communicator) (calls : list (list (list spike))) :
  num_spikes c = 0%Z →
  let returned := (exchanges c calls).1 in
  let c' := (exchanges c calls).2 in
  num_spikes c' = (total_size returned `mod` 2 ^ 64)%Z
  ∧ ((total_size returned < 2 ^ 64)%Z → num_spikes c' = total_size returned)
  ∧ (connections c' = connections c
     ∧ connection_part_ c' = connection_part_ c
     ∧ index_divisions_ c' = index_divisions_ c)
  ∧ num_spikes (reset c') = 0%Z
  ∧ (connections (reset c') = connections c'
     ∧ connection_part_ (reset c') = connection_part_ c'
     ∧ index_divisions_ (reset c') = index_divisions_ c')
  ∧ (∀ rec dom_dec num_domains c0,
       construct rec dom_dec num_domains = Done c0 → num_spikes c0 = 0%Z).
Proof.
  intros Hzero. cbv zeta.
  assert (num_spikes (exchanges c calls).2
          = (total_size (exchanges c calls).1 `mod` 2 ^ 64)%Z) as Hn.
  { rewrite exchanges_num_spikes by (rewrite Hzero; lia).
    by rewrite Hzero, Z.add_0_l. }
  split_and!; try done.
  - intros Hsmall. rewrite Hn. apply Z.mod_small.
    pose proof (total_size_nonneg (exchanges c calls).1). lia.
  - apply exchanges_table.
  - apply exchanges_table.
  - apply exchanges_table.
  - intros rec dom_dec num_domains c0. apply construct_num_spikes.
Qed.

Lemma num_spikes_counts_exchanged_spikes_witness :
  num_spikes (reset Example.communicator_c) = 0%Z
  ∧ total_size
      (exchanges (So := Example.sorts) (reset Example.communicator_c)
         [Example.local_spikes_c; []; Example.local_spikes_c]).1 = 8%Z
  ∧ num_spikes
      (exchanges (So := Example.sorts) (reset Example.communicator_c)
         [Example.local_spikes_c; []; Example.local_spikes_c]).2
    = (total_size
         (exchanges (So := Example.sorts) (reset Example.communicator_c)
            [Example.local_spikes_c; []; Example.local_spikes_c]).1
       `mod` 2 ^ 64)%Z.
Proof.
  split; [reflexivity|]. split; [vm_compute; reflexivity|].
  exact (proj1 (@num_spikes_counts_exchanged_spikes Example.scalars
                  Example.sorts (reset Example.communicator_c)
                  [Example.local_spikes_c; []; Example.local_spikes_c]
                  eq_refl)).
Defined.

(** C8, as stated, fails once [2^64] spikes have been exchanged: after
    [2^32] calls that each return [2^32] spikes the counter is back at
    zero, not at the sum [2^64]. *)
Lemma num_spikes_wraps_around :
  total_size
    (exchanges (So := Example.sorts) (reset Example.communicator_a)
       Example.many_calls).1 = (2 ^ 64)%Z
  ∧ num_spikes
      (exchanges (So := Example.sorts) (reset Example.communicator_a)
         Example.many_calls).2 = 0%Z
  ∧ num_spikes
      (exchanges (So := Example.sorts) (reset Example.communicator_a)
         Example.many_calls).2
    ≠ total_size
        (exchanges (So := Example.sorts) (reset Example.communicator_a)
           Example.many_calls).1.
Proof.
  unfold Example.many_calls.
  pose proof (total_size_repeated_calls (Spec := example_sorts_spec)
                (reset Example.communicator_a) (Z.to_nat (2 ^ 32))
                (Z.to_nat (2 ^ 32)) Example.spike_a) as Htotal.
  rewrite !Z2Nat.id in Htotal by lia.
  pose proof (exchanges_num_spikes (So := Example.sorts)
                (reset Example.communicator_a)
                (replicate (Z.to_nat (2 ^ 32))
                   [replicate (Z.to_nat (2 ^ 32)) Example.spike_a])) as Hn.
  rewrite Htotal in *. rewrite Hn by (change (0 ≤ 0 < 2 ^ 64)%Z; lia).
  split_and!; [reflexivity|reflexivity|discriminate].
Qed.

(** C9.  [make_event_queues] only appends: when it returns, there are as
    many queues as before and each starts with its old contents.  With an
    empty global spike array it returns the queues unchanged, provided the
    asserted precondition on their number holds, and fails that assertion
    otherwise. *)
Theorem make_event_queues_only_appends `{Sc : Scalars}
    (c : communicator) (global_spikes : gathered_vector)
    (queues : list pse_vector) :
  (∀ queues', make_event_queues c global_spikes queues = Done queues' →
     length queues' = length queues
     ∧ ∀ i q, queues !! i = Some q → ∃ new, queues' !! i = Some (q ++ new))
  ∧ (values global_spikes = [] →
     make_event_queues c global_spikes queues
     = if decide (length queues = num_local_cells c)
       then Done queues else AssertionFailure).
Proof.
  split.
  - intros queues'. rewrite make_event_queues_deliver. case_decide; [|done].
    intros [_ ->]%deliver_Done_iff. split; [apply length_extend|].
    intros i q Hq. eexists. by rewrite lookup_extend, Hq.
  - intros Hnil. unfold make_event_queues, num_local_cells.
    case_decide; [|done].
    apply for_each_id. intros dom _. unfold domain_spikes.
    rewrite Hnil, subrange_nil. simpl.
    by destruct (domain_connections c dom).
Qed.

Lemma make_event_queues_only_appends_witness :
  (∀ queues',
     make_event_queues Example.communicator_a Example.spikes_a
       [[Example.event_old]] = Done queues' →
     length queues' = 1
     ∧ ∀ i q, [[Example.event_old]] !! i = Some q →
         ∃ new, queues' !! i = Some (q ++ new))
  ∧ make_event_queues Example.communicator_a Example.no_spikes
      [[Example.event_old]]
    = Done [[Example.event_old]].
Proof.
  split.
  - apply (make_event_queues_only_appends Example.communicator_a
             Example.spikes_a [[Example.event_old]]).
  - apply (proj2 (make_event_queues_only_appends Example.communicator_a
                    Example.no_spikes [[Example.event_old]])).
    reflexivity.
Defined.

(** C10.  Every connection the constructor stores carries as
    [index_on_domain] the position, in the flat group-by-group sequence of
    gids, of the cell whose connections the recipe listed it under; this
    is below [num_local_cells].  Hence with [num_local_cells] queues
    [make_event_queues] returns: no [queues[index_on_domain]] is outside
    the vector. *)
Theorem construct_index_on_domain_in_range `{Sc : Scalars} {So : Sorts Sc}
    {Spec : SortsSpec So} (rec : recipe) (dom_dec : domain_decomposition)
    (num_domains : nat) (c : communicator) :
  construct rec dom_dec num_domains = Done c →
  (∀ k, k ∈ connections c →
     index_on_domain k < num_local_cells c
     ∧ ∃ g con, flat_gids dom_dec !! index_on_domain k = Some g
         ∧ con ∈ connections_on rec g
         ∧ k = local_connection (index_on_domain k) con)
  ∧ (∀ global_spikes queues,
       length queues = num_local_cells c →
       ∃ queues', make_event_queues c global_spikes queues = Done queues').
Proof.
  intros [Hwf ->]%construct_Done_iff.
  pose proof (well_formed_local_table _ _ _ Hwf) as Hdom.
  assert (∀ k, k ∈ connections
                     (built dom_dec num_domains (local_table rec dom_dec)) →
               index_on_domain k < dd_num_local_cells dom_dec
               ∧ ∃ g con, flat_gids dom_dec !! index_on_domain k = Some g
                   ∧ con ∈ connections_on rec g
                   ∧ k = local_connection (index_on_domain k) con) as Hidx.
  { intros k Hk. unfold connections in Hk.
    rewrite (built_connections_Permutation _ _ _ Hdom) in Hk.
    apply elem_of_local_connections in Hk as (i & g & con & Hg & Hcon & ->).
    simpl. split; [|by exists g, con].
    destruct Hwf as [Hcells _]. apply lookup_lt_Some in Hg. lia. }
  split; [exact Hidx|].
  intros global_spikes queues Hlen. rewrite make_event_queues_deliver.
  rewrite decide_True by done. eexists. apply deliver_Done.
  apply Forall_forall. intros p Hp. apply found_pairs_elem_of in Hp.
  rewrite Hlen. by apply Hidx.
Qed.

Lemma construct_index_on_domain_in_range_witness :
  SortsSpec Example.sorts
  ∧ construct (So := Example.sorts) Example.recipe_c Example.decomposition_c 2
    = Done Example.communicator_c
  ∧ (∀ k, k ∈ connections Example.communicator_c →
       index_on_domain k < 2
       ∧ ∃ g con,
           flat_gids Example.decomposition_c !! index_on_domain k = Some g
           ∧ con ∈ connections_on Example.recipe_c g
           ∧ k = local_connection (index_on_domain k) con)
  ∧ (∀ global_spikes queues,
       length queues = 2 →
       ∃ queues',
         make_event_queues Example.communicator_c global_spikes queues
         = Done queues').
Proof.
  split; [exact example_sorts_spec|].
  split; [exact construct_example_c|].
  exact (@construct_index_on_domain_in_range Example.scalars Example.sorts
           example_sorts_spec Example.recipe_c Example.decomposition_c 2
           Example.communicator_c construct_example_c).
Defined.

(** * Further properties of the communicator *)

(** ** Which failure the code can meet *)

Lemma vec_store_not_assertion {A} (v : list A) i x :
  vec_store v i x ≠ AssertionFailure.
Proof. unfold vec_store. by case_decide. Qed.

Lemma outcome_bind_not_assertion {A B} (f : A → outcome B) (m : outcome A) :
  m ≠ AssertionFailure → (∀ a, f a ≠ AssertionFailure) →
  m ≫= f ≠ AssertionFailure.
Proof. intros Hm Hf. destruct m; simpl; [apply Hf|done..]. Qed.

Lemma for_each_not_assertion {A St} (body : St → A → outcome St) l st :
  (∀ st x, body st x ≠ AssertionFailure) →
  for_each body l st ≠ AssertionFailure.
Proof.
  intros Hbody. revert st. induction l as [|x l IH]; intros st; simpl; [done|].
  by apply outcome_bind_not_assertion.
Qed.

Lemma construct_not_assertion `{Sc : Scalars} {So : Sorts Sc}
    rec dom_dec num_domains :
  construct rec dom_dec num_domains ≠ AssertionFailure.
Proof.
  unfold construct. apply outcome_bind_not_assertion.
  { apply for_each_not_assertion. intros. apply vec_store_not_assertion. }
  intros gid_infos. apply outcome_bind_not_assertion.
  { apply for_each_not_assertion. intros st g.
    apply for_each_not_assertion. intros [sd sc] con.
    apply outcome_bind_not_assertion; [apply vec_store_not_assertion|done]. }
  intros [sd sc]. apply outcome_bind_not_assertion; [|by intros [[? ?] ?]].
  apply for_each_not_assertion. intros st cell.
  apply for_each_not_assertion. intros [[conns offsets] pos] k.
  apply outcome_bind_not_assertion; [apply vec_store_not_assertion|].
  intros offsets'.
  apply outcome_bind_not_assertion; [apply vec_store_not_assertion|done].
Qed.

(** ** The table holds the connections of the recipe *)

Section RecipeConnections.
Context `{Sc : Scalars}.

Lemma local_connections_app (l1 l2 : list gid_info) :
  local_connections (l1 ++ l2) = local_connections l1 ++ local_connections l2.
Proof. unfold local_connections. apply bind_app. Qed.

Lemma local_connections_init n :
  local_connections (replicate n gid_info_init) = [].
Proof.
  unfold local_connections. apply bind_nil_all.
  by intros x [-> _]%elem_of_replicate.
Qed.

Lemma local_connections_imap (rec : recipe) (f : nat → nat) (gids : list N) :
  local_connections
    (imap (λ i gid, mk_gid_info gid (f i) (connections_on rec gid)) gids)
  = mjoin (imap (λ i g, local_connection (f i) <$> connections_on rec g) gids).
Proof.
  revert f. induction gids as [|g gids IH]; intros f; [done|].
  simpl. f_equal. apply (IH (f ∘ S)).
Qed.

Lemma local_table_recipe_connections rec dom_dec :
  local_table rec dom_dec = recipe_connections rec dom_dec.
Proof.
  unfold local_table, expected_gid_infos, recipe_connections.
  rewrite local_connections_app, local_connections_init, app_nil_r.
  apply (local_connections_imap rec id).
Qed.

Lemma length_mjoin_imap_connections (rec : recipe) (f : nat → nat) (gids : list N) :
  length (mjoin (imap (λ i g, local_connection (f i) <$> connections_on rec g)
                   gids))
  = sum_list ((λ g, length (connections_on rec g)) <$> gids).
Proof.
  revert f. induction gids as [|g gids IH]; intros f; [done|].
  simpl. rewrite length_app, length_fmap. f_equal. apply (IH (f ∘ S)).
Qed.

Lemma length_recipe_connections rec dom_dec :
  length (recipe_connections rec dom_dec)
  = sum_list ((λ g, length (connections_on rec g)) <$> flat_gids dom_dec).
Proof. apply (length_mjoin_imap_connections rec id). Qed.
End RecipeConnections.

(** X1.  The constructor runs to completion exactly when the groups list
    at most [num_local_cells] gids and [gid_domain] sends the source of
    every connection of a listed cell to a domain below
    [distributed->size()].  Otherwise a store falls outside a vector: a
    gid past [num_local_cells] has no entry in [gid_infos], a domain at or
    past the number of domains none in [src_counts].  No assertion is
    involved. *)
Theorem construct_completes_iff_in_bounds `{Sc : Scalars} {So : Sorts Sc}
    {Spec : SortsSpec So} (rec : recipe) (dom_dec : domain_decomposition)
    (num_domains : nat) :
  (well_formed rec dom_dec num_domains ↔
   ∃ c, construct rec dom_dec num_domains = Done c)
  ∧ (¬ well_formed rec dom_dec num_domains ↔
     construct rec dom_dec num_domains = OutOfRange).
Proof.
  assert (well_formed rec dom_dec num_domains ↔
          ∃ c, construct rec dom_dec num_domains = Done c) as Hdone.
  { split.
    - intros Hwf. eexists. by apply construct_Done.
    - intros [c Hc]. by apply construct_Done_iff in Hc as [Hwf _]. }
  split; [done|]. rewrite Hdone.
  pose proof (construct_not_assertion rec dom_dec num_domains).
  destruct (construct rec dom_dec num_domains) as [c| |]; [|done|].
  - split; [|done]. intros []. by exists c.
  - split; [done|]. by intros _ [c ?].
Qed.

Lemma construct_completes_iff_in_bounds_witness :
  SortsSpec Example.sorts
  ∧ ¬ well_formed Example.recipe_a Example.decomposition_a 0
  ∧ construct (So := Example.sorts) Example.recipe_a Example.decomposition_a 0
    = OutOfRange.
Proof.
  assert (¬ well_formed Example.recipe_a Example.decomposition_a 0) as Hnot.
  { intros [_ Hdom]. eapply Nat.nlt_0_r, (Hdom 0%N); constructor. }
  split; [exact example_sorts_spec|]. split; [exact Hnot|].
  exact (proj1 (proj2 (@construct_completes_iff_in_bounds Example.scalars
                         Example.sorts example_sorts_spec Example.recipe_a
                         Example.decomposition_a 0)) Hnot).
Defined.

(** X2.  When the constructor returns, the table holds every connection
    the recipe lists on a cell of the local groups exactly once, with the
    cell's position in the flat sequence of gids as [index_on_domain], and
    nothing else: the table is a rearrangement of those connections, and
    its size is the sum of the sizes of the recipe's lists. *)
Theorem construct_stores_each_connection_once `{Sc : Scalars} {So : Sorts Sc}
    {Spec : SortsSpec So} (rec : recipe) (dom_dec : domain_decomposition)
    (num_domains : nat) (c : communicator) :
  construct rec dom_dec num_domains = Done c →
  connections c ≡ₚ recipe_connections rec dom_dec
  ∧ length (connections c)
    = sum_list ((λ g, length (connections_on rec g)) <$> flat_gids dom_dec).
Proof.
  intros [Hwf ->]%construct_Done_iff.
  assert (connections (built dom_dec num_domains (local_table rec dom_dec))
          ≡ₚ recipe_connections rec dom_dec) as Hperm.
  { unfold connections. rewrite <-local_table_recipe_connections.
    by apply built_connections_Permutation, well_formed_local_table. }
  split; [done|]. by rewrite Hperm, length_recipe_connections.
Qed.

Lemma construct_stores_each_connection_once_witness :
  SortsSpec Example.sorts
  ∧ construct (So := Example.sorts) Example.recipe_c Example.decomposition_c 2
    = Done Example.communicator_c
  ∧ connections Example.communicator_c
    ≡ₚ recipe_connections Example.recipe_c Example.decomposition_c
  ∧ length (connections Example.communicator_c) = 5.
Proof.
  split; [exact example_sorts_spec|].
  split; [exact construct_example_c|].
  exact (@construct_stores_each_connection_once Example.scalars Example.sorts
           example_sorts_spec Example.recipe_c Example.decomposition_c 2
           Example.communicator_c construct_example_c).
Defined.

(** ** The ranges of queues of the cell groups *)

Section GroupRanges.
Context `{Sc : Scalars} {So : Sorts Sc}.

Lemma built_group_queue_range dom_dec num_domains table i g :
  groups dom_dec !! i = Some g →
  group_queue_range (built dom_dec num_domains table) i
  = Done (sum_list (length ∘ gids <$> take i (groups dom_dec)),
          sum_list (length ∘ gids <$> take i (groups dom_dec))
          + length (gids g)).
Proof.
  intros Hg. unfold group_queue_range. simpl.
  pose proof (lookup_lt_Some _ _ _ Hg) as Hi.
  rewrite decide_True by done. f_equal.
  assert (make_index (length ∘ gids <$> groups dom_dec) !!! i
          = sum_list (length ∘ gids <$> take i (groups dom_dec))) as Hlo.
  { rewrite make_index_lookup by (rewrite length_fmap; lia).
    by rewrite fmap_take. }
  rewrite (make_index_S _ i (length (gids g))), Hlo; [done|].
  by rewrite list_lookup_fmap, Hg.
Qed.

Lemma built_group_gid dom_dec i g j :
  groups dom_dec !! i = Some g → j < length (gids g) →
  flat_gids dom_dec
    !! (sum_list (length ∘ gids <$> take i (groups dom_dec)) + j)
  = gids g !! j.
Proof.
  intros Hg Hj. unfold flat_gids.
  rewrite <-(lookup_mjoin_block (gids <$> groups dom_dec) i (gids g) j);
    [|by rewrite list_lookup_fmap, Hg|done].
  rewrite <-list_fmap_compose.
  rewrite make_index_lookup; [by rewrite fmap_take|].
  rewrite length_fmap. apply lookup_lt_Some in Hg. lia.
Qed.
End GroupRanges.

(** X3.  For a communicator the constructor returned,
    [group_queue_range(i)] fails its assertion for [i] at or past the
    number of groups; for group [i] it is the half-open range that starts
    at the total size of the groups before it and has the size of the
    group, so the range of the first group starts at [0], each next range
    starts where the previous one ends, and every position of the flat
    sequence of gids lies in the range of some group.  Position [lo + j]
    of the flat sequence holds gid [j] of the group. *)
Theorem group_queue_range_partitions_cells `{Sc : Scalars} {So : Sorts Sc}
    {Spec : SortsSpec So} (rec : recipe) (dom_dec : domain_decomposition)
    (num_domains : nat) (c : communicator) :
  construct rec dom_dec num_domains = Done c →
  (∀ i, length (groups dom_dec) ≤ i →
     group_queue_range c i = AssertionFailure)
  ∧ (∀ i g, groups dom_dec !! i = Some g →
       ∃ lo, group_queue_range c i = Done (lo, lo + length (gids g))
         ∧ lo = sum_list (length ∘ gids <$> take i (groups dom_dec))
         ∧ (∀ j, j < length (gids g) →
              flat_gids dom_dec !! (lo + j) = gids g !! j)
         ∧ (∀ g', groups dom_dec !! (i + 1) = Some g' →
              group_queue_range c (i + 1)
              = Done (lo + length (gids g),
                      lo + length (gids g) + length (gids g'))))
  ∧ (∀ j, j < length (flat_gids dom_dec) →
       ∃ i lo hi, group_queue_range c i = Done (lo, hi) ∧ lo ≤ j < hi).
Proof.
  intros [Hwf ->]%construct_Done_iff. split_and!.
  - intros i Hi. unfold group_queue_range. simpl.
    by rewrite decide_False by lia.
  - intros i g Hg. eexists. split; [by apply built_group_queue_range|].
    split; [done|]. split; [intros j Hj; by apply built_group_gid|].
    intros g' Hg'. rewrite (built_group_queue_range _ _ _ _ g') by done.
    rewrite Nat.add_1_r, (take_S_r _ _ g) by done.
    rewrite fmap_app, sum_list_with_app. simpl.
    by rewrite Nat.add_0_r.
  - intros j Hj. unfold flat_gids in Hj.
    apply mjoin_position in Hj as (i & b & Hb & Hj).
    apply list_lookup_fmap_Some in Hb as (g & -> & Hg).
    rewrite <-list_fmap_compose in Hj.
    exists i. do 2 eexists. split; [by apply built_group_queue_range|].
    rewrite make_index_lookup in Hj
      by (rewrite length_fmap; apply lookup_lt_Some in Hg; lia).
    rewrite (make_index_S _ i (length (gids g))) in Hj
      by (by rewrite list_lookup_fmap, Hg).
    rewrite make_index_lookup in Hj
      by (rewrite length_fmap; apply lookup_lt_Some in Hg; lia).
    rewrite fmap_take. lia.
Qed.

Lemma group_queue_range_partitions_cells_witness :
  SortsSpec Example.sorts
  ∧ construct (So := Example.sorts) Example.recipe_c Example.decomposition_c 2
    = Done Example.communicator_c
  ∧ (∀ i, 2 ≤ i → group_queue_range Example.communicator_c i = AssertionFailure)
  ∧ (∀ j, j < 2 →
       ∃ i lo hi, group_queue_range Example.communicator_c i = Done (lo, hi)
                  ∧ lo ≤ j < hi).
Proof.
  split; [exact example_sorts_spec|].
  split; [exact construct_example_c|].
  pose proof (@group_queue_range_partitions_cells Example.scalars
                Example.sorts example_sorts_spec Example.recipe_c
                Example.decomposition_c 2 Example.communicator_c
                construct_example_c) as (Hfail & _ & Hcover).
  split; [exact Hfail|exact Hcover].
Defined.

(** ** How [make_event_queues] can fail *)

Section RoutingFailures.
Context `{Sc : Scalars}.
Implicit Types (queues : list pse_vector) (pairs : list (connection * spike)).



End RoutingFailures.


(** X5.  Two calls of [make_event_queues] in a row, for two global spike
    arrays, leave in every queue its old contents, then the events of the
    first array, then those of the second.  The calls in the other order
    return as well, with the same events in every queue up to order. *)
Theorem make_event_queues_accumulates `{Sc : Scalars}
    (c : communicator) (first second : gathered_vector)
    (queues queues1 queues2 : list pse_vector) :
  make_event_queues c first queues = Done queues1 →
  make_event_queues c second queues1 = Done queues2 →
  (∀ i q, queues !! i = Some q →
     queues2 !! i
     = Some (q ++ appended i (found_pairs c first)
               ++ appended i (found_pairs c second)))
  ∧ ∃ swapped1 swapped2,
      make_event_queues c second queues = Done swapped1
      ∧ make_event_queues c first swapped1 = Done swapped2
      ∧ length swapped2 = length queues2
      ∧ ∀ i events, queues2 !! i = Some events →
          ∃ events', swapped2 !! i = Some events' ∧ events ≡ₚ events'.
Proof.
  rewrite !make_event_queues_deliver.
  case_decide as Hlen; [|done]. intros [Hall1 ->]%deliver_Done_iff.
  rewrite length_extend, decide_True by done.
  intros [Hall2 ->]%deliver_Done_iff. rewrite length_extend in Hall2.
  split.
  - intros i q Hq. rewrite !lookup_extend, Hq. simpl.
    by rewrite (assoc_L (++)).
  - exists (extend queues (found_pairs c second)).
    exists (extend (extend queues (found_pairs c second)) (found_pairs c first)).
    rewrite make_event_queues_deliver, length_extend, decide_True by done.
    split_and!.
    + by apply deliver_Done.
    + apply deliver_Done. by rewrite length_extend.
    + by rewrite !length_extend.
    + intros i events. rewrite !lookup_extend.
      destruct (queues !! i) as [q|]; simpl; [|done].
      intros [= <-]. eexists. split; [done|].
      rewrite <-!(assoc_L (++)). f_equiv. apply Permutation_app_comm.
Qed.

Lemma make_event_queues_accumulates_witness :
  make_event_queues Example.communicator_a Example.spikes_a
    [[Example.event_old]] = Done [[Example.event_old; Example.event_a]]
  ∧ make_event_queues Example.communicator_a Example.spikes_a
      [[Example.event_old; Example.event_a]]
    = Done [[Example.event_old; Example.event_a; Example.event_a]]
  ∧ ∀ i q, [[Example.event_old]] !! i = Some q →
      [[Example.event_old; Example.event_a; Example.event_a]] !! i
      = Some (q ++ appended i (found_pairs Example.communicator_a
                                 Example.spikes_a)
                ++ appended i (found_pairs Example.communicator_a
                                 Example.spikes_a)).
Proof.
  split; [reflexivity|]. split; [reflexivity|].
  exact (proj1 (make_event_queues_accumulates Example.communicator_a
                  Example.spikes_a Example.spikes_a [[Example.event_old]]
                  [[Example.event_old; Example.event_a]]
                  [[Example.event_old; Example.event_a; Example.event_a]]
                  eq_refl eq_refl)).
Defined.

(** ** From the spikes of the domains to the events in the queues *)

Lemma filter_none {A} (P : A → Prop) `{∀ x, Decision (P x)} (l : list A) :
  (∀ x, x ∈ l → ¬ P x) → filter P l = [].
Proof.
  induction l as [|x l IH]; intros Hl; [done|].
  rewrite filter_cons_False by (apply Hl; constructor).
  apply IH. intros y Hy. apply Hl. by constructor.
Qed.

Lemma join_fmap_bind {A B} (f : A → list B) (l : list A) :
  mjoin (f <$> l) = l ≫= f.
Proof. induction l as [|x l IH]; [done|]. rewrite fmap_cons, bind_cons. simpl. by rewrite IH. Qed.

Lemma filter_all {A} (P : A → Prop) `{∀ x, Decision (P x)} (l : list A) :
  (∀ x, x ∈ l → P x) → filter P l = l.
Proof.
  induction l as [|x l IH]; intros Hl; [done|].
  rewrite filter_cons_True by (apply Hl; constructor).
  f_equal. apply IH. intros y Hy. apply Hl. by constructor.
Qed.

Lemma bind_Permutation_pointwise {A B} (f g : A → list B) (l : list A) :
  (∀ x, x ∈ l → f x ≡ₚ g x) → l ≫= f ≡ₚ l ≫= g.
Proof.
  induction l as [|x l IH]; intros Hfg; [done|]. simpl.
  rewrite (Hfg x) by constructor. f_equiv. apply IH.
  intros y Hy. apply Hfg. by constructor.
Qed.

Lemma bind_seq_imap {A B} (G : nat → A → list B) (l : list A) :
  seq 0 (length l) ≫= (λ d, from_option (G d) [] (l !! d))
  = mjoin (imap G l).
Proof.
  induction l as [|x l IH] using rev_ind; [done|].
  rewrite length_app, Nat.add_1_r, seq_S, bind_app, imap_app, join_app.
  simpl. rewrite app_nil_r, app_nil_r.
  rewrite list_lookup_middle by done. simpl. rewrite Nat.add_0_r.
  f_equal. rewrite <-IH. apply bind_ext_elem_of.
  intros d Hd%elem_of_seq. by rewrite lookup_app_l by lia.
Qed.

Section Delivery.
Context `{Sc : Scalars} {So : Sorts Sc} {Spec : SortsSpec So}.
Implicit Types (cons table : list connection) (spks : list spike).
Implicit Types (local_spikes : list (list spike)).

Lemma gathered_sorted_spikes_sorted local_spikes :
  spikes_sorted (length local_spikes)
    (gather_spikes (sort_by_source <$> local_spikes)).
Proof.
  intros d Hd. destruct (lookup_lt_is_Some_2 local_spikes d Hd) as [spikes Hs].
  rewrite (domain_spikes_gather _ d (sort_by_source spikes))
    by (by rewrite list_lookup_fmap, Hs).
  apply sort_by_source_sorted.
Qed.

Lemma equal_source_pairs_Permutation cons cons' spks spks' :
  cons ≡ₚ cons' → spks ≡ₚ spks' →
  equal_source_pairs cons spks ≡ₚ equal_source_pairs cons' spks'.
Proof.
  intros Hc Hs. rewrite <-!join_connections_outer_pairs.
  transitivity (join_connections_outer cons' spks).
  { unfold join_connections_outer. by rewrite Hc. }
  rewrite <-!join_spikes_outer_Permutation.
  unfold join_spikes_outer. by rewrite Hs.
Qed.

Lemma equal_source_pairs_bucket dom_dec d table spks :
  equal_source_pairs (bucket dom_dec d table) spks
  = equal_source_pairs table (filter (at_home dom_dec d) spks).
Proof.
  rewrite <-!join_connections_outer_pairs. unfold join_connections_outer, bucket.
  induction table as [|cn table IH]; [done|].
  rewrite filter_cons, (bind_cons _ cn table), <-IH. case_decide as Hd.
  - rewrite bind_cons. f_equal. f_equal.
    rewrite list_filter_filter. apply list_filter_iff.
    intros s. unfold at_home, source_domain in *. split; [|by intros [? _]].
    intros Hs. split; [done|]. by rewrite Hs.
  - rewrite list_filter_filter.
    rewrite (filter_none (λ s, sp_source s = source cn ∧ at_home dom_dec d s));
      [done|].
    intros s _ [Hs Hh]. apply Hd.
    unfold at_home, source_domain in *. by rewrite Hs in Hh.
Qed.

Lemma join_spikes_outer_mjoin (blocks : list (list spike)) cons :
  join_spikes_outer (mjoin blocks) cons
  = blocks ≫= (λ spks, join_spikes_outer spks cons).
Proof.
  unfold join_spikes_outer. induction blocks as [|b blocks IH]; [done|].
  rewrite bind_cons, <-IH. apply bind_app.
Qed.

Lemma equal_source_pairs_mjoin table (blocks : list (list spike)) :
  blocks ≫= equal_source_pairs table
  ≡ₚ equal_source_pairs table (mjoin blocks).
Proof.
  rewrite <-join_connections_outer_pairs, <-join_spikes_outer_Permutation.
  rewrite join_spikes_outer_mjoin. apply bind_Permutation_pointwise.
  intros spks _.
  by rewrite <-join_connections_outer_pairs, <-join_spikes_outer_Permutation.
Qed.

(** The pairs the loops match once [exchange] has gathered the spikes of
    the domains. *)
Lemma found_pairs_exchange dom_dec table local_spikes :
  found_pairs (built dom_dec (length local_spikes) table)
    (gather_spikes (sort_by_source <$> local_spikes))
  ≡ₚ equal_source_pairs table (home_spikes dom_dec local_spikes).
Proof.
  rewrite found_pairs_sorted;
    [|apply built_connections_sorted|apply gathered_sorted_spikes_sorted].
  transitivity
    (mjoin (imap (λ d spks, equal_source_pairs table
                              (filter (at_home dom_dec d) spks))
              local_spikes)).
  - rewrite <-bind_seq_imap. apply bind_Permutation_pointwise.
    intros d [_ Hd]%elem_of_seq. simpl in Hd.
    destruct (lookup_lt_is_Some_2 local_spikes d Hd) as [spikes Hs].
    rewrite Hs. simpl. rewrite built_domain_connections by done.
    rewrite (domain_spikes_gather _ d (sort_by_source spikes))
      by (by rewrite list_lookup_fmap, Hs).
    rewrite <-equal_source_pairs_bucket.
    apply equal_source_pairs_Permutation;
      [apply sort_perm|apply sort_by_source_perm].
  - unfold home_spikes. rewrite <-equal_source_pairs_mjoin.
    by rewrite <-join_fmap_bind, fmap_imap.
Qed.

Lemma elem_of_home_spikes dom_dec local_spikes s :
  s ∈ home_spikes dom_dec local_spikes ↔
  ∃ d spikes, local_spikes !! d = Some spikes ∧ s ∈ spikes
              ∧ at_home dom_dec d s.
Proof.
  unfold home_spikes. rewrite list_elem_of_join. split.
  - intros (l & Hs & (d & spikes & -> & Hd)%elem_of_lookup_imap).
    apply list_elem_of_filter in Hs as [Hh Hs]. by exists d, spikes.
  - intros (d & spikes & Hd & Hs & Hh).
    exists (filter (at_home dom_dec d) spikes). split.
    + by apply list_elem_of_filter.
    + apply elem_of_lookup_imap. by exists d, spikes.
Qed.

Lemma home_spikes_all dom_dec local_spikes :
  (∀ d spikes s, local_spikes !! d = Some spikes → s ∈ spikes →
     at_home dom_dec d s) →
  home_spikes dom_dec local_spikes = mjoin local_spikes.
Proof.
  intros Hhome. unfold home_spikes. f_equal.
  rewrite <-(list_fmap_id local_spikes) at 2. rewrite <-imap_const.
  apply imap_ext. intros d spikes Hd. simpl.
  apply filter_all. intros s Hs. by apply (Hhome d spikes).
Qed.

Lemma built_connection_index rec dom_dec num_domains k :
  well_formed rec dom_dec num_domains →
  k ∈ connections_ (built dom_dec num_domains (local_table rec dom_dec)) →
  index_on_domain k < dd_num_local_cells dom_dec.
Proof.
  intros Hwf Hk.
  rewrite (built_connections_Permutation _ _ _
             (well_formed_local_table _ _ _ Hwf)) in Hk.
  apply elem_of_local_connections in Hk as (i & g & con & Hg & Hcon & ->).
  simpl. destruct Hwf as [Hcells _]. apply lookup_lt_Some in Hg. lia.
Qed.

Lemma make_event_queues_exchange rec dom_dec local_spikes c queues :
  construct rec dom_dec (length local_spikes) = Done c →
  length queues = num_local_cells c →
  make_event_queues c (exchange c local_spikes).1 queues
    = Done (extend queues (found_pairs c (exchange c local_spikes).1))
  ∧ found_pairs c (exchange c local_spikes).1
    ≡ₚ equal_source_pairs (recipe_connections rec dom_dec)
         (home_spikes dom_dec local_spikes).
Proof.
  intros [Hwf ->]%construct_Done_iff Hlen. rewrite exchange_fst. split.
  - rewrite make_event_queues_deliver, decide_True by done.
    apply deliver_Done, Forall_forall. intros p Hp%found_pairs_elem_of.
    rewrite Hlen. by eapply built_connection_index.
  - by rewrite found_pairs_exchange, local_table_recipe_connections.
Qed.
End Delivery.

(** X6.  End to end: the constructor has returned, every domain hands
    [exchange] spikes of cells it owns, and the result goes to
    [make_event_queues] with [num_local_cells] queues.  Then the call
    returns, and queue [i] has gained, in some order, exactly one event
    [make_event k s] for every connection [k] the recipe lists on the cell
    at position [i] and every spike [s] of any domain with the source of
    [k]. *)
Theorem exchange_then_make_event_queues_delivers `{Sc : Scalars}
    {So : Sorts Sc} {Spec : SortsSpec So}
    (rec : recipe) (dom_dec : domain_decomposition) (c : communicator)
    (local_spikes : list (list spike)) (queues : list pse_vector) :
  construct rec dom_dec (length local_spikes) = Done c →
  length queues = num_local_cells c →
  (∀ d spikes s, local_spikes !! d = Some spikes → s ∈ spikes →
     gid_domain dom_dec (gid (sp_source s)) = d) →
  ∃ queues',
    make_event_queues c (exchange c local_spikes).1 queues = Done queues'
    ∧ length queues' = length queues
    ∧ ∀ i q, queues !! i = Some q →
        ∃ new, queues' !! i = Some (q ++ new)
          ∧ new ≡ₚ (λ p, make_event p.1 p.2)
                   <$> filter (λ p, index_on_domain p.1 = i
                                    ∧ source p.1 = sp_source p.2)
                         (cprod (recipe_connections rec dom_dec)
                            (mjoin local_spikes)).
Proof.
  intros Hc Hlen Hhome.
  destruct (make_event_queues_exchange rec dom_dec local_spikes c queues Hc Hlen)
    as [Hrun Hfound].
  eexists. split; [exact Hrun|]. split; [apply length_extend|].
  intros i q Hq. eexists. split; [by rewrite lookup_extend, Hq|].
  unfold appended. rewrite Hfound, (home_spikes_all dom_dec) by done.
  unfold equal_source_pairs. by rewrite list_filter_filter.
Qed.

Lemma exchange_then_make_event_queues_delivers_witness :
  SortsSpec Example.sorts
  ∧ construct (So := Example.sorts) Example.recipe_c Example.decomposition_c
      (length Example.local_spikes_c) = Done Example.communicator_c
  ∧ ∃ queues',
      make_event_queues Example.communicator_c
        (exchange (So := Example.sorts) Example.communicator_c
           Example.local_spikes_c).1 [[]; []] = Done queues'
      ∧ length queues' = 2.
Proof.
  split; [exact example_sorts_spec|].
  split; [exact construct_example_c|].
  destruct (@exchange_then_make_event_queues_delivers Example.scalars
              Example.sorts example_sorts_spec Example.recipe_c
              Example.decomposition_c Example.communicator_c
              Example.local_spikes_c [[]; []] construct_example_c eq_refl)
    as (queues' & Hrun & Hlen & _).
  - intros d spikes s Hd Hs.
    destruct d as [|[|d]]; simpl in Hd; [| |done]; injection Hd as <-;
      repeat (apply elem_of_cons in Hs as [->|Hs]; [reflexivity|]);
      by apply elem_of_nil in Hs.
  - by exists queues'.
Defined.

(** X7.  The loops match the spikes of the slice of domain [d] only with
    connections whose source cell the decomposition places on [d].  So of
    the spikes handed to [exchange], those of cells the contributing
    domain owns are matched with all the connections of the recipe that
    have their source, and the others with none: a matched spike was
    contributed by the domain of its source cell, and if no spike is, then
    [make_event_queues] returns the queues as they were. *)
Theorem make_event_queues_matches_home_spikes `{Sc : Scalars}
    {So : Sorts Sc} {Spec : SortsSpec So}
    (rec : recipe) (dom_dec : domain_decomposition) (c : communicator)
    (local_spikes : list (list spike)) :
  construct rec dom_dec (length local_spikes) = Done c →
  found_pairs c (exchange c local_spikes).1
  ≡ₚ equal_source_pairs (recipe_connections rec dom_dec)
       (home_spikes dom_dec local_spikes)
  ∧ (∀ p, p ∈ found_pairs c (exchange c local_spikes).1 →
       ∃ d spikes, local_spikes !! d = Some spikes ∧ p.2 ∈ spikes
                   ∧ gid_domain dom_dec (gid (sp_source p.2)) = d)
  ∧ (∀ queues,
       length queues = num_local_cells c →
       (∀ d spikes s, local_spikes !! d = Some spikes → s ∈ spikes →
          gid_domain dom_dec (gid (sp_source s)) ≠ d) →
       make_event_queues c (exchange c local_spikes).1 queues = Done queues).
Proof.
  intros Hc.
  assert (found_pairs c (exchange c local_spikes).1
          ≡ₚ equal_source_pairs (recipe_connections rec dom_dec)
               (home_spikes dom_dec local_spikes)) as Hfound.
  { pose proof Hc as [Hwf ->]%construct_Done_iff.
    by rewrite exchange_fst, found_pairs_exchange,
      local_table_recipe_connections. }
  split; [done|]. split.
  - intros p Hp. rewrite Hfound in Hp.
    apply list_elem_of_filter in Hp as [_ Hp].
    apply list_elem_of_cprod in Hp as [_ Hp].
    by apply elem_of_home_spikes in Hp.
  - intros queues Hlen Haway.
    destruct (make_event_queues_exchange rec dom_dec local_spikes c queues
                Hc Hlen) as [-> _].
    assert (home_spikes dom_dec local_spikes = []) as Hnone.
    { apply elem_of_nil_inv. intros s (d & spikes & Hd & Hs & Hh)%elem_of_home_spikes.
      by apply (Haway d spikes s). }
    rewrite Hnone in Hfound.
    rewrite <-join_connections_outer_pairs, join_connections_outer_nil in Hfound.
    apply Permutation_nil_r in Hfound. rewrite Hfound.
    f_equal. unfold extend.
    rewrite <-(list_fmap_id queues) at 2. rewrite <-imap_const.
    apply imap_ext. intros i q _. unfold appended.
    rewrite filter_nil. apply app_nil_r.
Qed.

Lemma make_event_queues_matches_home_spikes_witness :
  SortsSpec Example.sorts
  ∧ construct (So := Example.sorts) Example.recipe_two
      (Example.decomposition_two 1) 2 = Done Example.communicator_two_1
  ∧ make_event_queues Example.communicator_two_1
      (exchange (So := Example.sorts) Example.communicator_two_1
         [[]; [Example.spike_two]]).1 [[]]
    = Done [[]].
Proof.
  split; [exact example_sorts_spec|].
  assert (construct (So := Example.sorts) Example.recipe_two
            (Example.decomposition_two 1) 2 = Done Example.communicator_two_1)
    as Hc by (vm_compute; reflexivity).
  split; [exact Hc|].
  apply (proj2 (proj2 (@make_event_queues_matches_home_spikes Example.scalars
                         Example.sorts example_sorts_spec Example.recipe_two
                         (Example.decomposition_two 1)
                         Example.communicator_two_1 [[]; [Example.spike_two]]
                         Hc))).
  - reflexivity.
  - intros d spikes s Hd Hs.
    destruct d as [|[|d]]; simpl in Hd; [| |done]; injection Hd as <-.
    + by apply elem_of_nil in Hs.
    + apply list_elem_of_singleton in Hs as ->. vm_compute. lia.
Defined.

(** ** Regrouping the cells *)

Section Regrouping.
Context `{Sc : Scalars} {So : Sorts Sc} {Spec : SortsSpec So}.

Lemma bucket_ext (dd1 dd2 : domain_decomposition) d (table : list connection) :
  (∀ g, gid_domain dd1 g = gid_domain dd2 g) →
  bucket dd1 d table = bucket dd2 d table.
Proof.
  intros Hdom. unfold bucket. apply list_filter_iff.
  intros k. unfold source_domain. by rewrite Hdom.
Qed.

Lemma buckets_ext (dd1 dd2 : domain_decomposition) n (table : list connection) :
  (∀ g, gid_domain dd1 g = gid_domain dd2 g) →
  buckets dd1 n table = buckets dd2 n table.
Proof.
  intros Hdom. unfold buckets. apply list_fmap_ext.
  intros _ d _. by apply bucket_ext.
Qed.

Lemma make_event_queues_same_table (c1 c2 : communicator) global_spikes queues :
  num_local_cells_ c1 = num_local_cells_ c2 →
  num_domains_ c1 = num_domains_ c2 →
  connections_ c1 = connections_ c2 →
  connection_part_ c1 = connection_part_ c2 →
  make_event_queues c1 global_spikes queues
  = make_event_queues c2 global_spikes queues.
Proof.
  intros Hcells Hdoms Hcons Hpart.
  unfold make_event_queues, domain_connections.
  by rewrite Hcells, Hdoms, Hcons, Hpart.
Qed.
End Regrouping.

(** X8.  How the local cells are split into groups does not matter for the
    routing.  Two decompositions with the same flat sequence of gids, the
    same [num_local_cells] and the same [gid_domain] make the constructor
    return for both or for neither, with the same connection table and
    partition, so [make_event_queues] does the same for both; only
    [group_queue_range] tells them apart. *)
Theorem construct_ignores_grouping `{Sc : Scalars} {So : Sorts Sc}
    {Spec : SortsSpec So} (rec : recipe) (dd1 dd2 : domain_decomposition)
    (num_domains : nat) (c1 : communicator) :
  construct rec dd1 num_domains = Done c1 →
  flat_gids dd1 = flat_gids dd2 →
  dd_num_local_cells dd1 = dd_num_local_cells dd2 →
  (∀ g, gid_domain dd1 g = gid_domain dd2 g) →
  ∃ c2, construct rec dd2 num_domains = Done c2
    ∧ connections c2 = connections c1
    ∧ connection_part_ c2 = connection_part_ c1
    ∧ num_local_cells c2 = num_local_cells c1
    ∧ ∀ global_spikes queues,
        make_event_queues c2 global_spikes queues
        = make_event_queues c1 global_spikes queues.
Proof.
  intros [[Hcells Hwf] ->]%construct_Done_iff Hgids Hn Hdom.
  assert (well_formed rec dd2 num_domains) as Hwf2.
  { split; [by rewrite <-Hgids, <-Hn|].
    intros g con. rewrite <-Hgids, <-Hdom. apply Hwf. }
  assert (local_table rec dd2 = local_table rec dd1) as Htable.
  { rewrite !local_table_recipe_connections. unfold recipe_connections.
    by rewrite Hgids. }
  eexists. split; [by apply construct_Done|].
  assert (connections (built dd2 num_domains (local_table rec dd2))
          = connections (built dd1 num_domains (local_table rec dd1))) as Hc.
  { unfold connections. simpl. by rewrite Htable, (buckets_ext dd1 dd2). }
  assert (connection_part_ (built dd2 num_domains (local_table rec dd2))
          = connection_part_ (built dd1 num_domains (local_table rec dd1)))
    as Hp.
  { simpl. by rewrite Htable, (buckets_ext dd1 dd2). }
  split_and!; [done|done|by unfold num_local_cells; simpl|].
  intros global_spikes queues. by apply make_event_queues_same_table.
Qed.

Lemma construct_ignores_grouping_witness :
  SortsSpec Example.sorts
  ∧ construct (So := Example.sorts) Example.recipe_c Example.decomposition_c 2
    = Done Example.communicator_c
  ∧ ∃ c2,
      construct (So := Example.sorts) Example.recipe_c
        (mk_domain_decomposition (gid_domain Example.decomposition_c) 2
           [mk_group [0%N; 1%N]]) 2 = Done c2
      ∧ connections c2 = connections Example.communicator_c.
Proof.
  split; [exact example_sorts_spec|].
  split; [exact construct_example_c|].
  destruct (@construct_ignores_grouping Example.scalars Example.sorts
              example_sorts_spec Example.recipe_c Example.decomposition_c
              (mk_domain_decomposition (gid_domain Example.decomposition_c) 2
                 [mk_group [0%N; 1%N]])
              2 Example.communicator_c construct_example_c eq_refl eq_refl
              (λ g, eq_refl)) as (c2 & Hc2 & Hcons & _).
  by exists c2.
Defined.

(** ** The spikes the loops match *)

Section FoundSpikes.
Context `{Sc : Scalars}.

Lemma found_connections_outer_spike cons spks (p : connection * spike) :
  p ∈ found_connections_outer cons spks → p.2 ∈ spks.
Proof.
  revert spks. induction cons as [|cn cons IH]; intros spks; simpl.
  { by intros ?%elem_of_nil. }
  destruct spks as [|s0 spks0]; [by intros ?%elem_of_nil|].
  set (spks := s0 :: spks0). rewrite elem_of_app. intros [Hp|Hp].
  - apply list_elem_of_fmap in Hp as (s' & -> & Hs). simpl.
    by eapply subrange_elem_of.
  - apply IH in Hp. eapply elem_of_sublist; [done|apply sublist_drop].
Qed.

Lemma found_spikes_outer_spike spks cons (p : connection * spike) :
  p ∈ found_spikes_outer spks cons → p.2 ∈ spks.
Proof.
  revert cons. induction spks as [|sp spks IH]; intros cons; simpl.
  { by intros ?%elem_of_nil. }
  destruct cons as [|c0 cons0]; [by intros ?%elem_of_nil|].
  rewrite elem_of_app. intros [Hp|Hp].
  - apply list_elem_of_fmap in Hp as (c' & -> & _). simpl. left.
  - right. by eapply IH.
Qed.

Lemma found_pairs_spike c global_spikes (p : connection * spike) :
  p ∈ found_pairs c global_spikes → p.2 ∈ values global_spikes.
Proof.
  unfold found_pairs. rewrite list_elem_of_bind. intros (dom & Hp & _).
  unfold found_on_domain in Hp.
  eapply subrange_elem_of.
  case_decide.
  - by eapply found_connections_outer_spike.
  - by eapply found_spikes_outer_spike.
Qed.
End FoundSpikes.

(** ** Delays that are not numbers *)

Lemma is_nan_Prim2SF x : ¬ Binary64.not_nan x → Prim2SF x = S754_nan.
Proof.
  unfold Binary64.not_nan, PrimFloat.is_nan. rewrite eqb_spec.
  unfold SFeqb, SFcompare.
  destruct (Prim2SF x) as [s|s| |s m e]; try destruct s; try done.
  - rewrite Z.compare_refl, Pos.compare_cont_refl. by intros [].
  - rewrite Z.compare_refl, Pos.compare_cont_refl. by intros [].
Qed.

Lemma float_ltb_nan_l x y : ¬ Binary64.not_nan x → PrimFloat.ltb x y = false.
Proof. intros Hx%is_nan_Prim2SF. by rewrite ltb_spec, Hx. Qed.

Section NanDelays.
#[local] Existing Instance Binary64.scalars.
Implicit Types (a b : float) (l : list float) (cons : list connection).

Lemma std_min_nan_r a b : ¬ Binary64.not_nan b → std_min a b = a.
Proof. intros Hb. unfold std_min. simpl. by rewrite float_ltb_nan_l. Qed.

Lemma foldl_std_min_skip_nan a l :
  foldl std_min a l = foldl std_min a (filter Binary64.not_nan l).
Proof.
  revert a. induction l as [|x l IH]; intros a; [done|].
  rewrite filter_cons. case_decide as Hx; simpl.
  - apply IH.
  - rewrite std_min_nan_r by done. apply IH.
Qed.

Lemma fmap_delay_filter cons :
  delay <$> filter (λ k, Binary64.not_nan (delay k)) cons
  = filter Binary64.not_nan (delay <$> cons).
Proof.
  induction cons as [|k cons IH]; [done|].
  rewrite fmap_cons, !filter_cons. case_decide; [|done].
  by rewrite fmap_cons, IH.
Qed.

Lemma min_over_skip_nan cons :
  min_over cons = min_over (filter (λ k, Binary64.not_nan (delay k)) cons).
Proof.
  unfold min_over. by rewrite fmap_delay_filter, <-foldl_std_min_skip_nan.
Qed.

Lemma delays_ordered_filter cons :
  delays_ordered Binary64.not_nan
    (filter (λ k, Binary64.not_nan (delay k)) cons).
Proof. apply Forall_forall. by intros k [? _]%list_elem_of_filter. Qed.

Lemma filter_mjoin {A} (P : A → Prop) `{∀ x, Decision (P x)}
    (blocks : list (list A)) :
  filter P (mjoin blocks) = mjoin (filter P <$> blocks).
Proof.
  induction blocks as [|b blocks IH]; [done|].
  rewrite fmap_cons. simpl. by rewrite filter_app, IH.
Qed.

Lemma min_delay_skip_nan (c : communicator) (peers : list communicator) :
  min_delay c peers
  = min_over (filter (λ k, Binary64.not_nan (delay k))
                (global_connections c peers)).
Proof.
  unfold min_delay, global_connections.
  rewrite filter_app, filter_mjoin, <-list_fmap_compose.
  rewrite <-(distributed_min_min_over (TO := binary64_order));
    [|apply delays_ordered_filter|].
  - rewrite local_min_delay_min_over, <-min_over_skip_nan. f_equal.
    rewrite <-list_fmap_compose. apply list_fmap_ext. intros _ p _. simpl.
    by rewrite local_min_delay_min_over, <-min_over_skip_nan.
  - apply Forall_fmap, Forall_forall. intros p _. apply delays_ordered_filter.
Qed.
Lemma min_delay_not_above_delays (c : communicator) (peers : list communicator) :
  Forall (λ k, time_lt (delay k) (min_delay c peers) = false)
    (global_connections c peers).
Proof.
  rewrite min_delay_skip_nan.
  set (valid := filter (λ k : @connection Binary64.scalars,
                          Binary64.not_nan (delay k))
                  (global_connections c peers)).
  pose proof (delays_ordered_filter (global_connections c peers)) as Hord.
  fold valid in Hord.
  destruct (foldl_std_min_lower (TO := binary64_order) time_max
              (delay <$> valid)) as [_ Hall];
    [apply (time_max_ordered (TimeOrder := binary64_order))
    |by apply delays_ordered_fmap|].
  apply Forall_fmap in Hall.
  apply Forall_forall. intros k Hk.
  destruct (decide (Binary64.not_nan (delay k))) as [Hnum|Hnan].
  - apply (proj1 (Forall_forall _ _) Hall). by apply list_elem_of_filter.
  - by apply float_ltb_nan_l.
Qed.

(** X9.  With IEEE binary64 times, a delay that is NaN never becomes the
    minimum: [std::min(local_min, delay)] keeps [local_min] when the
    comparison with a NaN is false.  For every table, [min_delay] is the
    minimum of [numeric_limits::max()] and the delays that are numbers, it
    is itself a number, no delay is below it, and it is
    [numeric_limits::max()] when no delay is a number. *)
Theorem min_delay_ignores_nan_delays
    (c : communicator) (peers : list communicator) :
  min_delay c peers
  = min_over (filter (λ k, Binary64.not_nan (delay k))
                (global_connections c peers))
  ∧ Binary64.not_nan (min_delay c peers)
  ∧ Forall (λ k, time_lt (delay k) (min_delay c peers) = false)
      (global_connections c peers)
  ∧ (Forall (λ k, ¬ Binary64.not_nan (delay k)) (global_connections c peers) →
     min_delay c peers = Binary64.max_value).
Proof.
  split; [apply min_delay_skip_nan|]. split_and!.
  - rewrite min_delay_skip_nan.
    apply (min_over_ordered (TO := binary64_order)), delays_ordered_filter.
  - apply min_delay_not_above_delays.
  - intros Hnan. rewrite min_delay_skip_nan, filter_none; [done|].
    intros k Hk. by apply (proj1 (Forall_forall _ _) Hnan).
Qed.

(** X10.  No event is due sooner after its spike than [min_delay].  With
    IEEE binary64 times, every event [make_event_queues] appends is
    [make_event k s] for a connection [k] of the table and a spike [s] of
    the global array, its time is [s.time + k.delay], and the delay of [k]
    is not below what [min_delay] returns, whatever the tables of the
    other domains hold. *)
Theorem events_not_before_min_delay
    (c : communicator) (peers : list communicator)
    (global_spikes : gathered_vector) (queues queues' : list pse_vector) :
  make_event_queues c global_spikes queues = Done queues' →
  ∀ i q, queues !! i = Some q →
    ∃ new, queues' !! i = Some (q ++ new)
      ∧ Forall (λ ev, ∃ k s,
                  ev = make_event k s
                  ∧ k ∈ connections c ∧ s ∈ values global_spikes
                  ∧ ev_time ev = time_add (sp_time s) (delay k)
                  ∧ time_lt (delay k) (min_delay c peers) = false) new.
Proof.
  rewrite make_event_queues_deliver. case_decide; [|done].
  intros [_ ->]%deliver_Done_iff i q Hq.
  eexists. split; [by rewrite lookup_extend, Hq|].
  unfold appended. apply Forall_fmap, Forall_forall.
  intros p [_ Hp]%list_elem_of_filter. simpl. exists p.1, p.2.
  pose proof (found_pairs_elem_of _ _ _ Hp) as Hk.
  split_and!; [done|done|by eapply found_pairs_spike|done|].
  apply (proj1 (Forall_forall _ _) (min_delay_not_above_delays c peers)).
  unfold global_connections. apply elem_of_app. by left.
Qed.

Lemma events_not_before_min_delay_witness :
  make_event_queues Example.communicator_a Example.spikes_a [[]]
    = Done [[Example.event_a]]
  ∧ ∀ i q, [[]] !! i = Some q →
      ∃ new, [[Example.event_a]] !! i = Some (q ++ new)
        ∧ Forall (λ ev, ∃ k s,
                    ev = make_event k s
                    ∧ k ∈ connections Example.communicator_a
                    ∧ s ∈ values Example.spikes_a
                    ∧ ev_time ev = time_add (sp_time s) (delay k)
                    ∧ time_lt (delay k)
                        (min_delay Example.communicator_a []) = false) new.
Proof.
  split; [reflexivity|].
  exact (events_not_before_min_delay Example.communicator_a []
           Example.spikes_a [[]] [[Example.event_a]] eq_refl).
Defined.

End NanDelays.

(** * Properties of the blocks of a mod file *)

Section ModccFacts.
Context {Token : Type} (spelling : Token → string).
Implicit Types (ion : Modcc.IonDep (Token := Token)).

Lemma find_if_le {A} (pred : A → bool) (l : list A) :
  Modcc.find_if pred l ≤ length l.
Proof. induction l as [|x l IH]; simpl; [done|]. destruct (pred x); lia. Qed.

Lemma find_if_found {A} (pred : A → bool) (l : list A) :
  Modcc.find_if pred l ≠ length l ↔ ∃ x, x ∈ l ∧ pred x = true.
Proof.
  induction l as [|x l IH]; simpl.
  - split; [done|]. by intros (x & Hx%elem_of_nil & _).
  - destruct (pred x) eqn:Hx.
    + split; [|done]. intros _. exists x. split; [constructor|done].
    + split.
      * intros Hne. destruct (proj1 IH) as (y & Hy & Hp); [lia|].
        exists y. split; [by constructor|done].
      * intros (y & [->|Hy]%elem_of_cons & Hp); [congruence|].
        assert (Modcc.find_if pred l ≠ length l); [|lia].
        apply IH. by exists y.
Qed.

Lemma find_if_spelling (tokens : list Token) (n : string) :
  negb (Modcc.find_if (λ t, String.eqb (spelling t) n) tokens =? length tokens)
  = true ↔ ∃ t, t ∈ tokens ∧ spelling t = n.
Proof.
  rewrite negb_true_iff, Nat.eqb_neq, find_if_found.
  by setoid_rewrite String.eqb_eq.
Qed.

Lemma reads_variable_spec ion n :
  Modcc.reads_variable spelling ion n = true ↔
  ∃ t, t ∈ Modcc.read ion ∧ spelling t = n.
Proof. apply find_if_spelling. Qed.

Lemma writes_variable_spec ion n :
  Modcc.writes_variable spelling ion n = true ↔
  ∃ t, t ∈ Modcc.write ion ∧ spelling t = n.
Proof. apply find_if_spelling. Qed.

Lemma has_variable_spec ion n :
  Modcc.has_variable spelling ion n = true ↔
  ∃ t, (t ∈ Modcc.read ion ∨ t ∈ Modcc.write ion) ∧ spelling t = n.
Proof.
  unfold Modcc.has_variable.
  rewrite orb_true_iff, reads_variable_spec, writes_variable_spec. split.
  - intros [(t & Ht & Hn)|(t & Ht & Hn)]; exists t; auto.
  - intros (t & [Ht|Ht] & Hn); [right|left]; by exists t.
Qed.

(** X11.  An ion dependency has a variable exactly when a token of its
    read list or of its write list is spelled so; the lists are searched
    for the spelling alone.  So what an ion writes it also uses: the
    internal and the external concentration and the reversal potential;
    and an ion that reads and writes nothing has no variable at all. *)
Theorem ion_dep_variable_queries ion :
  (∀ n, Modcc.has_variable spelling ion n = true ↔
        ∃ t, (t ∈ Modcc.read ion ∨ t ∈ Modcc.write ion) ∧ spelling t = n)
  ∧ (∀ n, Modcc.writes_variable spelling ion n = true →
          Modcc.has_variable spelling ion n = true)
  ∧ (∀ n, Modcc.reads_variable spelling ion n = true →
          Modcc.has_variable spelling ion n = true)
  ∧ (Modcc.writes_concentration_int spelling ion = true →
     Modcc.uses_concentration_int spelling ion = true)
  ∧ (Modcc.writes_concentration_ext spelling ion = true →
     Modcc.uses_concentration_ext spelling ion = true)
  ∧ (Modcc.writes_rev_potential spelling ion = true →
     Modcc.uses_rev_potential spelling ion = true)
  ∧ (Modcc.uses_current spelling ion = true ↔
     ∃ t, (t ∈ Modcc.read ion ∨ t ∈ Modcc.write ion)
          ∧ spelling t = "i" +:+ Modcc.name ion)
  ∧ (Modcc.read ion = [] → Modcc.write ion = [] →
     ∀ n, Modcc.has_variable spelling ion n = false).
Proof.
  assert (∀ n, Modcc.writes_variable spelling ion n = true →
               Modcc.has_variable spelling ion n = true) as Hw.
  { intros n Hn. unfold Modcc.has_variable. by rewrite Hn. }
  split_and!.
  - apply has_variable_spec.
  - exact Hw.
  - intros n Hn. unfold Modcc.has_variable. rewrite Hn. apply orb_true_r.
  - apply Hw.
  - apply Hw.
  - apply Hw.
  - apply has_variable_spec.
  - intros Hr Hwr n. apply not_true_is_false.
    intros (t & [Ht|Ht] & _)%has_variable_spec.
    + rewrite Hr in Ht. by apply elem_of_nil in Ht.
    + rewrite Hwr in Ht. by apply elem_of_nil in Ht.
Qed.
End ModccFacts.

(** ** The names of the variables of an ion *)

Lemma count_char_app c (s1 s2 : string) :
  Modcc.count_char c (s1 +:+ s2)
  = Modcc.count_char c s1 + Modcc.count_char c s2.
Proof. induction s1 as [|c' s1 IH]; simpl; [done|]. rewrite IH. lia. Qed.

Lemma string_app_inv_head (s s1 s2 : string) : s +:+ s1 = s +:+ s2 → s1 = s2.
Proof. induction s as [|c s IH]; simpl; [done|]. intros [= H]. by apply IH. Qed.

Lemma string_commutes_with_char c (s : string) :
  String c "" +:+ s = s +:+ String c "" ↔ Modcc.only_char c s.
Proof.
  induction s as [|c' s IH]; simpl; [done|]. split.
  - intros [= <- Hs]. split; [done|]. by apply IH.
  - intros [-> Hs]. apply IH in Hs.
    change (String c (String c s) = String c (s +:+ String c "")).
    by rewrite <-Hs.
Qed.

(** X12.  The four variables an ion dependency is asked about, ["i"+name],
    ["e"+name], [name+"i"] and [name+"o"], are pairwise different strings
    for every ion name, with one exception: the current ["i"+name] and the
    internal concentration [name+"i"] are the same string exactly when the
    name consists of the letter [i] only (the empty name included), and
    then [uses_current] and [uses_concentration_int] agree. *)
Theorem ion_dep_variable_names {Token : Type} (spelling : Token → string)
    (ion : Modcc.IonDep (Token := Token)) :
  "i" +:+ Modcc.name ion ≠ "e" +:+ Modcc.name ion
  ∧ "i" +:+ Modcc.name ion ≠ Modcc.name ion +:+ "o"
  ∧ "e" +:+ Modcc.name ion ≠ Modcc.name ion +:+ "i"
  ∧ "e" +:+ Modcc.name ion ≠ Modcc.name ion +:+ "o"
  ∧ Modcc.name ion +:+ "i" ≠ Modcc.name ion +:+ "o"
  ∧ ("i" +:+ Modcc.name ion = Modcc.name ion +:+ "i" ↔
     Modcc.only_char "i"%char (Modcc.name ion))
  ∧ (Modcc.only_char "i"%char (Modcc.name ion) →
     Modcc.uses_current spelling ion
     = Modcc.uses_concentration_int spelling ion).
Proof.
  split_and!.
  - done.
  - intros H. apply (f_equal (Modcc.count_char "i"%char)) in H.
    rewrite !count_char_app in H. simpl in H. lia.
  - intros H. apply (f_equal (Modcc.count_char "e"%char)) in H.
    rewrite !count_char_app in H. simpl in H. lia.
  - intros H. apply (f_equal (Modcc.count_char "e"%char)) in H.
    rewrite !count_char_app in H. simpl in H. lia.
  - by intros H%string_app_inv_head.
  - apply (string_commutes_with_char "i"%char).
  - intros Hi%(string_commutes_with_char "i"%char).
    unfold Modcc.uses_current, Modcc.uses_concentration_int.
    by rewrite Hi.
Qed.

(** ** The units of an identifier *)

Lemma string_app_assoc (s1 s2 s3 : string) :
  (s1 +:+ s2) +:+ s3 = s1 +:+ (s2 +:+ s3).
Proof.
  induction s1 as [|c s1 IH]; [done|].
  change (String c ((s1 +:+ s2) +:+ s3) = String c (s1 +:+ (s2 +:+ s3))).
  by rewrite IH.
Qed.

Lemma string_app_empty (s1 s2 : string) : s1 +:+ s2 = "" → s1 = "" ∧ s2 = "".
Proof. by destruct s1. Qed.

Section UnitString.
Context {Token : Type} (spelling : Token → string).
Implicit Types (u : string) (ts : list Token).

(** One turn of the loop of [unit_string]. *)
Lemma unit_string_loop u ts :
  u ≠ "" →
  foldl (λ u t, (if String.eqb u "" then u else u +:+ " ") +:+ spelling t) u ts
  = String.concat " " (u :: (spelling <$> ts)).
Proof.
  revert u. induction ts as [|t ts IH]; intros u Hu; [done|].
  cbn [foldl]. apply String.eqb_neq in Hu as Hu'. rewrite Hu'.
  rewrite IH.
  - rewrite fmap_cons. cbn [String.concat].
    destruct (spelling <$> ts); by rewrite !string_app_assoc.
  - intros [[? _]%string_app_empty _]%string_app_empty. done.
Qed.
End UnitString.

(** X13.  [unit_string] joins the spellings of the unit tokens with single
    spaces.  A space is added only once the string is not empty, so tokens
    with an empty spelling at the front leave no trace, while one further
    on still gets its space.  The result is empty exactly when every
    spelling is. *)
Theorem unit_string_joins_spellings {Token : Type} (spelling : Token → string)
    (id : Modcc.Id (Token := Token)) :
  (∀ t ts, Modcc.units id = t :: ts → spelling t ≠ "" →
     Modcc.unit_string spelling id
     = String.concat " " (spelling <$> Modcc.units id))
  ∧ (∀ t id', Modcc.units id = t :: Modcc.units id' → spelling t = "" →
       Modcc.unit_string spelling id = Modcc.unit_string spelling id')
  ∧ (Modcc.unit_string spelling id = "" ↔
     Forall (λ t, spelling t = "") (Modcc.units id)).
Proof.
  unfold Modcc.unit_string. split_and!.
  - intros t ts -> Ht. cbn [foldl]. rewrite String.eqb_refl.
    change ("" +:+ spelling t) with (spelling t).
    by rewrite unit_string_loop.
  - intros t id' -> Ht. cbn [foldl]. by rewrite String.eqb_refl, Ht.
  - induction (Modcc.units id) as [|t ts IH]; [done|].
    cbn [foldl]. rewrite String.eqb_refl.
    change ("" +:+ spelling t) with (spelling t).
    destruct (decide (spelling t = "")) as [Ht|Ht].
    + rewrite Ht, IH. split; [by constructor|]. by intros [_ ?]%Forall_cons.
    + rewrite unit_string_loop by done. split.
      * intros Hnil. exfalso. apply Ht. cbn [fmap list_fmap String.concat] in Hnil.
        destruct (spelling <$> ts); [done|].
        by apply string_app_empty in Hnil as [? _].
      * by intros [? _]%Forall_cons.
Qed.

(** * Properties of the miniapp *)

(** ** The cells with an artificial spike *)

Section ArtificialSpikesFacts.
Context (modulus : N).

Lemma spike_loop_multiples (cell_to : N) (n : nat) (k : N) fuel added :
  (cell_to + 20 ≤ modulus)%N →
  ((cell_to + 19) `div` 20 - k = N.of_nat n)%N →
  (n = 0 → (cell_to ≤ 20 * k)%N) →
  (20 * k < modulus)%N →
  n < fuel →
  Miniapp.spike_loop modulus fuel (20 * k) cell_to added
  = Some (added ++ ((λ j, mk_member (20 * (k + N.of_nat j)) 0) <$> seq 0 n)).
Proof.
  intros Hto. revert k fuel added.
  induction n as [|n IH]; intros k fuel added Hn Hexit Hk Hfuel.
  - destruct fuel as [|fuel]; [lia|]. simpl.
    rewrite (proj2 (N.ltb_ge _ _)) by auto. by rewrite app_nil_r.
  - destruct fuel as [|fuel]; [lia|]. cbn [Miniapp.spike_loop].
    assert (20 * k < cell_to)%N as Hlt.
    { pose proof (N.Div0.div_mod (cell_to + 19) 20) as Hdiv.
      pose proof (N.mod_upper_bound (cell_to + 19) 20 ltac:(done)) as Hmod.
      revert Hn Hdiv Hmod.
      generalize ((cell_to + 19) `div` 20)%N ((cell_to + 19) `mod` 20)%N.
      intros q r. lia. }
    rewrite (proj2 (N.ltb_lt _ _)) by done.
    rewrite N.mod_small by lia.
    replace (20 * k + 20)%N with (20 * (k + 1))%N by lia.
    rewrite IH; [|lia| |lia|lia].
    + rewrite <-(assoc_L (++)). do 2 f_equal.
      rewrite <-cons_seq, fmap_cons, N.add_0_r. cbn [app]. f_equal.
      rewrite <-fmap_S_seq, <-list_fmap_compose.
      apply list_fmap_ext. intros _ j _. simpl. do 2 f_equal. lia.
    + intros ->.
      pose proof (N.Div0.div_mod (cell_to + 19) 20) as Hdiv.
      pose proof (N.mod_upper_bound (cell_to + 19) 20 ltac:(done)) as Hmod.
      revert Hn Hdiv Hmod.
      generalize ((cell_to + 19) `div` 20)%N ((cell_to + 19) `mod` 20)%N.
      intros q r. lia.
Qed.
End ArtificialSpikesFacts.

Lemma elem_of_multiples_of_20 (cell_from cell_to g : N) :
  g ∈ Miniapp.multiples_of_20 cell_from cell_to ↔
  (cell_from ≤ g < cell_to)%N ∧ (g `mod` 20 = 0)%N.
Proof.
  unfold Miniapp.multiples_of_20. rewrite list_elem_of_fmap.
  setoid_rewrite elem_of_seq.
  pose proof (N.Div0.div_mod (cell_from + 19) 20) as Hf.
  pose proof (N.mod_upper_bound (cell_from + 19) 20 ltac:(done)) as Hfm.
  pose proof (N.Div0.div_mod (cell_to + 19) 20) as Ht.
  pose proof (N.mod_upper_bound (cell_to + 19) 20 ltac:(done)) as Htm.
  revert Hf Hfm Ht Htm.
  generalize ((cell_from + 19) `div` 20)%N ((cell_from + 19) `mod` 20)%N
    ((cell_to + 19) `div` 20)%N ((cell_to + 19) `mod` 20)%N.
  intros k0 r0 k1 r1 Hf Hfm Ht Htm. split.
  - intros (j & -> & Hj). split; [lia|].
    rewrite N.mul_comm. apply N.Div0.mod_mul.
  - intros [Hg Hmod].
    pose proof (N.Div0.div_mod g 20) as Hgd. rewrite Hmod in Hgd.
    revert Hgd. generalize (g `div` 20)%N. intros q Hq.
    exists (N.to_nat (q - k0)). lia.
Qed.

(** X14.  The loop that injects artificial spikes ends, and it adds one
    spike, on item [0], for exactly the cells of the range
    [cell_from, cell_to) whose gid is a multiple of [20], in ascending
    order; the range may be empty.  This holds when [cell_from + 19] and
    [cell_to + 20] do not exceed the largest gid, so that the unsigned
    arithmetic of the loop does not wrap around. *)
Theorem artificial_spikes_on_multiples_of_20
    (modulus cell_from cell_to : N) (fuel : nat) :
  (cell_from + 19 < modulus)%N →
  (cell_to + 20 ≤ modulus)%N →
  N.to_nat cell_to < fuel →
  Miniapp.add_artificial_spikes modulus fuel cell_from cell_to
  = Some ((λ g, mk_member g 0) <$> Miniapp.multiples_of_20 cell_from cell_to)
  ∧ ∀ g, g ∈ Miniapp.multiples_of_20 cell_from cell_to ↔
         (cell_from ≤ g < cell_to)%N ∧ (g `mod` 20 = 0)%N.
Proof.
  intros Hfrom Hto Hfuel. split; [|apply elem_of_multiples_of_20].
  unfold Miniapp.add_artificial_spikes, Miniapp.first_spike_cell,
    Miniapp.multiples_of_20.
  pose proof (N.Div0.div_mod (cell_from + 19) 20) as Hf.
  pose proof (N.mod_upper_bound (cell_from + 19) 20 ltac:(done)) as Hfm.
  pose proof (N.Div0.div_mod (cell_to + 19) 20) as Ht.
  pose proof (N.mod_upper_bound (cell_to + 19) 20 ltac:(done)) as Htm.
  rewrite (N.mod_small (cell_from + 19)) by done.
  revert Hf Hfm Ht Htm.
  generalize ((cell_from + 19) `div` 20)%N ((cell_from + 19) `mod` 20)%N
    ((cell_to + 19) `div` 20)%N ((cell_to + 19) `mod` 20)%N.
  intros k0 r0 k1 r1 Hf Hfm Ht Htm.
  rewrite N.mod_small by lia.
  rewrite (spike_loop_multiples modulus cell_to (N.to_nat (k1 - k0)));
    [|done| | |lia|lia].
  - by rewrite <-list_fmap_compose.
  - pose proof (N.Div0.div_mod (cell_to + 19) 20) as Ht'.
    pose proof (N.mod_upper_bound (cell_to + 19) 20 ltac:(done)) as Htm'.
    revert Ht' Htm'.
    generalize ((cell_to + 19) `div` 20)%N ((cell_to + 19) `mod` 20)%N.
    intros k1' r1'. lia.
  - lia.
Qed.

Lemma artificial_spikes_on_multiples_of_20_witness :
  (30 + 19 < 2 ^ 32)%N ∧ (95 + 20 ≤ 2 ^ 32)%N ∧ N.to_nat 95 < 100
  ∧ Miniapp.add_artificial_spikes (2 ^ 32) 100 30 95
    = Some [mk_member 40 0; mk_member 60 0; mk_member 80 0].
Proof.
  split; [done|]. split; [done|]. split; [vm_compute; lia|].
  exact (proj1 (artificial_spikes_on_multiples_of_20 (2 ^ 32) 30 95 100
                  eq_refl ltac:(done) ltac:(vm_compute; lia))).
Defined.

(** ** The files of the traces *)

Lemma pretty_N_char_digit (x : N) : Miniapp.is_digit (pretty_N_char x) = true.
Proof.
  unfold pretty_N_char. repeat case_match; vm_compute; reflexivity.
Qed.

Lemma pretty_N_go_digits (x : N) (s : string) :
  Miniapp.all_digits s → Miniapp.all_digits (pretty_N_go x s).
Proof.
  revert s. induction (N.lt_wf_0 x) as [x _ IH]; intros s Hs.
  destruct (decide (x = 0)%N) as [->|Hx]; [by rewrite pretty_N_go_0|].
  rewrite pretty_N_go_step by lia. apply IH.
  - apply N.div_lt; lia.
  - split; [apply pretty_N_char_digit|done].
Qed.

Lemma to_string_digits (n : N) : Miniapp.all_digits (Miniapp.to_string n).
Proof.
  unfold Miniapp.to_string, pretty, pretty_N. case_decide.
  - by split.
  - by apply pretty_N_go_digits.
Qed.

(** Two strings of digits followed by the same character, which is not a
    digit, and then anything: the digits are the same, and the rests. *)
Lemma digits_then_delimiter (c : Ascii.ascii) (s1 s2 r1 r2 : string) :
  Miniapp.is_digit c = false →
  Miniapp.all_digits s1 → Miniapp.all_digits s2 →
  s1 +:+ String c r1 = s2 +:+ String c r2 → s1 = s2 ∧ r1 = r2.
Proof.
  intros Hc. revert s2.
  induction s1 as [|d1 s1 IH]; intros [|d2 s2] H1 H2 Heq.
  - by injection Heq as ->.
  - injection Heq as -> _. destruct H2 as [Hd _]. congruence.
  - injection Heq as -> _. destruct H1 as [Hd _]. congruence.
  - injection Heq as -> Heq. destruct H1 as [_ H1], H2 as [_ H2].
    destruct (IH s2 H1 H2 Heq) as [-> ->]. done.
Qed.

Lemma string_length_app (s1 s2 : string) :
  String.length (s1 +:+ s2) = String.length s1 + String.length s2.
Proof.
  induction s1 as [|c s1 IH]; [done|].
  change (S (String.length (s1 +:+ s2)) = S (String.length s1 + String.length s2)).
  by rewrite IH.
Qed.

Lemma string_app_inv_tail (s1 s2 t : string) : s1 +:+ t = s2 +:+ t → s1 = s2.
Proof.
  revert s2. induction s1 as [|c1 s1 IH]; intros [|c2 s2] Heq; [done| | |].
  - apply (f_equal String.length) in Heq.
    change (String.length t = S (String.length (s2 +:+ t))) in Heq.
    rewrite string_length_app in Heq. lia.
  - apply (f_equal String.length) in Heq.
    change (S (String.length (s1 +:+ t)) = String.length t) in Heq.
    rewrite string_length_app in Heq. lia.
  - injection Heq as -> Heq. by rewrite (IH s2 Heq).
Qed.

(** X15.  [write_trace_json] writes the traces of different probes, or of
    different names, to different files: for one prefix, the path
    determines the gid and the index of the probe and the name of the
    trace. *)
Theorem trace_path_determines_probe {sample_trace : Type}
    (probe_id : sample_trace → cell_member_type)
    (name : sample_trace → string) (t1 t2 : sample_trace) (prefix : string) :
  Miniapp.trace_path probe_id name t1 prefix
  = Miniapp.trace_path probe_id name t2 prefix →
  probe_id t1 = probe_id t2 ∧ name t1 = name t2.
Proof.
  unfold Miniapp.trace_path. rewrite !string_app_assoc.
  intros H%string_app_inv_head.
  apply (digits_then_delimiter "."%char) in H as [Hgid H];
    [|done|apply to_string_digits..].
  apply (digits_then_delimiter "_"%char) in H as [Hidx H];
    [|done|apply to_string_digits..].
  apply string_app_inv_tail in H.
  apply (inj pretty) in Hgid, Hidx. split; [|done].
  destruct (probe_id t1), (probe_id t2). simpl in *.
  by subst.
Qed.

Lemma trace_path_determines_probe_witness :
  Miniapp.trace_path fst (λ t, t.2.1) (mk_member 12 3, ("vsoma", "mV")) "trace_"
  = "trace_12.3_vsoma.json"
  ∧ mk_member 12 3 = mk_member 12 3
  ∧ "vsoma" = "vsoma".
Proof.
  split; [reflexivity|].
  exact (trace_path_determines_probe fst (λ t, t.2.1)
           (mk_member 12 3, ("vsoma", "mV")) (mk_member 12 3, ("vsoma", ""))
           "trace_" eq_refl).
Defined.
